(** * object-fit-videos: a shallow embedding of [object-fit-videos.js]

    The polyfill is one closure, [objectFitVideos], with the inner functions
    [getStyle], [initialize], [fitIt] (and its own inner [startWork],
    [videoDimensionsMonitor], [doWork]), [parsePosition] and [throttle].
    Each of them is embedded below under its own name.

    Modelling conventions.
    - JavaScript numbers are IEEE 754 doubles ([jsnum]): NaN, the two
      infinities, or a finite value, kept as a rational.  Every division,
      multiplication and subtraction rounds its exact result to the nearest
      double, ties to even ([fl]).  The sign of zero is not modelled: every
      integer the script reads from the DOM ([videoWidth], [clientWidth],
      ...) is a natural number, so no negative zero ever reaches a
      division, and a zero of either sign prints as [0].
    - JavaScript strings are [string]s of 8-bit code units.
    - The style object returned by [getStyle] is a finite map from property
      names to strings; an element's inline style is a finite map from
      property names to the values the script last assigned.
    - What the browser supplies (computed styles, intrinsic sizes, client
      sizes, the selector engine) is a record of read-only observations
      ([Platform]); what the script mutates (the DOM tree, inline styles,
      listeners, timers, closure variables) is an explicit [State]. *)

From Stdlib Require Import ZArith QArith Qround Qabs Qpower Lqa.
From Stdlib Require Import String Ascii List Bool Lia.
From Stdlib Require Import Floats Uint63.
From stdpp Require Import base option list strings gmap.

Local Open Scope string_scope.
Local Open Scope list_scope.

(** ** JavaScript numbers *)

Inductive jsnum : Type :=
  | JNaN
  | JInf (negative : bool)
  | JFin (q : Q).

(** An integer of the DOM ([videoWidth] and [videoHeight] are
    [unsigned long], [clientWidth] and [clientHeight] are [long]) or the
    result of [Math.round]: a whole number that is a double as it
    stands. *)
Definition num_of_Z (z : Z) : jsnum := JFin (inject_Z z).
Definition num_of_N (n : N) : jsnum := num_of_Z (Z.of_N n).

Definition Qzerob (q : Q) : bool := (Qnum q =? 0)%Z.
Definition Qnegb (q : Q) : bool := (Qnum q <? 0)%Z.
Definition Qltb (p q : Q) : bool :=
  (Qnum p * Zpos (Qden q) <? Qnum q * Zpos (Qden p))%Z.

(** *** Rounding to binary64

    A double has 53 significant bits and an exponent from -1022 to 1023;
    below [2 ^ -1022] the doubles are spaced by [2 ^ -1074].  The result of
    an arithmetic operation is the double nearest to the exact result, the
    one with an even significand when two are equally near, and an infinity
    when that would be [2 ^ 1024] or more. *)
Definition pow2 (e : Z) : Q := (2 ^ e)%Q.

(** The nearest whole number, ties to the even one. *)
Definition rne (x : Q) : Z :=
  let n := Qfloor x in
  match (x - inject_Z n ?= 1 # 2)%Q with
  | Lt => n
  | Gt => (n + 1)%Z
  | Eq => if Z.even n then n else (n + 1)%Z
  end.

(** The exponent of a positive rational: [2 ^ e <= q < 2 ^ (e + 1)]. *)
Definition ilog2 (q : Q) : Z :=
  let e := (Z.log2 (Qnum q) - Z.log2 (Zpos (Qden q)))%Z in
  if Qle_bool (pow2 e) q then e else (e - 1)%Z.

(** The nearest multiple of the unit in the last place of [q]. *)
Definition round64 (q : Q) : Q :=
  let e := Z.max (ilog2 (Qabs q)) (-1022) in
  let ulp := pow2 (e - 52) in
  inject_Z (rne (q / ulp)) * ulp.

(** The Number that an operation with exact result [q] returns.  The
    rational is kept in lowest terms, so equal numbers are equal terms. *)
Definition fl (q : Q) : jsnum :=
  let q := Qred q in
  let r := Qred (round64 q) in
  if Qle_bool (pow2 1024) (Qabs r) then JInf (Qnegb q) else JFin r.

(** A positive double: 53 bits [m] scaled by a power of two. *)
Definition representable (r : Q) : Prop :=
  exists m j : Z,
    (r == inject_Z m * pow2 j)%Q /\ (0 < m <= 2 ^ 53)%Z /\ (-1074 <= j)%Z.

(** Half the distance between 1 and the next double, [2 ^ -53]: the
    largest relative error of one rounding. *)
Definition u53 : Q := 1 # 9007199254740992.

(** [a / b] *)
Definition jdiv (a b : jsnum) : jsnum :=
  match a, b with
  | JNaN, _ | _, JNaN => JNaN
  | JInf _, JInf _ => JNaN
  | JInf s, JFin q => JInf (xorb s (Qnegb q))
  | JFin _, JInf _ => JFin 0
  | JFin p, JFin q =>
      if Qzerob q then (if Qzerob p then JNaN else JInf (Qnegb p))
      else fl (p / q)
  end.

(** [a * b] *)
Definition jmul (a b : jsnum) : jsnum :=
  match a, b with
  | JNaN, _ | _, JNaN => JNaN
  | JInf s, JInf t => JInf (xorb s t)
  | JInf s, JFin q | JFin q, JInf s =>
      if Qzerob q then JNaN else JInf (xorb s (Qnegb q))
  | JFin p, JFin q => fl (p * q)
  end.

(** [a - b] *)
Definition jsub (a b : jsnum) : jsnum :=
  match a, b with
  | JNaN, _ | _, JNaN => JNaN
  | JInf s, JInf t => if eqb s t then JNaN else JInf s
  | JInf s, JFin _ => JInf s
  | JFin _, JInf t => JInf (negb t)
  | JFin p, JFin q => fl (p - q)
  end.

(** [a < b]; any comparison with NaN is false. *)
Definition jlt (a b : jsnum) : bool :=
  match a, b with
  | JNaN, _ | _, JNaN => false
  | JInf s, JInf t => s && negb t
  | JInf s, JFin _ => s
  | JFin _, JInf t => negb t
  | JFin p, JFin q => Qltb p q
  end.

(** [a >= b]; any comparison with NaN is false. *)
Definition jge (a b : jsnum) : bool :=
  match a, b with
  | JNaN, _ | _, JNaN => false
  | JInf s, JInf t => negb s || t
  | JInf s, JFin _ => negb s
  | JFin _, JInf t => t
  | JFin p, JFin q => Qle_bool q p
  end.

(** [Math.round]: the nearest integer, ties towards plus infinity.  The
    result is exact: a double of magnitude [2 ^ 52] or more is a whole
    number already, and below that the nearest integer is a double. *)
Definition mathRound (a : jsnum) : jsnum :=
  match a with
  | JNaN => JNaN
  | JInf s => JInf s
  | JFin q => num_of_Z (Qfloor (q + (1 # 2)))
  end.

(** ** Style values *)

(** A value assigned to a property of a [CSSStyleDeclaration]:
    a string literal or a computed-style string ([CssStr]), a bare number
    ([CssNum], as in [setCss.marginLeft = 0]) or a number concatenated
    with ['px'] ([CssPx]). *)
Inductive cssval : Type :=
  | CssStr (s : string)
  | CssNum (n : Z)
  | CssPx (n : jsnum).

(** The object built by [getStyle]: property name to raw string. *)
Abbreviation StyleProps := (gmap string string).
(** An element's inline style ([$el.style]). *)
Abbreviation InlineStyle := (gmap string cssval).

(** [style[key] === lit] *)
Definition prop_is (style : StyleProps) (key lit : string) : bool :=
  bool_decide (style !! key = Some lit).

(** ** [doWork]: the sizing arithmetic (lines 182-223)

    [videoWidth] and [videoHeight] are the closure variables of [fitIt];
    [wrapWidth] and [wrapHeight] are [$wrap.clientWidth] and
    [$wrap.clientHeight]; [setCss] is [$el.style]. *)
Definition doWork (style : StyleProps)
    (videoWidth videoHeight wrapWidth wrapHeight : N)
    (setCss : InlineStyle) : InlineStyle :=
  let videoRatio := jdiv (num_of_N videoWidth) (num_of_N videoHeight) in
  let wrapRatio := jdiv (num_of_N wrapWidth) (num_of_N wrapHeight) in
  (* setCss.marginLeft = setCss.marginTop = 0 *)
  let setCss := <["marginTop" := CssNum 0]> setCss in
  let setCss := <["marginLeft" := CssNum 0]> setCss in
  if (if jlt videoRatio wrapRatio
      then prop_is style "object-fit" "contain"
      else prop_is style "object-fit" "cover")
  then
    let newHeight := jmul (num_of_N wrapHeight) videoRatio in
    let setCss := <["width" := CssPx (mathRound newHeight)]> setCss in
    let setCss := <["height" := CssPx (num_of_N wrapHeight)]> setCss in
    if prop_is style "object-position-x" "left" then
      <["marginLeft" := CssNum 0]> setCss
    else if prop_is style "object-position-x" "right" then
      <["marginLeft" :=
          CssPx (mathRound (jsub (num_of_N wrapWidth) newHeight))]> setCss
    else
      <["marginLeft" :=
          CssPx (mathRound (jdiv (jsub (num_of_N wrapWidth) newHeight)
                                 (num_of_Z 2)))]> setCss
  else
    let newWidth := jdiv (num_of_N wrapWidth) videoRatio in
    let setCss := <["width" := CssPx (num_of_N wrapWidth)]> setCss in
    let setCss := <["height" := CssPx (mathRound newWidth)]> setCss in
    if prop_is style "object-position-y" "top" then
      <["marginTop" := CssNum 0]> setCss
    else if prop_is style "object-position-y" "bottom" then
      <["marginTop" :=
          CssPx (mathRound (jsub (num_of_N wrapHeight) newWidth))]> setCss
    else
      <["marginTop" :=
          CssPx (mathRound (jdiv (jsub (num_of_N wrapHeight) newWidth)
                                 (num_of_Z 2)))]> setCss.

(** ** The arithmetic of [doWork] on primitive floats

    The expressions of [doWork] are repeated here on the kernel's binary64
    floats, to compare the rounding written out in [fl] with the machine's
    on concrete sizes. *)
Definition b64_of_N (n : N) : float :=
  PrimFloat.of_uint63 (Uint63.of_Z (Z.of_N n)).

(** [Math.round] of a finite double: the exact value of [x + 1/2],
    rounded down. *)
Definition b64_round (x : float) : option Z :=
  match Prim2SF x with
  | S754_zero _ => Some 0%Z
  | S754_finite s m e =>
      let num := if s then Z.neg m else Z.pos m in
      Some (if (0 <=? e)%Z then num * 2 ^ e
            else (2 * num + 2 ^ (- e)) / (2 * 2 ^ (- e)))%Z
  | _ => None
  end.

Definition b64_ratio (width height : N) : float :=
  PrimFloat.div (b64_of_N width) (b64_of_N height).

(** [wrapHeight * videoRatio] *)
Definition b64_newHeight (videoWidth videoHeight wrapHeight : N) : float :=
  PrimFloat.mul (b64_of_N wrapHeight) (b64_ratio videoWidth videoHeight).

(** [wrapWidth / videoRatio] *)
Definition b64_newWidth (videoWidth videoHeight wrapWidth : N) : float :=
  PrimFloat.div (b64_of_N wrapWidth) (b64_ratio videoWidth videoHeight).

(** [(wrapWidth - newHeight) / 2] *)
Definition b64_centered (videoWidth videoHeight wrapWidth wrapHeight : N)
    : float :=
  PrimFloat.div
    (PrimFloat.sub (b64_of_N wrapWidth)
                   (b64_newHeight videoWidth videoHeight wrapHeight))
    (b64_of_N 2).

(** The value of a finite float, in lowest terms. *)
Definition Q_of_float (x : float) : option Q :=
  match Prim2SF x with
  | S754_zero _ => Some 0%Q
  | S754_finite s m e =>
      Some (Qred (inject_Z (if s then Z.neg m else Z.pos m) * pow2 e))
  | _ => None
  end.

Definition Q_of_jsnum (a : jsnum) : option Q :=
  match a with
  | JFin q => Some q
  | _ => None
  end.

Definition same_value (x : option Q) (y : option Q) : bool :=
  match x, y with
  | Some p, Some q => (Qnum p =? Qnum q)%Z && (Qden p =? Qden q)%positive
  | None, None => true
  | _, _ => false
  end.

(** The quotient, the product, the second quotient and the difference of
    [doWork] for the sizes [a], [b], [c], [d], computed on primitive floats
    and with [fl], give the same numbers. *)
Definition agree_on (a b c d : N) : bool :=
  let r := b64_ratio a b in
  let v := jdiv (num_of_N a) (num_of_N b) in
  same_value (Q_of_float r) (Q_of_jsnum v)
  && same_value (Q_of_float (PrimFloat.mul (b64_of_N d) r))
                (Q_of_jsnum (jmul (num_of_N d) v))
  && same_value (Q_of_float (PrimFloat.div (b64_of_N c) r))
                (Q_of_jsnum (jdiv (num_of_N c) v))
  && same_value (Q_of_float (PrimFloat.sub (b64_of_N c)
                               (PrimFloat.mul (b64_of_N d) r)))
                (Q_of_jsnum (jsub (num_of_N c) (jmul (num_of_N d) v)))
  && same_value (Q_of_float (b64_centered a b c d))
                (Q_of_jsnum (jdiv (jsub (num_of_N c) (jmul (num_of_N d) v))
                                  (num_of_Z 2))).

(** Sizes to compare on: [n] quadruples below [bound] from a linear
    congruential sequence. *)
Fixpoint sample_sizes (n : nat) (seed bound : Z) : list (N * N * N * N) :=
  match n with
  | O => []
  | S n =>
      let next s := ((s * 6364136223846793005 + 1442695040888963407)
                     mod 2 ^ 64)%Z in
      let size s := Z.to_N ((s / 2 ^ 33) mod bound + 1) in
      let s1 := next seed in
      let s2 := next s1 in
      let s3 := next s2 in
      let s4 := next s3 in
      (size s1, size s2, size s3, size s4) :: sample_sizes n s4 bound
  end.

(** ** JavaScript strings and regular expressions *)

(** The exceptions the script can meet, and the result of an expression
    that may throw. *)
Inductive exn : Type := TypeError | SyntaxError.

Inductive result (A : Type) : Type :=
  | Ok (a : A)
  | Throw (e : exn).
Arguments Ok {A} a.
Arguments Throw {A} e.

(** [s.indexOf(sub)]: the least index at which [sub] occurs in [s],
    or -1. *)
Fixpoint indexOf_from (i : Z) (s sub : string) : Z :=
  if String.prefix sub s then i
  else match s with
       | EmptyString => -1
       | String _ s' => indexOf_from (i + 1) s' sub
       end.

Definition indexOf (s sub : string) : Z := indexOf_from 0 s sub.

(** [~n] for [n] in the 32-bit range, and the truthiness of a number. *)
Definition bitNot (n : Z) : Z := Z.lnot n.
Definition truthyZ (n : Z) : bool := negb (n =? 0)%Z.

(** A backtracking matcher for the fragment of regular expressions that
    [propRegex] uses.  Alternatives are tried left to right and the star
    is greedy, as in ECMAScript. *)
Inductive regex : Type :=
  | RLit (c : ascii)
  | RClass (p : ascii -> bool)
  | RSeq (r1 r2 : regex)
  | RAlt (r1 r2 : regex)
  | RStar (r : regex)
  | RGroup (i : nat) (r : regex).

Abbreviation Captures := (gmap nat string).

(** The text consumed between [s] and its suffix [s']. *)
Definition consumed (s s' : string) : string :=
  String.substring 0 (String.length s - String.length s') s.

Section Matcher.
Context {X : Type}.

(** The iterations of a greedy star whose body is matched by [body]:
    one more iteration first, then the continuation.  An iteration
    must consume input, so [length s] iterations is the most there
    can be. *)
Fixpoint star_loop
    (body : string -> Captures -> (string -> Captures -> option X) -> option X)
    (fuel : nat) (s : string) (caps : Captures)
    (k : string -> Captures -> option X) : option X :=
  match fuel with
  | O => k s caps
  | S fuel' =>
      match body s caps (fun s1 caps1 =>
              if (String.length s1 <? String.length s)%nat
              then star_loop body fuel' s1 caps1 k else None) with
      | Some x => Some x
      | None => k s caps
      end
  end.

Fixpoint rmatch (r : regex) (s : string) (caps : Captures)
    (k : string -> Captures -> option X) {struct r} : option X :=
  match r with
  | RLit c =>
      match s with
      | String c' s' => if Ascii.eqb c c' then k s' caps else None
      | EmptyString => None
      end
  | RClass p =>
      match s with
      | String c' s' => if p c' then k s' caps else None
      | EmptyString => None
      end
  | RSeq r1 r2 => rmatch r1 s caps (fun s1 caps1 => rmatch r2 s1 caps1 k)
  | RAlt r1 r2 =>
      match rmatch r1 s caps k with
      | Some x => Some x
      | None => rmatch r2 s caps k
      end
  | RStar r1 => star_loop (rmatch r1) (String.length s) s caps k
  | RGroup i r1 =>
      rmatch r1 s caps (fun s1 caps1 => k s1 (<[i := consumed s s1]> caps1))
  end.
End Matcher.

(** Two syntactic properties used to reason about matches: a regex that
    cannot match the empty string, and a regex without capturing groups. *)
Fixpoint consumes (r : regex) : bool :=
  match r with
  | RLit _ | RClass _ => true
  | RSeq r1 r2 => consumes r1 || consumes r2
  | RAlt r1 r2 => consumes r1 && consumes r2
  | RStar _ => false
  | RGroup _ r1 => consumes r1
  end.

Fixpoint groupless (r : regex) : bool :=
  match r with
  | RLit _ | RClass _ => true
  | RSeq r1 r2 | RAlt r1 r2 => groupless r1 && groupless r2
  | RStar r1 => groupless r1
  | RGroup _ _ => false
  end.

(** [r.exec(s)] for a regex with the global flag and [lastIndex] at the
    start of [s]: the leftmost match, as its captures and the text after
    the match. *)
Fixpoint regexExec (r : regex) (s : string) : option (Captures * string) :=
  match rmatch r s ∅ (fun s' caps => Some (caps, s')) with
  | Some m => Some m
  | None =>
      match s with
      | EmptyString => None
      | String _ s' => regexExec r s'
      end
  end.

Fixpoint lit (s : string) : regex :=
  match s with
  | EmptyString => RStar (RClass (fun _ => false))
  | String c EmptyString => RLit c
  | String c s' => RSeq (RLit c) (lit s')
  end.

Definition in_range (lo hi : N) (c : ascii) : bool :=
  ((lo <=? N_of_ascii c) && (N_of_ascii c <=? hi))%N.

(** [\s] restricted to 8-bit code units: TAB, LF, VT, FF, CR, SP, NBSP. *)
Definition is_space (c : ascii) : bool :=
  in_range 9 13 c || in_range 32 32 c || in_range 160 160 c.

(** [\w]: [A-Za-z0-9_]. *)
Definition is_word (c : ascii) : bool :=
  in_range 65 90 c || in_range 97 122 c || in_range 48 57 c || in_range 95 95 c.

(** [[-\w\s%]] *)
Definition is_value_char (c : ascii) : bool :=
  Ascii.eqb c "-" || is_word c || is_space c || Ascii.eqb c "%".

(** [/(object-fit|object-position)\s*:\s*([-\w\s%]+)/g] *)
Definition propRegex : regex :=
  RSeq (RGroup 1 (RAlt (lit "object-fit") (lit "object-position")))
 (RSeq (RStar (RClass is_space))
 (RSeq (RLit ":")
 (RSeq (RStar (RClass is_space))
       (RGroup 2 (RSeq (RClass is_value_char) (RStar (RClass is_value_char))))))).

(** ** [parsePosition] (lines 231-247) *)
Definition parsePosition (style : StyleProps) : result StyleProps :=
  match style !! "object-position" with
  | None => Throw TypeError   (* undefined.indexOf *)
  | Some pos =>
      let style :=
        if truthyZ (bitNot (indexOf pos "left")) then
          <["object-position-x" := "left"]> style
        else if truthyZ (bitNot (indexOf pos "right")) then
          <["object-position-x" := "right"]> style
        else
          <["object-position-x" := "center"]> style in
      let style :=
        if truthyZ (bitNot (indexOf pos "top")) then
          <["object-position-y" := "top"]> style
        else if truthyZ (bitNot (indexOf pos "bottom")) then
          <["object-position-y" := "bottom"]> style
        else
          <["object-position-y" := "center"]> style in
      Ok style
  end.

(** ** [getStyle] (lines 50-63) *)

(** The truthiness of [props[key]]: present and not the empty string. *)
Definition truthy_prop (props : StyleProps) (key : string) : bool :=
  match props !! key with
  | Some v => negb (String.eqb v "")
  | None => false
  end.

(** The [while] loop over [propRegex.exec(style)].  Every match consumes
    at least one character, so [fuel = length style] iterations are
    enough (lemma [getStyle_loop_fuel] below). *)
Fixpoint getStyle_loop (fuel : nat) (style : string) (props : StyleProps)
    : StyleProps :=
  match fuel with
  | O => props
  | S fuel' =>
      match regexExec propRegex style with
      | None => props
      | Some (parsed, rest) =>
          match parsed !! 1%nat, parsed !! 2%nat with
          | Some key, Some value =>
              getStyle_loop fuel' rest (<[key := value]> props)
          | _, _ => props   (* both groups take part in every match *)
          end
      end
  end.

(** [fontFamily] is [getComputedStyle($el).fontFamily]. *)
Definition getStyle (fontFamily : string) : result StyleProps :=
  let props := getStyle_loop (String.length fontFamily) fontFamily ∅ in
  if truthy_prop props "object-position" then parsePosition props
  else Ok props.

(** ** The browser: observations and mutable state *)

Abbreviation Node := nat.

Inductive EventTarget : Type :=
  | Window
  | OfNode (n : Node).

(** The function objects the script registers as callbacks.  [startWork]
    is one function per activation [c] of [fitIt]; every run of the [else]
    branch of [startWork] creates a new [videoDimensionsMonitor] and a new
    [ended] (numbered [k]); [func] is one function per call [t] of
    [throttle]. *)
Inductive Handler : Type :=
  | startWork_fn (c : nat)
  | videoDimensionsMonitor_fn (c k : nat)
  | ended_fn (c k : nat)
  | throttle_func (t : nat).

Record Listener : Type := mkListener {
  l_target : EventTarget;
  l_type : string;
  l_handler : Handler
}.

#[global] Instance EventTarget_eq_dec : EqDecision EventTarget.
Proof. solve_decision. Defined.
#[global] Instance Handler_eq_dec : EqDecision Handler.
Proof. solve_decision. Defined.
#[global] Instance Listener_eq_dec : EqDecision Listener.
Proof. solve_decision. Defined.

(** What the script reads from the browser and cannot change directly. *)
Record Platform : Type := mkPlatform {
  supportsObjectFit : bool;        (* 'object-fit' in testImg.style *)
  supportsObjectPosition : bool;   (* 'object-position' in testImg.style *)
  hasCustomEvent : bool;           (* new CustomEvent(name) does not throw *)
  querySelectorAll : string -> result (list Node);
  fontFamily : Node -> string;     (* getComputedStyle(el).fontFamily *)
  computedStyle : Node -> string -> string;   (* getComputedStyle(el)[key] *)
  readyState : Node -> N;
  videoWidth : Node -> N;
  videoHeight : Node -> N;
  clientWidth : Node -> N;
  clientHeight : Node -> N
}.

(** The document tree and the inline styles. *)
Record Dom : Type := mkDom {
  parentNode : gmap Node Node;
  childNodes : gmap Node (list Node);
  tagName : gmap Node string;      (* of the elements the script created *)
  nextNode : Node;                 (* the next node [createElement] returns *)
  inlineStyle : gmap Node InlineStyle
}.

Record Event : Type := mkEvent {
  ev_type : string;
  ev_bubbles : bool;
  ev_cancelable : bool
}.

(** Registered listeners, pending timeouts, pending animation-frame
    callbacks (by the [throttle] call that requested them), and the log of
    the events the script dispatched. *)
Record Loop : Type := mkLoop {
  listeners : list Listener;
  timers : list (Handler * N);
  rafQueue : list nat;
  dispatched : list (EventTarget * Event)
}.

(** The variables captured by one activation of [fitIt]. *)
Record FitClosure : Type := mkFit {
  c_el : Node;
  c_wrap : Node;
  c_style : StyleProps;
  c_videoWidth : N;
  c_videoHeight : N
}.

(** The variables captured by one activation of [throttle]. *)
Record ThrottleClosure : Type := mkThrottle {
  t_obj : EventTarget;
  t_evt : Event;
  t_running : bool
}.

Record Closures : Type := mkClosures {
  fits : list FitClosure;
  monitors : nat;
  throttles : list ThrottleClosure
}.

Record State : Type := mkState {
  doc : Dom;
  loop : Loop;
  vars : Closures
}.

Definition on_doc (f : Dom -> Dom) (st : State) : State :=
  mkState (f (doc st)) (loop st) (vars st).
Definition on_loop (f : Loop -> Loop) (st : State) : State :=
  mkState (doc st) (f (loop st)) (vars st).
Definition on_vars (f : Closures -> Closures) (st : State) : State :=
  mkState (doc st) (loop st) (f (vars st)).

Definition set_listeners (ls : list Listener) (l : Loop) : Loop :=
  mkLoop ls (timers l) (rafQueue l) (dispatched l).
Definition set_timers (ts : list (Handler * N)) (l : Loop) : Loop :=
  mkLoop (listeners l) ts (rafQueue l) (dispatched l).
Definition set_rafQueue (q : list nat) (l : Loop) : Loop :=
  mkLoop (listeners l) (timers l) q (dispatched l).
Definition set_dispatched (d : list (EventTarget * Event)) (l : Loop) : Loop :=
  mkLoop (listeners l) (timers l) (rafQueue l) d.

Definition set_fits (fs : list FitClosure) (v : Closures) : Closures :=
  mkClosures fs (monitors v) (throttles v).
Definition set_monitors (n : nat) (v : Closures) : Closures :=
  mkClosures (fits v) n (throttles v).
Definition set_throttles (ts : list ThrottleClosure) (v : Closures) : Closures :=
  mkClosures (fits v) (monitors v) ts.

Definition set_inlineStyle (s : gmap Node InlineStyle) (d : Dom) : Dom :=
  mkDom (parentNode d) (childNodes d) (tagName d) (nextNode d) s.

(** [node.style] *)
Definition style_of (st : State) (n : Node) : InlineStyle :=
  inlineStyle (doc st) !!! n.

(** [node.style[key] = v] *)
Definition setStyle (n : Node) (key : string) (v : cssval) (st : State) : State :=
  on_doc (fun d => set_inlineStyle
            (<[n := <[key := v]> (inlineStyle d !!! n)]> (inlineStyle d)) d) st.

(** [document.createElement(tag)] *)
Definition createElement (tag : string) (st : State) : Node * State :=
  (nextNode (doc st),
   on_doc (fun d => mkDom (parentNode d) (childNodes d)
                      (<[nextNode d := tag]> (tagName d))
                      (S (nextNode d)) (inlineStyle d)) st).

Definition detach (child : Node) (d : Dom) : Dom :=
  match parentNode d !! child with
  | None => d
  | Some p =>
      mkDom (delete child (parentNode d))
            (<[p := filter (fun n => n ≠ child) (childNodes d !!! p)]>
               (childNodes d))
            (tagName d) (nextNode d) (inlineStyle d)
  end.

(** [p.replaceChild(newChild, oldChild)], for [oldChild] a child of [p];
    the value returned is [oldChild]. *)
Definition replaceChild (p newChild oldChild : Node) (st : State) : State :=
  on_doc (fun d =>
    let d := detach newChild d in
    mkDom (<[newChild := p]> (delete oldChild (parentNode d)))
          (<[p := (fun n => if decide (n = oldChild) then newChild else n)
                    <$> (childNodes d !!! p)]> (childNodes d))
          (tagName d) (nextNode d) (inlineStyle d)) st.

(** [p.appendChild(child)] *)
Definition appendChild (p child : Node) (st : State) : State :=
  on_doc (fun d =>
    let d := detach child d in
    mkDom (<[child := p]> (parentNode d))
          (<[p := childNodes d !!! p ++ [child]]> (childNodes d))
          (tagName d) (nextNode d) (inlineStyle d)) st.

(** [target.addEventListener(type, h)]: a listener already registered
    for the same type with the same function is not added again. *)
Definition addEventListener (target : EventTarget) (type : string)
    (h : Handler) (st : State) : State :=
  let l := mkListener target type h in
  if decide (l ∈ listeners (loop st)) then st
  else on_loop (fun lp => set_listeners (listeners lp ++ [l]) lp) st.

(** [target.removeEventListener(type, h)] *)
Definition removeEventListener (target : EventTarget) (type : string)
    (h : Handler) (st : State) : State :=
  on_loop (fun lp =>
    set_listeners (filter (fun l => l ≠ mkListener target type h)
                          (listeners lp)) lp) st.

(** [window.setTimeout(h, delay)] *)
Definition setTimeout (h : Handler) (delay : N) (st : State) : State :=
  on_loop (fun lp => set_timers (timers lp ++ [(h, delay)]) lp) st.

(** [requestAnimationFrame(cb)] for the callback of throttle [t]. *)
Definition requestAnimationFrame (t : nat) (st : State) : State :=
  on_loop (fun lp => set_rafQueue (rafQueue lp ++ [t]) lp) st.

(** ** [fitIt] and its inner functions (lines 96-224) *)

(** The call of [doWork] inside the activation of [fitIt] whose variables
    are [cl]: the wrapper's client box is read from the browser and
    [$el.style] is updated in place. *)
Definition doWork_in (env : Platform) (cl : FitClosure) (st : State) : State :=
  on_doc (fun d => set_inlineStyle
    (<[c_el cl :=
         doWork (c_style cl) (c_videoWidth cl) (c_videoHeight cl)
                (clientWidth env (c_wrap cl)) (clientHeight env (c_wrap cl))
                (inlineStyle d !!! c_el cl)]> (inlineStyle d)) d) st.

Definition set_fit (c : nat) (cl : FitClosure) (st : State) : State :=
  on_vars (fun v => set_fits (<[c := cl]> (fits v)) v) st.

(** [startWork] (lines 149-176) *)
Definition startWork (env : Platform) (c : nat) (st : State) : State :=
  match fits (vars st) !! c with
  | None => st
  | Some cl =>
      (* videoWidth = $el.videoWidth; videoHeight = $el.videoHeight *)
      let cl := mkFit (c_el cl) (c_wrap cl) (c_style cl)
                      (videoWidth env (c_el cl)) (videoHeight env (c_el cl)) in
      let st := set_fit c cl st in
      if (c_videoWidth cl =? 0)%N || (c_videoHeight cl =? 0)%N then
        setTimeout (startWork_fn c) 50 st
      else
        let st := doWork_in env cl st in
        let k := monitors (vars st) in
        let st := on_vars (set_monitors (S k)) st in
        let st := addEventListener (OfNode (c_el cl)) "timeupdate"
                    (videoDimensionsMonitor_fn c k) st in
        addEventListener (OfNode (c_el cl)) "ended" (ended_fn c k) st
  end.

(** [videoDimensionsMonitor] (lines 161-167) *)
Definition videoDimensionsMonitor (env : Platform) (c : nat) (st : State)
    : State :=
  match fits (vars st) !! c with
  | None => st
  | Some cl =>
      if negb (videoWidth env (c_el cl) =? c_videoWidth cl)%N
         || negb (videoHeight env (c_el cl) =? c_videoHeight cl)%N then
        let cl := mkFit (c_el cl) (c_wrap cl) (c_style cl)
                        (videoWidth env (c_el cl)) (videoHeight env (c_el cl)) in
        doWork_in env cl (set_fit c cl st)
      else st
  end.

(** The listener [ended] (lines 171-174) *)
Definition ended (c k : nat) (st : State) : State :=
  match fits (vars st) !! c with
  | None => st
  | Some cl =>
      let st := removeEventListener (OfNode (c_el cl)) "timeupdate"
                  (videoDimensionsMonitor_fn c k) st in
      removeEventListener (OfNode (c_el cl)) "ended" (ended_fn c k) st
  end.

(** The maximal runs of word characters of [s], in order: the keys that
    [s.replace(/\\w+/g, fn)] passes to [fn]. *)
Fixpoint words_from (cur s : string) : list string :=
  match s with
  | EmptyString => if String.eqb cur "" then [] else [cur]
  | String c s' =>
      if is_word c then words_from (cur ++ String c "")%string s'
      else (if String.eqb cur "" then [] else [cur]) ++ words_from "" s'
  end.

Definition copied_properties : list string :=
  words_from "" "backgroundColor backgroundImage borderColor borderStyle borderWidth bottom fontSize lineHeight left opacity margin position right top visibility".

(** The object [wrapCss] once every copied property has been added. *)
Definition wrapCss (env : Platform) (el : Node) : InlineStyle :=
  foldl (fun css key => <[key := CssStr (computedStyle env el key)]> css)
    (<["overflow" := CssStr "hidden"]>
     (<["display" := CssStr "inline-block"]>
     (<["boxSizing" := CssStr "content-box"]>
     (<["width" := CssStr "100%"]>
     (<["height" := CssStr "100%"]> ∅)))))
    copied_properties.

(** The outcome of a run of statements: normal completion or an uncaught
    exception, with the state reached. *)
Inductive outcome : Type :=
  | Return (st : State)
  | Raise (e : exn) (st : State).

Definition fitIt (env : Platform) (el : Node) (style : StyleProps)
    (st : State) : outcome :=
  (* fill is the default behavior, no action is necessary *)
  if prop_is style "object-fit" "fill" then Return st
  else
    let '(wrap, st) := createElement "object-fit" st in
    match parentNode (doc st) !! el with
    | None => Raise TypeError st     (* $el.parentNode is null *)
    | Some p =>
        (* $wrap.appendChild($el.parentNode.replaceChild($wrap, $el)) *)
        let st := replaceChild p wrap el st in
        let st := appendChild wrap el st in
        (* for (var key in wrapCss) $wrap.style[key] = wrapCss[key] *)
        let st := on_doc (fun d => set_inlineStyle
                    (<[wrap := wrapCss env el ∪ (inlineStyle d !!! wrap)]>
                       (inlineStyle d)) d) st in
        (* setCss.border = setCss.margin = setCss.padding = 0 *)
        let st := setStyle el "padding" (CssNum 0) st in
        let st := setStyle el "margin" (CssNum 0) st in
        let st := setStyle el "border" (CssNum 0) st in
        let st := setStyle el "display" (CssStr "block") st in
        let st := setStyle el "opacity" (CssNum 1) st in
        (* the variables of this activation: videoWidth = videoHeight = 0 *)
        let c := length (fits (vars st)) in
        let st := on_vars (fun v =>
                    set_fits (fits v ++ [mkFit el wrap style 0 0]) v) st in
        let st := addEventListener (OfNode el) "loadedmetadata"
                    (startWork_fn c) st in
        let st := addEventListener Window "optimizedResize"
                    (startWork_fn c) st in
        if (1 <=? readyState env el)%N then
          let st := removeEventListener (OfNode el) "loadedmetadata"
                      (startWork_fn c) st in
          Return (startWork env c st)
        else Return st
    end.

(** ** [throttle] (lines 255-280) *)

Definition throttle (env : Platform) (type name : string)
    (obj : option EventTarget) (st : State) : State :=
  (* obj = obj || window *)
  let obj := default Window obj in
  (* new CustomEvent(name), or createEvent and initEvent(name, true, true) *)
  let evt := if hasCustomEvent env then mkEvent name false false
             else mkEvent name true true in
  let t := length (throttles (vars st)) in
  let st := on_vars (fun v =>
              set_throttles (throttles v ++ [mkThrottle obj evt false]) v) st in
  addEventListener obj type (throttle_func t) st.

Definition set_running (t : nat) (b : bool) (st : State) : State :=
  on_vars (fun v =>
    set_throttles
      (alter (fun th => mkThrottle (t_obj th) (t_evt th) b) t (throttles v)) v)
    st.

(** The listener [func] of the [t]-th call of [throttle] (lines 269-277) *)
Definition func (t : nat) (st : State) : State :=
  match throttles (vars st) !! t with
  | None => st
  | Some th =>
      if t_running th then st
      else requestAnimationFrame t (set_running t true st)
  end.

(** ** Running callbacks *)

Definition runHandler (env : Platform) (h : Handler) (st : State) : State :=
  match h with
  | startWork_fn c => startWork env c st
  | videoDimensionsMonitor_fn c _ => videoDimensionsMonitor env c st
  | ended_fn c k => ended c k st
  | throttle_func t => func t st
  end.

(** The listeners of [target] for [type] are run in the order of their
    registration; one removed by an earlier listener is skipped.  Only
    the target's own listeners are modelled (no capture, no bubbling). *)
Definition runListeners (env : Platform) (target : EventTarget)
    (type : string) (st : State) : State :=
  foldl (fun st l =>
           if decide (l ∈ listeners (loop st))
           then runHandler env (l_handler l) st else st)
        st
        (filter (fun l => l_target l = target ∧ l_type l = type)
                (listeners (loop st))).

(** [obj.dispatchEvent(evt)] *)
Definition dispatchEvent (env : Platform) (obj : EventTarget) (evt : Event)
    (st : State) : State :=
  let st := on_loop (fun lp =>
              set_dispatched (dispatched lp ++ [(obj, evt)]) lp) st in
  runListeners env obj (ev_type evt) st.

(** The animation-frame callback of the [t]-th call of [throttle]
    (lines 273-276) *)
Definition rafCallback (env : Platform) (t : nat) (st : State) : State :=
  match throttles (vars st) !! t with
  | None => st
  | Some th => set_running t false (dispatchEvent env (t_obj th) (t_evt th) st)
  end.

(** What the browser does between two runs of the script: it delivers an
    event to a target, runs the callbacks requested for the next
    animation frame, or lets the oldest timeout expire. *)
Definition fireEvent (env : Platform) (target : EventTarget) (type : string)
    (st : State) : State :=
  runListeners env target type st.

Definition animationFrame (env : Platform) (st : State) : State :=
  foldl (fun st t => rafCallback env t st)
        (on_loop (set_rafQueue []) st)
        (rafQueue (loop st)).

Definition timerFires (env : Platform) (st : State) : State :=
  match timers (loop st) with
  | [] => st
  | (h, _) :: rest => runHandler env h (on_loop (set_timers rest) st)
  end.

(** ** [initialize] (lines 68-89) and the entry point (lines 32-43) *)

(** The argument of [objectFitVideos]: nothing, a string, one element, or
    an array-like object whose entries are elements or [null]. *)
Inductive VideosArg : Type :=
  | ArgUndefined
  | ArgString (s : string)
  | ArgElement (el : Node)
  | ArgArrayLike (els : list (option Node)).

(** The truthiness of the argument. *)
Definition truthy_arg (videos : VideosArg) : bool :=
  match videos with
  | ArgUndefined => false
  | ArgString s => negb (String.eqb s "")
  | ArgElement _ | ArgArrayLike _ => true
  end.

(** [style['object-fit'] || 'fill'] *)
Definition fit_or_fill (style : StyleProps) : string :=
  match style !! "object-fit" with
  | Some v => if String.eqb v "" then "fill" else v
  | None => "fill"
  end.

(** The body of the loop of [initialize], for [videos[index] = el]. *)
Definition initialize_step (env : Platform) (el : Node) (st : State)
    : outcome :=
  match getStyle (fontFamily env el) with
  | Throw e => Raise e st
  | Ok style =>
      (* only do work if the property is on the element *)
      if truthy_prop style "object-fit"
         || truthy_prop style "object-position" then
        (* set the default values *)
        let style := <["object-fit" := fit_or_fill style]> style in
        fitIt env el style st
      else Return st
  end.

(** The loop [while (videos[++index])]: it ends at the first entry that
    is not an element, or at the end of the list. *)
Fixpoint initialize_loop (env : Platform) (videos : list (option Node))
    (st : State) : outcome :=
  match videos with
  | [] => Return st
  | None :: _ => Return st
  | Some el :: rest =>
      match initialize_step env el st with
      | Return st => initialize_loop env rest st
      | Raise e st => Raise e st
      end
  end.

Definition initialize (env : Platform) (videos : VideosArg) (st : State)
    : outcome :=
  (* videos = videos ? videos : 'video' *)
  let videos := if truthy_arg videos then videos else ArgString "video" in
  match videos with
  | ArgString selector =>
      match querySelectorAll env selector with
      | Ok els => initialize_loop env (Some <$> els) st
      | Throw e => Raise e st
      end
  | ArgElement el => initialize_loop env [Some el] st   (* no 'length' *)
  | ArgArrayLike els => initialize_loop env els st
  | ArgUndefined => Raise TypeError st
  end.

Definition objectFitVideos (env : Platform) (videos : VideosArg) (st : State)
    : outcome :=
  if negb (supportsObjectFit env) || negb (supportsObjectPosition env) then
    match initialize env videos st with
    | Return st => Return (throttle env "resize" "optimizedResize" None st)
    | Raise e st => Raise e st
    end
  else Return st.

(** ** The specification's wording of the branch rule

    "Height-constrained when ([videoRatio < wrapRatio] and intent is
    [contain]) or ([videoRatio >= wrapRatio] and intent is [cover]);
    otherwise width-constrained."  The two ratios are the numbers the
    script computes, compared as JavaScript compares them; the rule is to
    be set against the condition that [doWork] tests. *)
Definition spec_heightConstrained (videoRatio wrapRatio : jsnum)
    (fit : string) : Prop :=
  (jlt videoRatio wrapRatio = true /\ fit = "contain") \/
  (jge videoRatio wrapRatio = true /\ fit = "cover").

(** Case-sensitive substring containment, as the specification of the
    position resolver words it. *)
Definition contains (s sub : string) : Prop :=
  exists before after : string, s = (before ++ sub ++ after)%string.

(** What the loop of [getStyle] keeps true of [props]: only the two
    property names occur as keys, and no value is empty. *)
Definition raw_props (props : StyleProps) : Prop :=
  forall key value, props !! key = Some value ->
    (key = "object-fit" \/ key = "object-position") /\ value <> "".

(** ** Notions used to state the behaviour of the script *)

(** [el] sits inside a wrapper element created by [fitIt]. *)
Definition is_wrapped (st : State) (el : Node) : Prop :=
  exists wrap,
    parentNode (doc st) !! el = Some wrap /\
    tagName (doc st) !! wrap = Some "object-fit".


(** What the browser may do between two animation frames. *)
Inductive BrowserStep : Type :=
  | EventStep (env : Platform) (target : EventTarget) (type : string)
  | TimerStep (env : Platform).

Definition run_step (s : BrowserStep) (st : State) : State :=
  match s with
  | EventStep env target type => fireEvent env target type st
  | TimerStep env => timerFires env st
  end.

Definition run_steps (steps : list BrowserStep) (st : State) : State :=
  foldl (fun st s => run_step s st) st steps.

(** The step delivers an event of type [type] to [obj]. *)
Definition is_source (obj : EventTarget) (type : string) (s : BrowserStep)
    : bool :=
  match s with
  | EventStep _ target type' =>
      bool_decide (target = obj) && String.eqb type' type
  | TimerStep _ => false
  end.

Definition is_throttle_func (h : Handler) : bool :=
  match h with
  | throttle_func _ => true
  | _ => false
  end.

(** No callback of an earlier call of [throttle] is registered or
    pending. *)
Definition no_throttle_callbacks (st : State) : Prop :=
  Forall (fun l => is_throttle_func (l_handler l) = false) (listeners (loop st)) /\
  Forall (fun t => is_throttle_func (fst t) = false) (timers (loop st)) /\
  rafQueue (loop st) = [].

(** ** A small page, for concrete runs

    The document body (node 0) holds four videos: node 1 declares
    [object-fit: cover], node 2 declares only [object-position: left],
    node 3 declares [object-fit: fill] and node 4 declares nothing.  The
    browser supports neither property, every video reports the intrinsic
    size [vw] x [vh], and every box is 400 x 300. *)
Definition example_page : State :=
  mkState
    (mkDom {[ 1%nat := 0%nat; 2%nat := 0%nat; 3%nat := 0%nat; 4%nat := 0%nat ]}
           {[ 0%nat := [1; 2; 3; 4]%nat ]} ∅ 5%nat ∅)
    (mkLoop [] [] [] [])
    (mkClosures [] 0 []).

Definition example_platform (vw vh : N) : Platform :=
  mkPlatform false false true
    (fun selector =>
       if String.eqb selector "video" then Ok [1; 2; 3; 4]%nat
       else Throw SyntaxError)
    (fun el =>
       match el with
       | 1%nat => "'object-fit: cover;'"
       | 2%nat => "'object-position: left;'"
       | 3%nat => "'object-fit: fill;'"
       | _ => "Arial, sans-serif"
       end)
    (fun _ _ => "auto")
    (fun _ => 1%N)
    (fun _ => vw) (fun _ => vh)
    (fun _ => 400%N) (fun _ => 300%N).

(** The example page once the entry point has run while the videos still
    report no intrinsic size. *)
Definition example_wrapped : State :=
  match objectFitVideos (example_platform 0 0) ArgUndefined example_page with
  | Return st | Raise _ st => st
  end.

(** The part of the state that belongs to the [t]-th call of [throttle]:
    its variables [th], the pending animation-frame callbacks [q], the
    events dispatched so far [d], and its listener [l0], the only listener
    or timeout that runs a [func]. *)
Definition throttle_inv (t : nat) (l0 : Listener) (th : ThrottleClosure)
    (q : list nat) (d : list (EventTarget * Event)) (st : State) : Prop :=
  throttles (vars st) !! t = Some th /\
  rafQueue (loop st) = q /\
  dispatched (loop st) = d /\
  l0 ∈ listeners (loop st) /\
  (forall l, l ∈ listeners (loop st) ->
     is_throttle_func (l_handler l) = true -> l = l0) /\
  Forall (fun x => is_throttle_func (fst x) = false) (timers (loop st)).

(** The example page once [initialize] has run, before [throttle]. *)
Definition example_initialized : State :=
  match initialize (example_platform 0 0) ArgUndefined example_page with
  | Return st | Raise _ st => st
  end.

(** ** Further notions, for the properties beyond the claims *)

(** The condition under which [doWork] takes its first arm (lines
    197-198). *)
Definition first_arm (style : StyleProps) (vw vh ww wh : N) : bool :=
  if jlt (jdiv (num_of_N vw) (num_of_N vh)) (jdiv (num_of_N ww) (num_of_N wh))
  then prop_is style "object-fit" "contain"
  else prop_is style "object-fit" "cover".

(** A double of either sign, or zero. *)
Definition dyadic (r : Q) : Prop :=
  exists m j : Z,
    (r == inject_Z m * pow2 j)%Q /\ (- 2 ^ 53 <= m <= 2 ^ 53)%Z /\ (-1074 <= j)%Z.

(** The authoring convention of the usage notes (file header, lines
    6-11): declarations [key: value;] written one after the other in the
    font-family string. *)
Fixpoint string_forall (p : ascii -> bool) (s : string) : bool :=
  match s with
  | EmptyString => true
  | String c s' => p c && string_forall p s'
  end.

(** A value the pattern captures whole: not empty, made of the characters
    of [[-\w\s%]], and not starting with white space. *)
Definition valid_value (v : string) : bool :=
  match v with
  | EmptyString => false
  | String c _ => negb (is_space c) && string_forall is_value_char v
  end.

(** Text in which no match of [propRegex] can start: no letter [o]. *)
Definition o_free (s : string) : bool :=
  string_forall (fun c => negb (Ascii.eqb c "o")) s.

Definition declaration (d : string * string) : string :=
  (fst d ++ ": " ++ snd d ++ "; ")%string.

Definition declarations (ds : list (string * string)) : string :=
  fold_right (fun d rest => (declaration d ++ rest)%string) "" ds.

(** [props[key] = value] for each declaration in turn. *)
Definition assign_all (ds : list (string * string)) (props : StyleProps)
    : StyleProps :=
  foldl (fun props d => <[fst d := snd d]> props) props ds.

(** A round is what happens from one animation frame to the next: some
    browser steps, then the frame's callbacks. *)
Definition run_round (r : list BrowserStep * Platform) (st : State) : State :=
  animationFrame (snd r) (run_steps (fst r) st).

Definition run_rounds (rounds : list (list BrowserStep * Platform))
    (st : State) : State :=
  foldl (fun st r => run_round r st) st rounds.

(** The round delivers at least one event of type [type] to [obj]. *)
Definition has_source (obj : EventTarget) (type : string)
    (r : list BrowserStep * Platform) : bool :=
  existsb (is_source obj type) (fst r).

(** What a dispatch of [optimizedResize] keeps true of the activation [c]
    of [fitIt] while the listeners run: its element, wrapper and style
    object stay those of [cl], no other activation has the same element,
    its listener [lc] stays registered, and the element's inline style is
    [base] before [lc] has run and [target] after. *)
Definition refit_inv (c : nat) (cl : FitClosure) (lc : Listener)
    (base target : InlineStyle) (ran : bool) (st : State) : Prop :=
  (exists vw vh,
     fits (vars st) !! c
     = Some (mkFit (c_el cl) (c_wrap cl) (c_style cl) vw vh)) /\
  (forall c' cl', c' <> c -> fits (vars st) !! c' = Some cl' ->
     c_el cl' <> c_el cl) /\
  lc ∈ listeners (loop st) /\
  style_of st (c_el cl) = (if ran then target else base).

(** * Properties *)

(** ** The sizing arithmetic *)

(** *** Rounding to binary64 *)

Lemma pow2_pos (e : Z) : (0 < pow2 e)%Q.
Proof. apply Qpower_0_lt. reflexivity. Qed.

Lemma pow2_add (a b : Z) : (pow2 (a + b) == pow2 a * pow2 b)%Q.
Proof. apply Qpower_plus. discriminate. Qed.

Lemma pow2_le (a b : Z) : (a <= b)%Z -> (pow2 a <= pow2 b)%Q.
Proof. intros H. apply Qpower_le_compat_l; [exact H | discriminate]. Qed.

Lemma pow2_lt (a b : Z) : (a < b)%Z -> (pow2 a < pow2 b)%Q.
Proof. intros H. apply Qpower_lt_compat_l; [exact H | reflexivity]. Qed.

Lemma pow2_lt_inv (a b : Z) : (pow2 a < pow2 b)%Q -> (a < b)%Z.
Proof. intros H. apply (Qpower_lt_compat_l_inv 2); [exact H | reflexivity]. Qed.

Lemma pow2_inject (n : Z) : (0 <= n)%Z -> (inject_Z (2 ^ n) == pow2 n)%Q.
Proof. intros H. apply Zpower_Qpower. exact H. Qed.

Lemma pow2_succ (a : Z) : (pow2 (a + 1) == 2 * pow2 a)%Q.
Proof. rewrite pow2_add. change (pow2 1) with 2%Q. ring. Qed.

Lemma ilog2_spec (q : Q) :
  (0 < q)%Q -> (pow2 (ilog2 q) <= q)%Q /\ (q < pow2 (ilog2 q + 1))%Q.
Proof.
  intros Hq. unfold ilog2.
  destruct q as [a b]. cbn [Qnum Qden].
  assert (0 < a)%Z as Ha by (unfold Qlt in Hq; simpl in Hq; lia).
  destruct (Z.log2_spec a Ha) as [Ha1 Ha2].
  destruct (Z.log2_spec (Zpos b) eq_refl) as [Hb1 Hb2].
  pose proof (Z.log2_nonneg a) as Hla.
  pose proof (Z.log2_nonneg (Zpos b)) as Hlb.
  set (la := Z.log2 a) in *. set (lb := Z.log2 (Zpos b)) in *.
  assert (pow2 la <= inject_Z a)%Q as Qa1
    by (rewrite <- pow2_inject by lia; by rewrite <- Zle_Qle).
  assert (inject_Z a < pow2 (la + 1))%Q as Qa2
    by (rewrite <- pow2_inject by lia; rewrite <- Zlt_Qlt; by rewrite <- Z.add_1_r in Ha2).
  assert (pow2 lb <= inject_Z (Zpos b))%Q as Qb1
    by (rewrite <- pow2_inject by lia; by rewrite <- Zle_Qle).
  assert (inject_Z (Zpos b) < pow2 (lb + 1))%Q as Qb2
    by (rewrite <- pow2_inject by lia; rewrite <- Zlt_Qlt; by rewrite <- Z.add_1_r in Hb2).
  assert (0 < inject_Z (Zpos b))%Q as Hbpos by reflexivity.
  assert (a # b == inject_Z a / inject_Z (Zpos b))%Q as Eq by apply Qmake_Qdiv.
  assert ((a # b) < pow2 (la - lb + 1))%Q as Hup.
  { rewrite Eq. apply Qlt_shift_div_r; [exact Hbpos |].
    apply Qlt_le_trans with (pow2 (la + 1)); [exact Qa2 |].
    replace (la + 1)%Z with ((la - lb + 1) + lb)%Z by lia.
    rewrite pow2_add. apply Qmult_le_l; [apply pow2_pos | exact Qb1]. }
  assert (pow2 (la - lb - 1) < (a # b))%Q as Hlow.
  { rewrite Eq. apply Qlt_shift_div_l; [exact Hbpos |].
    apply Qlt_le_trans with (pow2 la); [| exact Qa1].
    replace la with ((la - lb - 1) + (lb + 1))%Z at 2 by lia.
    rewrite pow2_add. apply Qmult_lt_l; [apply pow2_pos | exact Qb2]. }
  destruct (Qle_bool (pow2 (la - lb)) (a # b)) eqn:Hc.
  - apply Qle_bool_iff in Hc. split; [exact Hc | exact Hup].
  - split; [apply Qlt_le_weak, Hlow |].
    replace (la - lb - 1 + 1)%Z with (la - lb)%Z by lia.
    apply Qnot_le_lt. intros H. apply Qle_bool_iff in H. congruence.
Qed.

Lemma rne_near (x : Q) :
  (inject_Z (rne x) - (1 # 2) <= x)%Q /\ (x <= inject_Z (rne x) + (1 # 2))%Q.
Proof.
  unfold rne. pose proof (Qfloor_le x) as H1. pose proof (Qlt_floor x) as H2.
  rewrite inject_Z_plus in H2. change (inject_Z 1) with 1%Q in H2.
  destruct (Qcompare_spec (x - inject_Z (Qfloor x)) (1 # 2)) as [H | H | H];
    [destruct (Z.even (Qfloor x)) | |];
    rewrite ?inject_Z_plus; change (inject_Z 1) with 1%Q; split; lra.
Qed.

Lemma rne_le (x : Q) (k : Z) : (x <= inject_Z k)%Q -> (rne x <= k)%Z.
Proof.
  intros H. pose proof (Qfloor_resp_le _ _ H) as Hf. rewrite Qfloor_Z in Hf.
  unfold rne. pose proof (Qfloor_le x) as H1.
  destruct (Z.eq_dec (Qfloor x) k) as [E | E].
  - rewrite E in *.
    destruct (Qcompare_spec (x - inject_Z k) (1 # 2)) as [H3 | H3 | H3];
      [lra | lia | lra].
  - destruct (_ ?= _)%Q; [destruct (Z.even _) | |]; lia.
Qed.

Lemma rne_ge (x : Q) (k : Z) : (inject_Z k <= x)%Q -> (k <= rne x)%Z.
Proof.
  intros H. pose proof (Qfloor_resp_le _ _ H) as Hf. rewrite Qfloor_Z in Hf.
  unfold rne. destruct (_ ?= _)%Q; [destruct (Z.even _) | |]; lia.
Qed.

Lemma rne_comp (x y : Q) : (x == y)%Q -> rne x = rne y.
Proof.
  intros E. unfold rne. rewrite (Qfloor_comp x y E).
  assert (x - inject_Z (Qfloor y) == y - inject_Z (Qfloor y))%Q as ->
    by (rewrite E; reflexivity).
  reflexivity.
Qed.

Lemma Qabs_pos_eq (x : Q) : (0 < x)%Q -> Qabs x = x.
Proof.
  destruct x as [a b]. unfold Qlt, Qabs. simpl. intros H.
  f_equal. lia.
Qed.

Lemma round64_normal (x : Q) :
  (pow2 (-1022) <= x)%Q -> (x < pow2 1023)%Q ->
  exists e : Z,
    (-1022 <= e < 1023)%Z /\
    (pow2 e <= x)%Q /\ (x < pow2 (e + 1))%Q /\
    (round64 x == inject_Z (rne (x / pow2 (e - 52))) * pow2 (e - 52))%Q /\
    (2 ^ 52 <= rne (x / pow2 (e - 52)) <= 2 ^ 53)%Z.
Proof.
  intros Hlo Hhi.
  assert (0 < x)%Q as Hx
    by (apply Qlt_le_trans with (pow2 (-1022)); [apply pow2_pos | exact Hlo]).
  destruct (ilog2_spec x Hx) as [He1 He2].
  unfold round64. rewrite (Qabs_pos_eq x Hx).
  set (e := ilog2 x) in *.
  assert (-1022 < e + 1)%Z
    by (apply pow2_lt_inv; apply Qle_lt_trans with x; assumption).
  assert (e < 1023)%Z
    by (apply pow2_lt_inv; apply Qle_lt_trans with x; assumption).
  rewrite Z.max_l by lia.
  exists e. split; [lia |]. split; [exact He1 |]. split; [exact He2 |].
  split; [reflexivity |].
  pose proof (pow2_pos (e - 52)) as Hulp.
  split.
  - apply rne_ge. rewrite pow2_inject by lia.
    apply Qle_shift_div_l; [exact Hulp |].
    rewrite <- pow2_add. replace (52 + (e - 52))%Z with e by lia. exact He1.
  - apply rne_le. rewrite pow2_inject by lia.
    apply Qle_shift_div_r; [exact Hulp |].
    rewrite <- pow2_add. replace (53 + (e - 52))%Z with (e + 1)%Z by lia.
    apply Qlt_le_weak, He2.
Qed.

Lemma fl_normal_reduced (x : Q) :
  (pow2 (-1022) <= x)%Q -> (x < pow2 1023)%Q ->
  exists v : Q,
    (if Qle_bool (pow2 1024) (Qabs (Qred (round64 x)))
     then JInf (Qnegb x) else JFin (Qred (round64 x))) = JFin v /\
    (x - x * u53 <= v)%Q /\ (v <= x + x * u53)%Q /\
    representable v /\
    forall r : Q, representable r ->
      ((x <= r)%Q -> (v <= r)%Q) /\ ((r <= x)%Q -> (r <= v)%Q).
Proof.
  intros Hlo Hhi.
  destruct (round64_normal x Hlo Hhi) as (e & He & He1 & He2 & Er & HM).
  pose proof (Qred_correct (round64 x)) as Ev.
  set (v := Qred (round64 x)) in *. clearbody v.
  rewrite Er in Ev. clear Er.
  pose proof (pow2_pos (e - 52)) as Hulp.
  pose proof (pow2_pos e) as Hpe.
  set (ulp := pow2 (e - 52)) in *.
  pose proof (rne_near (x / ulp)) as [Hn1 Hn2].
  set (M := rne (x / ulp)) in *.
  assert (x / ulp * ulp == x)%Q as Ey by (field; lra).
  set (y := (x / ulp)%Q) in *.
  assert (inject_Z (2 ^ 52) * ulp == pow2 e)%Q as E52.
  { rewrite pow2_inject by lia. unfold ulp. rewrite <- pow2_add.
    by replace (52 + (e - 52))%Z with e by lia. }
  assert (inject_Z (2 ^ 53) * ulp == pow2 (e + 1))%Q as E53.
  { rewrite pow2_inject by lia. unfold ulp. rewrite <- pow2_add.
    by replace (53 + (e - 52))%Z with (e + 1)%Z by lia. }
  assert (pow2 e <= v)%Q as Hvlo.
  { rewrite Ev, <- E52. apply Qmult_le_compat_r; [| lra].
    rewrite <- Zle_Qle. lia. }
  assert (v <= pow2 (e + 1))%Q as Hvhi.
  { rewrite Ev, <- E53. apply Qmult_le_compat_r; [| lra].
    rewrite <- Zle_Qle. lia. }
  assert (ulp == 2 * (pow2 e * u53))%Q as Eulp.
  { unfold ulp. replace (e - 52)%Z with (e + -52)%Z by lia.
    rewrite pow2_add.
    assert (pow2 (-52) == 2 * u53)%Q as -> by reflexivity. ring. }
  exists v. split.
  { destruct (Qle_bool (pow2 1024) (Qabs v)) eqn:Hov; [| reflexivity].
    apply Qle_bool_iff in Hov. rewrite Qabs_pos in Hov by lra.
    pose proof (pow2_le (e + 1) 1023 ltac:(lia)).
    pose proof (pow2_lt 1023 1024 ltac:(lia)). lra. }
  assert (0 < u53)%Q as Hu by reflexivity.
  split; [rewrite Ev; nra |]. split; [rewrite Ev; nra |].
  split.
  { exists M, (e - 52)%Z. split; [exact Ev |]. lia. }
  intros r (m & j & Er & Hm & Hj).
  destruct (Z_le_gt_dec (e - 52) j) as [Hc | Hc].
  - assert (r == inject_Z (m * 2 ^ (j - (e - 52))) * ulp)%Q as Er'.
    { rewrite Er, inject_Z_mult, pow2_inject by lia.
      rewrite <- Qmult_assoc. unfold ulp. rewrite <- pow2_add.
      by replace (j - (e - 52) + (e - 52))%Z with j by lia. }
    set (K := (m * 2 ^ (j - (e - 52)))%Z) in *.
    split; intros H.
    + assert (M <= K)%Z as HMK.
      { apply rne_le. unfold y. apply Qle_shift_div_r; [exact Hulp |].
        by rewrite <- Er'. }
      rewrite Ev, Er'. apply Qmult_le_compat_r; [| lra].
      by rewrite <- Zle_Qle.
    + assert (K <= M)%Z as HMK.
      { apply rne_ge. unfold y. apply Qle_shift_div_l; [exact Hulp |].
        by rewrite <- Er'. }
      rewrite Ev, Er'. apply Qmult_le_compat_r; [| lra].
      by rewrite <- Zle_Qle.
  - assert (r <= pow2 e)%Q as Hr.
    { rewrite Er.
      apply Qle_trans with (pow2 53 * pow2 j)%Q.
      - apply Qmult_le_compat_r; [| apply Qlt_le_weak, pow2_pos].
        rewrite <- pow2_inject by lia. rewrite <- Zle_Qle. lia.
      - rewrite <- pow2_add. apply pow2_le. lia. }
    split; intros H; [| lra].
    assert (M <= 2 ^ 52)%Z as HM52.
    { apply rne_le. unfold y. apply Qle_shift_div_r; [exact Hulp |].
      rewrite E52. lra. }
    apply Qle_trans with (pow2 e); [| lra].
    rewrite Ev, <- E52. apply Qmult_le_compat_r; [| lra].
    by rewrite <- Zle_Qle.
Qed.

Lemma fl_normal (x : Q) :
  (pow2 (-1022) <= x)%Q -> (x < pow2 1023)%Q ->
  exists v : Q,
    fl x = JFin v /\
    (x - x * u53 <= v)%Q /\ (v <= x + x * u53)%Q /\
    representable v /\
    forall r : Q, representable r ->
      ((x <= r)%Q -> (v <= r)%Q) /\ ((r <= x)%Q -> (r <= v)%Q).
Proof.
  intros Hlo Hhi. unfold fl.
  pose proof (Qred_correct x) as Ex.
  rewrite <- Ex in Hlo, Hhi.
  destruct (fl_normal_reduced (Qred x) Hlo Hhi) as (v & E & H1 & H2 & H3 & H4).
  exists v. split; [exact E |].
  rewrite Ex in H1, H2.
  split; [exact H1 |]. split; [exact H2 |]. split; [exact H3 |].
  intros r Hr. destruct (H4 r Hr) as [A B]. rewrite Ex in A, B. by split.
Qed.

Lemma fl_comp (p q : Q) : (p == q)%Q -> fl p = fl q.
Proof. intros E. unfold fl. by rewrite (Qred_complete p q E). Qed.

Lemma representable_eq (r r' : Q) :
  (r == r')%Q -> representable r -> representable r'.
Proof.
  intros E (m & j & Er & H). exists m, j. split; [| exact H].
  by rewrite <- E.
Qed.

(** *** The two arms of [doWork] *)

Lemma Qltb_lt (p q : Q) : Qltb p q = true <-> (p < q)%Q.
Proof. unfold Qltb, Qlt. apply Z.ltb_lt. Qed.

Lemma Qltb_ge (p q : Q) : Qltb p q = false <-> (q <= p)%Q.
Proof. unfold Qltb, Qle. rewrite Z.ltb_ge. reflexivity. Qed.

Lemma Qzerob_pos (q : Q) : (0 < q)%Q -> Qzerob q = false.
Proof.
  unfold Qlt, Qzerob. simpl. intros H. apply Z.eqb_neq. lia.
Qed.

(** Numbers well inside the range of normal doubles. *)
Lemma normal_range (x : Q) :
  (1 # 1180591620717411303424 <= x)%Q -> (x <= 1180591620717411303424)%Q ->
  (pow2 (-1022) <= x)%Q /\ (x < pow2 1023)%Q.
Proof.
  intros H1 H2.
  pose proof (pow2_le (-1022) (-70) ltac:(lia)) as Hlo.
  pose proof (pow2_lt 70 1023 ltac:(lia)) as Hhi.
  assert (pow2 (-70) == 1 # 1180591620717411303424)%Q as E1 by reflexivity.
  assert (pow2 70 == 1180591620717411303424)%Q as E2 by reflexivity.
  rewrite E1 in Hlo. rewrite E2 in Hhi. split; lra.
Qed.

(** Whole numbers and their quarters are doubles, up to [2 ^ 51]. *)
Lemma representable_quarters (k : Z) :
  (0 < k <= 2 ^ 53)%Z -> representable (inject_Z k * (1 # 4)).
Proof.
  intros Hk. exists k, (-2)%Z. split; [| lia].
  assert (pow2 (-2) == 1 # 4)%Q as -> by reflexivity. reflexivity.
Qed.

Lemma representable_int (k : Z) :
  (0 < k <= 2 ^ 51)%Z -> representable (inject_Z k).
Proof.
  intros Hk. exists k, 0%Z. split; [| lia].
  change (pow2 0) with 1%Q. ring.
Qed.

(** A DOM size as a rational. *)
Lemma size_bounds (n : N) :
  (0 < n)%N -> (n < 2 ^ 32)%N ->
  (1 <= inject_Z (Z.of_N n))%Q /\ (inject_Z (Z.of_N n) <= 4294967295)%Q.
Proof.
  intros H1 H2.
  change 1%Q with (inject_Z 1). change 4294967295%Q with (inject_Z 4294967295).
  rewrite <- !Zle_Qle. lia.
Qed.

(** The quotient of two sizes, as the script computes it. *)
Lemma ratio_spec (a b : N) :
  (0 < a)%N -> (a < 2 ^ 32)%N -> (0 < b)%N -> (b < 2 ^ 32)%N ->
  let x := (inject_Z (Z.of_N a) / inject_Z (Z.of_N b))%Q in
  exists v : Q,
    jdiv (num_of_N a) (num_of_N b) = JFin v /\
    (x - x * u53 <= v)%Q /\ (v <= x + x * u53)%Q /\
    representable v /\
    (forall r : Q, representable r ->
       ((x <= r)%Q -> (v <= r)%Q) /\ ((r <= x)%Q -> (r <= v)%Q)) /\
    (1 # 8589934592 <= v)%Q /\ (v <= 8589934592)%Q /\
    (1 # 4294967295 <= x)%Q.
Proof.
  intros Ha1 Ha2 Hb1 Hb2 x.
  destruct (size_bounds a Ha1 Ha2) as [HA1 HA2].
  destruct (size_bounds b Hb1 Hb2) as [HB1 HB2].
  unfold num_of_N, num_of_Z, jdiv. rewrite Qzerob_pos by lra.
  fold x.
  set (A := inject_Z (Z.of_N a)) in *. set (B := inject_Z (Z.of_N b)) in *.
  assert (1 # 4294967295 <= x)%Q as Hx1.
  { unfold x. apply Qle_shift_div_l; [lra |]. lra. }
  assert (x <= 4294967295)%Q as Hx2.
  { unfold x. apply Qle_shift_div_r; [lra |]. lra. }
  destruct (normal_range x ltac:(lra) ltac:(lra)) as [Hlo Hhi].
  destruct (fl_normal x Hlo Hhi) as (v & E & H1 & H2 & H3 & H4).
  exists v. split; [exact E |].
  split; [exact H1 |]. split; [exact H2 |]. split; [exact H3 |].
  split; [exact H4 |]. unfold u53 in *. split; [lra |]. split; lra.
Qed.

Lemma round_ge_half (x : Q) (n : Z) :
  (inject_Z n - (1 # 2) <= x)%Q -> (n <= Qfloor (x + (1 # 2)))%Z.
Proof.
  intros H. rewrite <- (Qfloor_Z n). apply Qfloor_resp_le. lra.
Qed.

Lemma round_le_quarter (x : Q) (n : Z) :
  (x <= inject_Z n + (1 # 4))%Q -> (Qfloor (x + (1 # 2)) <= n)%Z.
Proof.
  intros H. pose proof (Qfloor_le (x + (1 # 2))) as Hf.
  assert (inject_Z (Qfloor (x + (1 # 2))) < inject_Z (n + 1))%Q as Hlt
    by (rewrite inject_Z_plus; change (inject_Z 1) with 1%Q; lra).
  rewrite <- Zlt_Qlt in Hlt. lia.
Qed.

(** What the comparison of the two computed ratios says about the sizes:
    [v] and [w] stand for [videoRatio] and [wrapRatio]. *)
Section Arms.
Variables (vw vh ww wh : N).
Hypothesis (Hvw : (0 < vw)%N) (Hvw' : (vw < 2 ^ 32)%N).
Hypothesis (Hvh : (0 < vh)%N) (Hvh' : (vh < 2 ^ 32)%N).
Hypothesis (Hww : (0 < ww)%N) (Hww' : (ww < 2 ^ 32)%N).
Hypothesis (Hwh : (0 < wh)%N) (Hwh' : (wh < 2 ^ 32)%N).

Lemma newHeight_spec :
  exists v w nh : Q,
    jdiv (num_of_N vw) (num_of_N vh) = JFin v /\
    jdiv (num_of_N ww) (num_of_N wh) = JFin w /\
    jmul (num_of_N wh) (JFin v) = JFin nh /\
    (0 <= nh)%Q /\ (nh <= 36893488147419103232)%Q /\
    ((v <= w)%Q -> (nh <= inject_Z (Z.of_N ww) + (1 # 4))%Q) /\
    ((w <= v)%Q -> (inject_Z (Z.of_N ww) - (1 # 4) <= nh)%Q).
Proof.
  destruct (ratio_spec vw vh Hvw Hvw' Hvh Hvh')
    as (v & Ev & _ & _ & _ & _ & Hv3 & Hv4 & _).
  destruct (ratio_spec ww wh Hww Hww' Hwh Hwh')
    as (w & Ew & Hw1 & Hw2 & _ & _ & _ & _ & Hy).
  destruct (size_bounds ww Hww Hww') as [HC1 HC2].
  destruct (size_bounds wh Hwh Hwh') as [HD1 HD2].
  set (C := inject_Z (Z.of_N ww)) in *. set (D := inject_Z (Z.of_N wh)) in *.
  assert (C / D * D == C)%Q as Ey by (field; lra).
  set (y := (C / D)%Q) in *.
  unfold u53 in *.
  assert (1 # 8589934592 <= D * v)%Q as Hp1.
  { apply Qle_trans with (1 * v)%Q; [lra |].
    apply Qmult_le_compat_r; lra. }
  assert (D * v <= 36893488147419103232)%Q as Hp2.
  { apply Qle_trans with (4294967295 * v)%Q; [| lra].
    apply Qmult_le_compat_r; lra. }
  destruct (normal_range (D * v) ltac:(lra) ltac:(lra)) as [Hlo Hhi].
  destruct (fl_normal (D * v) Hlo Hhi) as (nh & En & _ & _ & _ & Hnm).
  exists v, w, nh.
  split; [exact Ev |]. split; [exact Ew |].
  split; [unfold num_of_N, num_of_Z; cbn [jmul]; fold D; exact En |].
  split.
  { apply Qle_trans with (1 # 8589934592)%Q; [lra |].
    apply (Hnm (1 # 8589934592)%Q); [| exact Hp1].
    exists 1%Z, (-33)%Z. split; [reflexivity | lia]. }
  split.
  { apply (Hnm 36893488147419103232%Q); [| exact Hp2].
    exists 1%Z, 65%Z. split; [reflexivity | lia]. }
  split; intros Hvw0.
  - assert (D * v <= C + (1 # 4))%Q as Hle.
    { apply Qle_trans with (D * (y + y * (1 # 9007199254740992)))%Q;
        [apply Qmult_le_l; lra |].
      assert (D * (y + y * (1 # 9007199254740992))
              == y * D + y * D * (1 # 9007199254740992))%Q as -> by ring.
      rewrite Ey. lra. }
    assert (C + (1 # 4) == inject_Z (4 * Z.of_N ww + 1) * (1 # 4))%Q as Er.
    { rewrite inject_Z_plus, inject_Z_mult. fold C.
      change (inject_Z 4) with 4%Q. change (inject_Z 1) with 1%Q. ring. }
    apply Hnm; [| exact Hle]. symmetry in Er.
    apply (representable_eq _ _ Er), representable_quarters. lia.
  - assert (C - (1 # 4) <= D * v)%Q as Hge.
    { apply Qle_trans with (D * (y - y * (1 # 9007199254740992)))%Q;
        [| apply Qmult_le_l; lra].
      assert (D * (y - y * (1 # 9007199254740992))
              == y * D - y * D * (1 # 9007199254740992))%Q as -> by ring.
      rewrite Ey. lra. }
    assert (C - (1 # 4) == inject_Z (4 * Z.of_N ww + -1) * (1 # 4))%Q as Er.
    { rewrite inject_Z_plus, inject_Z_mult. fold C.
      change (inject_Z 4) with 4%Q. change (inject_Z (-1)) with (-1 # 1)%Q. ring. }
    apply Hnm; [| exact Hge]. symmetry in Er.
    apply (representable_eq _ _ Er), representable_quarters. lia.
Qed.

Lemma newWidth_spec :
  exists v w ht : Q,
    jdiv (num_of_N vw) (num_of_N vh) = JFin v /\
    jdiv (num_of_N ww) (num_of_N wh) = JFin w /\
    jdiv (num_of_N ww) (JFin v) = JFin ht /\
    (0 <= ht)%Q /\ (ht <= 36893488147419103232)%Q /\
    ((v <= w)%Q -> (inject_Z (Z.of_N wh) - (1 # 4) <= ht)%Q) /\
    ((w <= v)%Q -> (ht <= inject_Z (Z.of_N wh) + (1 # 4))%Q).
Proof.
  destruct (ratio_spec vw vh Hvw Hvw' Hvh Hvh')
    as (v & Ev & _ & _ & _ & _ & Hv3 & Hv4 & _).
  destruct (ratio_spec ww wh Hww Hww' Hwh Hwh')
    as (w & Ew & Hw1 & Hw2 & _ & _ & _ & _ & Hy).
  destruct (size_bounds ww Hww Hww') as [HC1 HC2].
  destruct (size_bounds wh Hwh Hwh') as [HD1 HD2].
  set (C := inject_Z (Z.of_N ww)) in *. set (D := inject_Z (Z.of_N wh)) in *.
  assert (C / D * D == C)%Q as Ey by (field; lra).
  set (y := (C / D)%Q) in *.
  unfold u53 in *.
  assert (1 # 8589934592 <= C / v)%Q as Hz1.
  { apply Qle_shift_div_l; [lra |]. lra. }
  assert (C / v <= 36893488147419103232)%Q as Hz2.
  { apply Qle_shift_div_r; [lra |]. lra. }
  destruct (normal_range (C / v) ltac:(lra) ltac:(lra)) as [Hlo Hhi].
  destruct (fl_normal (C / v) Hlo Hhi) as (ht & En & _ & _ & _ & Hnm).
  exists v, w, ht.
  split; [exact Ev |]. split; [exact Ew |].
  split; [unfold num_of_N at 1, num_of_Z at 1; cbn [jdiv];
          rewrite Qzerob_pos by lra; fold C; exact En |].
  split.
  { apply Qle_trans with (1 # 8589934592)%Q; [lra |].
    apply (Hnm (1 # 8589934592)%Q); [| exact Hz1].
    exists 1%Z, (-33)%Z. split; [reflexivity | lia]. }
  split.
  { apply (Hnm 36893488147419103232%Q); [| exact Hz2].
    exists 1%Z, 65%Z. split; [reflexivity | lia]. }
  split; intros Hvw0.
  - assert (D - (1 # 4) <= C / v)%Q as Hge.
    { apply Qle_shift_div_l; [lra |].
      apply Qle_trans
        with ((D - (1 # 4)) * (y + y * (1 # 9007199254740992)))%Q;
        [apply Qmult_le_l; lra |].
      assert ((D - (1 # 4)) * (y + y * (1 # 9007199254740992))
              == y * D
                 - y * ((1 # 4) + (1 # 4) * (1 # 9007199254740992)
                        - D * (1 # 9007199254740992)))%Q as -> by ring.
      rewrite Ey.
      assert (0 <= y * ((1 # 4) + (1 # 4) * (1 # 9007199254740992)
                        - D * (1 # 9007199254740992)))%Q
        by (apply Qmult_le_0_compat; lra).
      lra. }
    assert (D - (1 # 4) == inject_Z (4 * Z.of_N wh + -1) * (1 # 4))%Q as Er.
    { rewrite inject_Z_plus, inject_Z_mult. fold D.
      change (inject_Z 4) with 4%Q. change (inject_Z (-1)) with (-1 # 1)%Q. ring. }
    apply Hnm; [| exact Hge]. symmetry in Er.
    apply (representable_eq _ _ Er), representable_quarters. lia.
  - assert (C / v <= D + (1 # 4))%Q as Hle.
    { apply Qle_shift_div_r; [lra |].
      apply Qle_trans
        with ((D + (1 # 4)) * (y - y * (1 # 9007199254740992)))%Q;
        [| apply Qmult_le_l; lra].
      assert ((D + (1 # 4)) * (y - y * (1 # 9007199254740992))
              == y * D
                 + y * ((1 # 4) - (1 # 4) * (1 # 9007199254740992)
                        - D * (1 # 9007199254740992)))%Q as -> by ring.
      rewrite Ey.
      assert (0 <= y * ((1 # 4) - (1 # 4) * (1 # 9007199254740992)
                        - D * (1 # 9007199254740992)))%Q
        by (apply Qmult_le_0_compat; lra).
      lra. }
    assert (D + (1 # 4) == inject_Z (4 * Z.of_N wh + 1) * (1 # 4))%Q as Er.
    { rewrite inject_Z_plus, inject_Z_mult. fold D.
      change (inject_Z 4) with 4%Q. change (inject_Z 1) with 1%Q. ring. }
    apply Hnm; [| exact Hle]. symmetry in Er.
    apply (representable_eq _ _ Er), representable_quarters. lia.
Qed.
End Arms.

(** The two arms of [doWork], read off the resulting style. *)
Lemma doWork_height_arm (style : StyleProps) (vw vh ww wh : N) (css : InlineStyle) :
  (if jlt (jdiv (num_of_N vw) (num_of_N vh)) (jdiv (num_of_N ww) (num_of_N wh))
   then prop_is style "object-fit" "contain"
   else prop_is style "object-fit" "cover") = true ->
  doWork style vw vh ww wh css !! "width"
    = Some (CssPx (mathRound (jmul (num_of_N wh) (jdiv (num_of_N vw) (num_of_N vh))))) /\
  doWork style vw vh ww wh css !! "height" = Some (CssPx (num_of_N wh)) /\
  doWork style vw vh ww wh css !! "marginTop" = Some (CssNum 0).
Proof.
  intros Hc. unfold doWork. rewrite Hc.
  repeat case_match; simplify_map_eq; done.
Qed.

Lemma doWork_width_arm (style : StyleProps) (vw vh ww wh : N) (css : InlineStyle) :
  (if jlt (jdiv (num_of_N vw) (num_of_N vh)) (jdiv (num_of_N ww) (num_of_N wh))
   then prop_is style "object-fit" "contain"
   else prop_is style "object-fit" "cover") = false ->
  doWork style vw vh ww wh css !! "width" = Some (CssPx (num_of_N ww)) /\
  doWork style vw vh ww wh css !! "height"
    = Some (CssPx (mathRound (jdiv (num_of_N ww) (jdiv (num_of_N vw) (num_of_N vh))))) /\
  doWork style vw vh ww wh css !! "marginLeft" = Some (CssNum 0).
Proof.
  intros Hc. unfold doWork. rewrite Hc.
  repeat case_match; simplify_map_eq; done.
Qed.

(** C1. For positive intrinsic and client sizes that the DOM can report
    (whole numbers below [2 ^ 32]) [doWork] assigns an explicit width [w]
    and height [h] (both with ['px']) such that, for [contain], the box
    fits inside the wrapper on both axes and touches it on at least one
    ([w <= wrapWidth], [h <= wrapHeight], one of them an equality), and,
    for [cover], the box covers the wrapper on both axes and does not
    overflow on both ([wrapWidth <= w], [wrapHeight <= h], not both
    strict).  The rounding of the double-precision arithmetic never moves
    a size across the wrapper's. *)
Theorem doWork_contain_cover (style : StyleProps) (vw vh ww wh : N)
    (css : InlineStyle) :
  (0 < vw)%N -> (0 < vh)%N -> (0 < ww)%N -> (0 < wh)%N ->
  (vw < 2 ^ 32)%N -> (vh < 2 ^ 32)%N -> (ww < 2 ^ 32)%N -> (wh < 2 ^ 32)%N ->
  exists w h : Z,
    doWork style vw vh ww wh css !! "width" = Some (CssPx (num_of_Z w)) /\
    doWork style vw vh ww wh css !! "height" = Some (CssPx (num_of_Z h)) /\
    (style !! "object-fit" = Some "contain" ->
       (w <= Z.of_N ww)%Z /\ (h <= Z.of_N wh)%Z /\
       (w = Z.of_N ww \/ h = Z.of_N wh)) /\
    (style !! "object-fit" = Some "cover" ->
       (Z.of_N ww <= w)%Z /\ (Z.of_N wh <= h)%Z /\
       ~ ((Z.of_N ww < w)%Z /\ (Z.of_N wh < h)%Z)).
Proof.
  intros Hvw Hvh Hww Hwh Hvw' Hvh' Hww' Hwh'.
  destruct (newHeight_spec vw vh ww wh)
    as (v & w & nh & Ev & Ew & En & _ & _ & Hn1 & Hn2); try assumption.
  destruct (newWidth_spec vw vh ww wh)
    as (v' & w' & ht & Ev' & Ew' & Et & _ & _ & Ht1 & Ht2); try assumption.
  rewrite Ev in Ev'. injection Ev' as <-. rewrite Ew in Ew'. injection Ew' as <-.
  destruct (if jlt (jdiv (num_of_N vw) (num_of_N vh)) (jdiv (num_of_N ww) (num_of_N wh))
            then prop_is style "object-fit" "contain"
            else prop_is style "object-fit" "cover") eqn:Hc.
  - destruct (doWork_height_arm style vw vh ww wh css Hc) as (E1 & E2 & _).
    exists (Qfloor (nh + (1 # 2))), (Z.of_N wh). rewrite E1, E2, Ev, En.
    split; [reflexivity |]. split; [reflexivity |].
    rewrite Ev, Ew in Hc. cbn [jlt] in Hc. unfold prop_is in Hc.
    destruct (Qltb v w) eqn:Hlt; apply bool_decide_eq_true in Hc.
    + apply Qltb_lt in Hlt.
      split; intros Hfit; [| congruence].
      split; [apply round_le_quarter, Hn1; lra |].
      split; [lia | right; reflexivity].
    + apply Qltb_ge in Hlt.
      split; intros Hfit; [congruence |].
      split; [apply round_ge_half; specialize (Hn2 Hlt); lra |]. split; lia.
  - destruct (doWork_width_arm style vw vh ww wh css Hc) as (E1 & E2 & _).
    exists (Z.of_N ww), (Qfloor (ht + (1 # 2))). rewrite E1, E2, Ev, Et.
    split; [reflexivity |]. split; [reflexivity |].
    rewrite Ev, Ew in Hc. cbn [jlt] in Hc. unfold prop_is in Hc.
    destruct (Qltb v w) eqn:Hlt; apply bool_decide_eq_false in Hc.
    + apply Qltb_lt in Hlt.
      split; intros Hfit; [congruence |].
      split; [lia |].
      split; [apply round_ge_half; assert (v <= w)%Q as Hle by lra;
              specialize (Ht1 Hle); lra | lia].
    + apply Qltb_ge in Hlt.
      split; intros Hfit; [| congruence].
      split; [lia |].
      split; [apply round_le_quarter, Ht2, Hlt | left; reflexivity].
Qed.

Lemma doWork_contain_cover_witness :
  exists w h : Z,
    doWork {[ "object-fit" := "contain" ]} 1920 1080 400 300 ∅ !! "width"
      = Some (CssPx (num_of_Z w)) /\
    doWork {[ "object-fit" := "contain" ]} 1920 1080 400 300 ∅ !! "height"
      = Some (CssPx (num_of_Z h)) /\
    (w <= 400)%Z /\ (h <= 300)%Z /\ (w = 400%Z \/ h = 300%Z).
Proof.
  destruct (doWork_contain_cover {[ "object-fit" := "contain" ]}
              1920 1080 400 300 ∅) as (w & h & Hw & Hh & Hcontain & _);
    [reflexivity .. |].
  exists w, h. split; [exact Hw |]. split; [exact Hh |].
  apply Hcontain. reflexivity.
Defined.

(** The bound on the sizes is needed.  Past 53 bits whole numbers are no
    longer doubles: with [cover], a 9007199254740993 x 3 video in a
    wrapper of the same size would get a width one pixel short of the
    wrapper's. *)
Example doWork_beyond_53_bits :
  doWork {[ "object-fit" := "cover" ]}
    9007199254740993 3 9007199254740993 3 ∅ !! "width"
  = Some (CssPx (num_of_Z 9007199254740992)).
Proof. vm_compute. reflexivity. Qed.

Lemma fl_not_NaN (q : Q) : fl q <> JNaN.
Proof. unfold fl. by destruct (Qle_bool _ _). Qed.

(** For numbers other than NaN, [a >= b] is the negation of [a < b]. *)
Lemma jge_not_jlt (a b : jsnum) :
  a <> JNaN -> b <> JNaN -> jge a b = negb (jlt a b).
Proof.
  intros Ha Hb. destruct a as [| s | p], b as [| t | q]; try done; cbn [jge jlt].
  - by destruct s, t.
  - by destruct t.
  - destruct (Qltb p q) eqn:E.
    + apply Qltb_lt in E. apply not_true_is_false. intros H.
      apply Qle_bool_iff in H. lra.
    + apply Qltb_ge in E. by apply Qle_bool_iff.
Qed.

Lemma ratio_not_NaN (a b : N) :
  (0 < b)%N -> jdiv (num_of_N a) (num_of_N b) <> JNaN.
Proof.
  intros Hb. unfold num_of_N, num_of_Z, jdiv.
  assert (Qzerob (inject_Z (Z.of_N b)) = false) as ->
    by (unfold Qzerob; simpl; apply Z.eqb_neq; lia).
  apply fl_not_NaN.
Qed.

(** C2. For positive sizes and a fit that is [contain] or [cover],
    [doWork] takes its first arm (height set to the wrapper's client
    height, width derived from the video ratio, top margin 0) exactly when
    the specification's rule holds of the two ratios it has computed:
    [videoRatio < wrapRatio] with [contain], or [videoRatio >= wrapRatio]
    with [cover]; otherwise it takes the second arm (width set to the
    wrapper's client width, height derived from the video ratio, left
    margin 0).  The ratios, the comparison and the derived size are those
    of the double-precision arithmetic. *)
Theorem doWork_branch_rule (style : StyleProps) (fit : string)
    (vw vh ww wh : N) (css : InlineStyle) :
  (0 < vw)%N -> (0 < vh)%N -> (0 < ww)%N -> (0 < wh)%N ->
  fit = "contain" \/ fit = "cover" ->
  style !! "object-fit" = Some fit ->
  let videoRatio := jdiv (num_of_N vw) (num_of_N vh) in
  let wrapRatio := jdiv (num_of_N ww) (num_of_N wh) in
  let css' := doWork style vw vh ww wh css in
  ((if jlt videoRatio wrapRatio
    then prop_is style "object-fit" "contain"
    else prop_is style "object-fit" "cover") = true
   <-> spec_heightConstrained videoRatio wrapRatio fit) /\
  (spec_heightConstrained videoRatio wrapRatio fit ->
     css' !! "height" = Some (CssPx (num_of_N wh)) /\
     css' !! "width"
       = Some (CssPx (mathRound (jmul (num_of_N wh) videoRatio))) /\
     css' !! "marginTop" = Some (CssNum 0)) /\
  (~ spec_heightConstrained videoRatio wrapRatio fit ->
     css' !! "width" = Some (CssPx (num_of_N ww)) /\
     css' !! "height"
       = Some (CssPx (mathRound (jdiv (num_of_N ww) videoRatio))) /\
     css' !! "marginLeft" = Some (CssNum 0)).
Proof.
  intros Hvw Hvh Hww Hwh Hfit Hstyle videoRatio wrapRatio css'.
  assert ((if jlt videoRatio wrapRatio
           then prop_is style "object-fit" "contain"
           else prop_is style "object-fit" "cover") = true
          <-> spec_heightConstrained videoRatio wrapRatio fit) as Hiff.
  { unfold spec_heightConstrained, prop_is.
    rewrite (jge_not_jlt videoRatio wrapRatio)
      by (apply ratio_not_NaN; assumption).
    rewrite Hstyle. destruct (jlt videoRatio wrapRatio); cbn [negb];
      rewrite bool_decide_eq_true.
    - split; [intros [= <-]; by left | intros [[_ ->] | [? _]]; done].
    - split; [intros [= <-]; by right | intros [[? _] | [_ ->]]; done]. }
  split; [exact Hiff |].
  split; intros Hspec.
  - apply Hiff in Hspec.
    destruct (doWork_height_arm style vw vh ww wh css Hspec) as (E1 & E2 & E3).
    done.
  - assert ((if jlt videoRatio wrapRatio
             then prop_is style "object-fit" "contain"
             else prop_is style "object-fit" "cover") = false) as Hc.
    { apply not_true_is_false. intros Hc. apply Hspec, Hiff, Hc. }
    destruct (doWork_width_arm style vw vh ww wh css Hc) as (E1 & E2 & E3).
    done.
Qed.

Lemma doWork_branch_rule_witness :
  doWork {[ "object-fit" := "cover" ]} 18 7 9 1 ∅ !! "height"
    = Some (CssPx (num_of_Z 3)).
Proof.
  refine (proj1 (proj2 (proj2 (proj2 (doWork_branch_rule
            {[ "object-fit" := "cover" ]} "cover" 18 7 9 1 ∅ _ _ _ _ _ _)) _)));
    try reflexivity.
  - by right.
  - intros [[_ H] | [H _]]; [discriminate H |]. vm_compute in H. discriminate H.
Defined.

Lemma prop_is_true (style : StyleProps) (key v : string) :
  style !! key = Some v -> prop_is style key v = true.
Proof. intros H. unfold prop_is. by apply bool_decide_eq_true. Qed.

Lemma prop_is_absent (style : StyleProps) (key v : string) :
  style !! key = None -> prop_is style key v = false.
Proof. intros H. unfold prop_is. apply bool_decide_eq_false. congruence. Qed.

(** C3. A 1920x1080 video in a 400x300 wrapper with [cover] and no
    declared position: the ratio test [videoRatio < wrapRatio] is false, so
    with [cover] the first arm is taken; height is 300px, width is
    round(300 * 1920 / 1080) = 533px, the top margin is 0 and the left
    margin is -67px, rounded from the unrounded width (rounding
    (400 - 533) / 2 instead would give -66). *)
Theorem doWork_16_9_in_4_3_cover (style : StyleProps) (css : InlineStyle) :
  style !! "object-fit" = Some "cover" ->
  style !! "object-position-x" = None ->
  let css' := doWork style 1920 1080 400 300 css in
  jlt (jdiv (num_of_N 1920) (num_of_N 1080))
      (jdiv (num_of_N 400) (num_of_N 300)) = false /\
  css' !! "height" = Some (CssPx (num_of_Z 300)) /\
  css' !! "width" = Some (CssPx (num_of_Z 533)) /\
  css' !! "marginTop" = Some (CssNum 0) /\
  css' !! "marginLeft" = Some (CssPx (num_of_Z (-67))) /\
  mathRound (jdiv (jsub (num_of_Z 400) (num_of_Z 533)) (num_of_Z 2))
    = num_of_Z (-66).
Proof.
  intros Hfit Hpos css'. subst css'.
  assert (jlt (jdiv (num_of_N 1920) (num_of_N 1080))
              (jdiv (num_of_N 400) (num_of_N 300)) = false) as Hlt
    by (vm_compute; reflexivity).
  split; [exact Hlt |].
  assert ((if jlt (jdiv (num_of_N 1920) (num_of_N 1080))
                  (jdiv (num_of_N 400) (num_of_N 300))
           then prop_is style "object-fit" "contain"
           else prop_is style "object-fit" "cover") = true) as Hc
    by (rewrite Hlt; by apply prop_is_true).
  destruct (doWork_height_arm style 1920 1080 400 300 css Hc) as (E1 & E2 & E3).
  split; [exact E2 |]. split; [rewrite E1; vm_compute; reflexivity |].
  split; [exact E3 |]. split; [| vm_compute; reflexivity].
  unfold doWork. rewrite Hc.
  rewrite !(prop_is_absent style "object-position-x") by exact Hpos.
  rewrite lookup_insert_eq. vm_compute. reflexivity.
Qed.

(** The same scenario on primitive floats: the comparison, the width and
    the left margin agree. *)
Example doWork_16_9_in_4_3_cover_binary64 :
  PrimFloat.ltb (b64_ratio 1920 1080) (b64_ratio 400 300) = false /\
  b64_round (b64_newHeight 1920 1080 300) = Some 533%Z /\
  b64_round (b64_centered 1920 1080 400 300) = Some (-67)%Z.
Proof. vm_compute. repeat split; reflexivity. Qed.

(** Where rounding shows.  The exact quotient 9 / (18 / 7) is 3.5, which
    would round to 4; the script computes 3.4999999999999996 and the
    height is 3.  In the same way (56 - 45 * (352 / 288)) / 2 is 0.5
    exactly but the script gets a number just below, and the margin is 0.
    And two ratios that differ by less than the spacing of the doubles
    compare as equal. *)
Example doWork_rounding :
  doWork {[ "object-fit" := "cover" ]} 18 7 9 1 ∅ !! "height"
    = Some (CssPx (num_of_Z 3)) /\
  b64_round (b64_newWidth 18 7 9) = Some 3%Z /\
  doWork {[ "object-fit" := "contain" ]} 352 288 56 45 ∅ !! "marginLeft"
    = Some (CssPx (num_of_Z 0)) /\
  b64_round (b64_centered 352 288 56 45) = Some 0%Z /\
  jlt (jdiv (num_of_N 134217730) (num_of_N 134217729))
      (jdiv (num_of_N 134217729) (num_of_N 134217728)) = false /\
  PrimFloat.ltb (b64_ratio 134217730 134217729)
                (b64_ratio 134217729 134217728) = false.
Proof. vm_compute. repeat split; reflexivity. Qed.

(** [fl] against the primitive floats, on the sizes above and on 1500
    quadruples of sizes: the same quotient, product and difference each
    time. *)
Example fl_agrees_with_binary64 :
  forallb (fun '(a, b, c, d) => agree_on a b c d)
    ([(18, 7, 9, 1); (352, 288, 56, 45); (1920, 1080, 400, 300);
      (134217730, 134217729, 134217729, 134217728)]%N
     ++ sample_sizes 500 12345 4294967295
     ++ sample_sizes 500 999 5000
     ++ sample_sizes 500 7 100) = true.
Proof. vm_compute. reflexivity. Qed.

Lemma doWork_16_9_in_4_3_cover_witness :
  doWork {[ "object-fit" := "cover" ]} 1920 1080 400 300 ∅ !! "marginLeft"
    = Some (CssPx (num_of_Z (-67))).
Proof.
  refine (proj1 (proj2 (proj2 (proj2 (proj2
    (doWork_16_9_in_4_3_cover {[ "object-fit" := "cover" ]} ∅ _ _)))))).
  - reflexivity.
  - reflexivity.
Defined.

(** *** Substring search *)

Lemma prefix_spec (a s : string) :
  String.prefix a s = true <-> exists q, s = (a ++ q)%string.
Proof.
  revert s. induction a as [| c a IH]; intros s.
  - split; [intros _; by exists s | by destruct s].
  - destruct s as [| c' s]; [split; [done | by intros [q [=]]] |].
    cbn [String.prefix].
    destruct (Ascii.ascii_dec c c') as [-> | Hne].
    + rewrite IH. split; intros [q Hq]; exists q.
      * change (String c' s = String c' (a ++ q)%string). by rewrite Hq.
      * change (String c' s = String c' (a ++ q)%string) in Hq. congruence.
    + split; [done |]. intros [q Hq].
      change (String c' s = String c (a ++ q)%string) in Hq. congruence.
Qed.

Lemma contains_cons (c : ascii) (s sub : string) :
  contains (String c s) sub <->
  String.prefix sub (String c s) = true \/ contains s sub.
Proof.
  split.
  - intros (b & a & E). destruct b as [| c' b].
    + left. apply prefix_spec. by exists a.
    + right. change (String c s = String c' (b ++ sub ++ a)%string) in E.
      injection E as -> ->. by exists b, a.
  - intros [H | (b & a & ->)].
    + apply prefix_spec in H as [q Hq]. by exists "", q.
    + by exists (String c b), a.
Qed.

Lemma contains_dec (s sub : string) : contains s sub \/ ~ contains s sub.
Proof.
  induction s as [| c s IH].
  - destruct (String.prefix sub "") eqn:Hp.
    + left. apply prefix_spec in Hp as [q Hq]. by exists "", q.
    + right. intros (b & a & E). destruct b; [| done].
      assert (String.prefix sub "" = true) by (apply prefix_spec; by exists a).
      congruence.
  - destruct (String.prefix sub (String c s)) eqn:Hp.
    + left. apply contains_cons. by left.
    + destruct IH as [IH | IH].
      * left. apply contains_cons. by right.
      * right. intros [H | H]%contains_cons; [congruence | done].
Qed.

Lemma indexOf_from_spec (i : Z) (s sub : string) :
  (0 <= i)%Z ->
  (contains s sub -> (i <= indexOf_from i s sub)%Z) /\
  (~ contains s sub -> indexOf_from i s sub = (-1)%Z).
Proof.
  revert i. induction s as [| c s IH]; intros i Hi.
  - cbn [indexOf_from]. destruct (String.prefix sub "") eqn:Hp.
    + split; [lia |]. intros Hn. exfalso. apply Hn.
      apply prefix_spec in Hp as [q Hq]. by exists "", q.
    + split; [| done]. intros (b & a & E). exfalso.
      destruct b; [| done].
      assert (String.prefix sub "" = true) by (apply prefix_spec; by exists a).
      congruence.
  - cbn [indexOf_from]. destruct (String.prefix sub (String c s)) eqn:Hp.
    + split; [lia |]. intros Hn. exfalso. apply Hn, contains_cons. by left.
    + destruct (IH (i + 1)%Z) as [IH1 IH2]; [lia |].
      split.
      * intros [H | H]%contains_cons; [congruence |]. specialize (IH1 H). lia.
      * intros Hn. apply IH2. intros H. apply Hn, contains_cons. by right.
Qed.

(** [~s.indexOf(sub)] is truthy exactly when [sub] occurs in [s]. *)
Lemma includes_spec (s sub : string) :
  truthyZ (bitNot (indexOf s sub)) = true <-> contains s sub.
Proof.
  unfold truthyZ, bitNot, indexOf.
  destruct (indexOf_from_spec 0 s sub) as [H1 H2]; [lia |].
  rewrite negb_true_iff, Z.eqb_neq.
  unfold Z.lnot, Z.pred. split.
  - intros Hne. destruct (contains_dec s sub) as [H | H]; [exact H |].
    rewrite (H2 H) in Hne. done.
  - intros H. specialize (H1 H). lia.
Qed.

(** *** The matcher *)

Section MatcherFacts.
Context {X : Type}.
Implicit Types (k : string -> Captures -> option X) (x : X).

Lemma star_loop_inv (G : Prop)
    (body : string -> Captures -> (string -> Captures -> option X) -> option X) :
  (forall s caps k x, body s caps k = Some x ->
     exists s' caps', k s' caps' = Some x /\
       (String.length s' <= String.length s)%nat /\ (G -> caps' = caps)) ->
  forall fuel s caps k x, star_loop body fuel s caps k = Some x ->
    exists s' caps', k s' caps' = Some x /\
      (String.length s' <= String.length s)%nat /\ (G -> caps' = caps).
Proof.
  intros Hbody. induction fuel as [| fuel IH]; intros s caps k x H.
  - exists s, caps. by repeat split.
  - cbn [star_loop] in H.
    destruct (body s caps _) as [y |] eqn:Hb.
    + injection H as ->.
      apply Hbody in Hb as (s1 & caps1 & Hk & Hlen & Hcaps).
      destruct (String.length s1 <? String.length s)%nat eqn:Hlt; [| done].
      apply IH in Hk as (s' & caps' & Hk & Hlen' & Hcaps').
      exists s', caps'. split; [done |]. split; [lia |].
      intros HG. rewrite Hcaps', Hcaps; done.
    + exists s, caps. by repeat split.
Qed.

Lemma rmatch_inv (r : regex) :
  forall s caps k x, rmatch r s caps k = Some x ->
    exists s' caps', k s' caps' = Some x /\
      (String.length s' <= String.length s)%nat /\
      (consumes r = true -> (String.length s' < String.length s)%nat) /\
      (groupless r = true -> caps' = caps).
Proof.
  induction r as [c | p | r1 IH1 r2 IH2 | r1 IH1 r2 IH2 | r1 IH1 | i r1 IH1];
    intros s caps k x H; cbn [rmatch consumes groupless] in *.
  - destruct s as [| c' s]; [done |]. destruct (Ascii.eqb c c'); [| done].
    exists s, caps. cbn [String.length]. repeat split; auto with lia.
  - destruct s as [| c' s]; [done |]. destruct (p c'); [| done].
    exists s, caps. cbn [String.length]. repeat split; auto with lia.
  - apply IH1 in H as (s1 & caps1 & H & Hlen1 & Hc1 & Hg1).
    apply IH2 in H as (s2 & caps2 & H & Hlen2 & Hc2 & Hg2).
    exists s2, caps2. split; [done |]. split; [lia |]. split.
    + intros [Hc | Hc]%orb_true_iff; [specialize (Hc1 Hc) | specialize (Hc2 Hc)]; lia.
    + intros [Ha Hb]%andb_true_iff. rewrite Hg2, Hg1; done.
  - destruct (rmatch r1 s caps k) as [y |] eqn:H1.
    + injection H as ->.
      apply IH1 in H1 as (s1 & caps1 & H & Hlen1 & Hc1 & Hg1).
      exists s1, caps1. split; [done |]. split; [lia |]. split.
      * intros [Ha Hb]%andb_true_iff. auto.
      * intros [Ha Hb]%andb_true_iff. auto.
    + apply IH2 in H as (s1 & caps1 & H & Hlen1 & Hc1 & Hg1).
      exists s1, caps1. split; [done |]. split; [lia |]. split.
      * intros [Ha Hb]%andb_true_iff. auto.
      * intros [Ha Hb]%andb_true_iff. auto.
  - apply (star_loop_inv (groupless r1 = true)) in H
      as (s' & caps' & H & Hlen & Hg).
    + exists s', caps'. by repeat split.
    + intros s0 caps0 k0 x0 H0.
      apply IH1 in H0 as (s1 & caps1 & H0 & Hlen1 & _ & Hg1).
      exists s1, caps1. by repeat split.
  - apply IH1 in H as (s1 & caps1 & H & Hlen1 & Hc1 & _).
    exists s1, (<[i := consumed s s1]> caps1). by repeat split.
Qed.
End MatcherFacts.

Lemma rmatch_lit {X : Type} (w : string) (s : string) (caps : Captures)
    (k : string -> Captures -> option X) (x : X) :
  w <> "" ->
  rmatch (lit w) s caps k = Some x ->
  exists s', s = (w ++ s')%string /\ k s' caps = Some x.
Proof.
  revert s. induction w as [| c w IH]; intros s Hne H; [done |].
  destruct w as [| c2 w].
  - cbn [lit rmatch] in H. destruct s as [| c' s]; [done |].
    destruct (Ascii.eqb_spec c c') as [<- | _]; [| done].
    by exists s.
  - cbn [lit rmatch] in H. fold (lit (String c2 w)) in H.
    destruct s as [| c' s]; [done |].
    destruct (Ascii.eqb_spec c c') as [<- | _]; [| done].
    apply IH in H as (s' & -> & H); [| done].
    by exists s'.
Qed.

Lemma length_app_string (a b : string) :
  String.length (a ++ b)%string = (String.length a + String.length b)%nat.
Proof.
  induction a as [| c a IH]; [done |].
  change (S (String.length (a ++ b)%string) = S (String.length a + String.length b)).
  by rewrite IH.
Qed.

Lemma consumed_app (w s' : string) : consumed (w ++ s')%string s' = w.
Proof.
  unfold consumed. rewrite length_app_string.
  replace (String.length w + String.length s' - String.length s')%nat
    with (String.length w) by lia.
  induction w as [| c w IH]; [by destruct s' |].
  change (String c (String.substring 0 (String.length w) (w ++ s')%string)
          = String c w).
  by rewrite IH.
Qed.

Lemma consumed_nonempty (s s' : string) :
  (String.length s' < String.length s)%nat -> consumed s s' <> "".
Proof.
  unfold consumed. intros H.
  destruct s as [| c s]; cbn [String.length] in *; [lia |].
  destruct (S (String.length s) - String.length s')%nat as [| n] eqn:E; [lia |].
  done.
Qed.

(** A match of [propRegex] captures one of the two property names and a
    non-empty value, and consumes input. *)
Lemma propRegex_match (s rest : string) (caps : Captures) :
  rmatch propRegex s ∅ (fun s' caps' => Some (caps', s')) = Some (caps, rest) ->
  exists key value,
    caps !! 1%nat = Some key /\ caps !! 2%nat = Some value /\
    (key = "object-fit" \/ key = "object-position") /\
    value <> "" /\
    (String.length rest < String.length s)%nat.
Proof.
  unfold propRegex. intros H. cbn [rmatch] in H.
  assert (exists key s1,
            (key = "object-fit" \/ key = "object-position") /\
            s = (key ++ s1)%string /\
            rmatch (RSeq (RStar (RClass is_space))
                     (RSeq (RLit ":")
                        (RSeq (RStar (RClass is_space))
                           (RGroup 2 (RSeq (RClass is_value_char)
                                        (RStar (RClass is_value_char)))))))
              s1 (<[1%nat := consumed s s1]> ∅)
              (fun s' caps' => Some (caps', s')) = Some (caps, rest))
    as (key & s1 & Hkey & -> & H1).
  { destruct (rmatch (lit "object-fit") s ∅ _) as [y |] eqn:Ha.
    - injection H as ->.
      apply rmatch_lit in Ha as (s1 & -> & Ha); [| done].
      exists "object-fit", s1. split; [by left |]. split; [done |]. exact Ha.
    - apply rmatch_lit in H as (s1 & -> & Ha'); [| done].
      exists "object-position", s1. split; [by right |]. split; [done |].
      exact Ha'. }
  rewrite consumed_app in H1.
  cbn [rmatch] in H1.
  apply (rmatch_inv (RStar (RClass is_space))) in H1
    as (s2 & caps2 & H1 & Hl2 & _ & Hg2).
  rewrite (Hg2 eq_refl) in H1. clear Hg2 caps2.
  destruct s2 as [| c s2]; [done |].
  destruct (Ascii.eqb ":" c); [| done].
  apply (rmatch_inv (RStar (RClass is_space))) in H1
    as (s3 & caps3 & H1 & Hl3 & _ & Hg3).
  rewrite (Hg3 eq_refl) in H1. clear Hg3 caps3.
  apply (rmatch_inv (RSeq (RClass is_value_char) (RStar (RClass is_value_char))))
    in H1 as (s4 & caps4 & H1 & Hl4 & Hc4 & Hg4).
  rewrite (Hg4 eq_refl) in H1. specialize (Hc4 eq_refl).
  injection H1 as <- <-.
  exists key, (consumed s3 s4).
  split; [by rewrite lookup_insert_ne, lookup_insert_eq |].
  split; [by rewrite lookup_insert_eq |].
  split; [exact Hkey |].
  split; [by apply consumed_nonempty |].
  rewrite length_app_string. cbn [String.length] in *. lia.
Qed.

Lemma regexExec_propRegex (s rest : string) (caps : Captures) :
  regexExec propRegex s = Some (caps, rest) ->
  exists key value,
    caps !! 1%nat = Some key /\ caps !! 2%nat = Some value /\
    (key = "object-fit" \/ key = "object-position") /\
    value <> "" /\
    (String.length rest < String.length s)%nat.
Proof.
  induction s as [| c s IH]; cbn [regexExec]; intros H.
  - destruct (rmatch propRegex "" ∅ _) as [m |] eqn:Hm; [| done].
    injection H as ->. by apply propRegex_match in Hm.
  - destruct (rmatch propRegex (String c s) ∅ _) as [m |] eqn:Hm.
    + injection H as ->. by apply propRegex_match in Hm.
    + apply IH in H as (key & value & H1 & H2 & H3 & H4 & H5).
      exists key, value. cbn [String.length]. repeat split; auto with lia.
Qed.

(** *** [getStyle] *)

Lemma getStyle_loop_raw (fuel : nat) (s : string) (props : StyleProps) :
  raw_props props -> raw_props (getStyle_loop fuel s props).
Proof.
  revert s props. induction fuel as [| fuel IH]; intros s props Hraw; [done |].
  cbn [getStyle_loop].
  destruct (regexExec propRegex s) as [[parsed rest] |] eqn:Hexec; [| done].
  apply regexExec_propRegex in Hexec as (key & value & -> & -> & Hk & Hv & _).
  apply IH. intros key' value'.
  rewrite lookup_insert. case_decide as Heq.
  - intros [= <-]. by subst key'.
  - apply Hraw.
Qed.

(** The loop ends because [exec] finds no further match, not because the
    fuel runs out: any fuel from [length s] on gives the same object. *)
Lemma getStyle_loop_fuel (n m : nat) (s : string) (props : StyleProps) :
  (String.length s <= n)%nat -> (String.length s <= m)%nat ->
  getStyle_loop n s props = getStyle_loop m s props.
Proof.
  revert m s props. induction n as [| n IH]; intros m s props Hn Hm.
  - destruct m as [| m]; [done |]. cbn [getStyle_loop].
    destruct (regexExec propRegex s) as [[parsed rest] |] eqn:Hexec; [| done].
    apply regexExec_propRegex in Hexec as (? & ? & _ & _ & _ & _ & Hlt). lia.
  - cbn [getStyle_loop].
    destruct (regexExec propRegex s) as [[parsed rest] |] eqn:Hexec.
    + pose proof Hexec as (key & value & E1 & E2 & _ & _ & Hlt)%regexExec_propRegex.
      destruct m as [| m]; [lia |]. cbn [getStyle_loop].
      rewrite Hexec, E1, E2. apply IH; lia.
    + destruct m as [| m]; [done |]. cbn [getStyle_loop]. by rewrite Hexec.
Qed.

Lemma truthy_prop_raw (props : StyleProps) (key : string) :
  raw_props props -> truthy_prop props key = true <-> is_Some (props !! key).
Proof.
  intros Hraw. unfold truthy_prop.
  destruct (props !! key) as [v |] eqn:E.
  - destruct (Hraw _ _ E) as [_ Hv].
    destruct (String.eqb_spec v ""); [done |]. by split.
  - split; [done | by intros [? ?]].
Qed.

Lemma parsePosition_ok (style : StyleProps) (pos : string) :
  style !! "object-position" = Some pos ->
  exists x y,
    parsePosition style
      = Ok (<["object-position-y" := y]> (<["object-position-x" := x]> style)) /\
    x = (if truthyZ (bitNot (indexOf pos "left")) then "left"
         else if truthyZ (bitNot (indexOf pos "right")) then "right"
         else "center") /\
    y = (if truthyZ (bitNot (indexOf pos "top")) then "top"
         else if truthyZ (bitNot (indexOf pos "bottom")) then "bottom"
         else "center").
Proof.
  intros H. unfold parsePosition. rewrite H.
  eexists _, _. split; [| split; reflexivity].
  repeat case_match; reflexivity.
Qed.

(** [getStyle] never throws; its result has the two position keys exactly
    when [object-position] was declared, and its raw values are not empty. *)
Lemma getStyle_shape (fontFamily : string) :
  exists style,
    getStyle fontFamily = Ok style /\
    (truthy_prop style "object-fit" = true <-> is_Some (style !! "object-fit")) /\
    (truthy_prop style "object-position" = true
       <-> is_Some (style !! "object-position")) /\
    (style !! "object-position" = None ->
       style !! "object-position-x" = None /\
       style !! "object-position-y" = None) /\
    (is_Some (style !! "object-position") ->
       is_Some (style !! "object-position-x") /\
       is_Some (style !! "object-position-y")).
Proof.
  unfold getStyle.
  set (props := getStyle_loop _ _ _).
  assert (raw_props props) as Hraw by (by apply getStyle_loop_raw).
  assert (props !! "object-position-x" = None /\
          props !! "object-position-y" = None) as [Hx Hy].
  { split; (destruct (props !! _) as [v |] eqn:E; [| done]);
      destruct (Hraw _ _ E) as [[? | ?] _]; done. }
  destruct (truthy_prop props "object-position") eqn:Ht.
  - pose proof Ht as [pos Hpos]%truthy_prop_raw; [| done].
    destruct (parsePosition_ok props pos Hpos) as (x & y & -> & _ & _).
    eexists. split; [reflexivity |].
    unfold truthy_prop in *. simplify_map_eq.
    split.
    { destruct (props !! "object-fit") as [v |] eqn:E.
      - destruct (Hraw _ _ E) as [_ Hv].
        destruct (String.eqb_spec v ""); [done |]. by split.
      - split; [done | by intros [? ?]]. }
    split; [split; eauto |]. split; [done |]. eauto.
  - exists props. split; [done |].
    split; [by apply truthy_prop_raw |]. split; [by apply truthy_prop_raw |].
    split; [done |]. intros Hs. apply truthy_prop_raw in Hs; [congruence | done].
Qed.

Lemma doWork_absent_position (style : StyleProps) (vw vh ww wh : N)
    (css : InlineStyle) :
  style !! "object-position-x" = None ->
  style !! "object-position-y" = None ->
  doWork style vw vh ww wh css
  = doWork (<["object-position-x" := "center"]>
              (<["object-position-y" := "center"]> style)) vw vh ww wh css.
Proof.
  intros Hx Hy. unfold doWork, prop_is.
  rewrite !lookup_insert_ne by done. rewrite Hx, Hy, !lookup_insert_eq.
  rewrite lookup_insert_ne by done. rewrite lookup_insert_eq.
  rewrite !(bool_decide_eq_false_2 (None = Some _)) by done.
  rewrite !(bool_decide_eq_false_2 (Some "center" = Some _)) by done.
  reflexivity.
Qed.

(** C7. The position resolver classifies each axis by case-sensitive
    substring containment: [left], else [right], else [center] for x;
    [top], else [bottom], else [center] for y.  In particular
    ["object-position: right bottom"] gives right/bottom and
    ["object-position: top"] gives center/top; when no [object-position]
    is declared the two keys stay absent and [doWork] then sizes exactly
    as it does for center/center. *)
Theorem parsePosition_classifies :
  (forall (style : StyleProps) (pos : string),
     style !! "object-position" = Some pos ->
     exists style',
       parsePosition style = Ok style' /\
       (contains pos "left" -> style' !! "object-position-x" = Some "left") /\
       (~ contains pos "left" -> contains pos "right" ->
          style' !! "object-position-x" = Some "right") /\
       (~ contains pos "left" -> ~ contains pos "right" ->
          style' !! "object-position-x" = Some "center") /\
       (contains pos "top" -> style' !! "object-position-y" = Some "top") /\
       (~ contains pos "top" -> contains pos "bottom" ->
          style' !! "object-position-y" = Some "bottom") /\
       (~ contains pos "top" -> ~ contains pos "bottom" ->
          style' !! "object-position-y" = Some "center")) /\
  (exists style,
     getStyle "object-position: right bottom" = Ok style /\
     style !! "object-position" = Some "right bottom" /\
     style !! "object-position-x" = Some "right" /\
     style !! "object-position-y" = Some "bottom") /\
  (exists style,
     getStyle "object-position: top" = Ok style /\
     style !! "object-position" = Some "top" /\
     style !! "object-position-x" = Some "center" /\
     style !! "object-position-y" = Some "top") /\
  (forall (fontFamily : string) (style : StyleProps),
     getStyle fontFamily = Ok style ->
     style !! "object-position" = None ->
     style !! "object-position-x" = None /\
     style !! "object-position-y" = None /\
     forall vw vh ww wh css,
       doWork style vw vh ww wh css
       = doWork (<["object-position-x" := "center"]>
                   (<["object-position-y" := "center"]> style))
                vw vh ww wh css).
Proof.
  split; [| split; [| split]].
  - intros style pos Hpos.
    destruct (parsePosition_ok style pos Hpos) as (x & y & -> & Hx & Hy).
    eexists. split; [reflexivity |].
    rewrite lookup_insert_ne, !lookup_insert_eq by done.
    pose proof (includes_spec pos "left") as Hl.
    pose proof (includes_spec pos "right") as Hr.
    pose proof (includes_spec pos "top") as Ht.
    pose proof (includes_spec pos "bottom") as Hb.
    destruct (truthyZ (bitNot (indexOf pos "left")));
      destruct (truthyZ (bitNot (indexOf pos "right")));
      destruct (truthyZ (bitNot (indexOf pos "top")));
      destruct (truthyZ (bitNot (indexOf pos "bottom")));
      subst x y; repeat split; intros;
      try reflexivity;
      repeat match goal with
             | H : true = true <-> _ |- _ => destruct H as [H _]; specialize (H eq_refl)
             | H : false = true <-> _ |- _ => destruct H as [_ H]
             end;
      try contradiction;
      exfalso; auto using diff_false_true.
  - eexists. split; [vm_compute; reflexivity |]. by vm_compute.
  - eexists. split; [vm_compute; reflexivity |]. by vm_compute.
  - intros fontFamily style Hget Hnone.
    destruct (getStyle_shape fontFamily) as (style0 & E & _ & _ & Habs & _).
    rewrite E in Hget. injection Hget as ->.
    destruct (Habs Hnone) as [Hx Hy].
    split; [exact Hx |]. split; [exact Hy |].
    intros. by apply doWork_absent_position.
Qed.

Lemma parsePosition_classifies_witness :
  exists style',
    parsePosition {[ "object-position" := "rightward top" ]} = Ok style' /\
    style' !! "object-position-x" = Some "right" /\
    style' !! "object-position-y" = Some "top".
Proof.
  destruct (proj1 parsePosition_classifies
              {[ "object-position" := "rightward top" ]} "rightward top")
    as (style' & E & _ & Hx & _ & Hy & _); [reflexivity |].
  exists style'. split; [exact E |]. split.
  - apply Hx.
    + intros H. apply includes_spec in H. vm_compute in H. discriminate.
    + by exists "", "ward top".
  - apply Hy. by exists "rightward ", "".
Defined.

(** C10. When the position string contains both [left] and [right] the
    resolver assigns [left], when it contains both [top] and [bottom] it
    assigns [top], and whenever an [object-position] value is present
    both [object-position-x] and [object-position-y] are assigned, by
    [parsePosition] and so by [getStyle]. *)
Theorem parsePosition_precedence :
  (forall (style : StyleProps) (pos : string),
     style !! "object-position" = Some pos ->
     exists style',
       parsePosition style = Ok style' /\
       is_Some (style' !! "object-position-x") /\
       is_Some (style' !! "object-position-y") /\
       (contains pos "left" -> contains pos "right" ->
          style' !! "object-position-x" = Some "left") /\
       (contains pos "top" -> contains pos "bottom" ->
          style' !! "object-position-y" = Some "top")) /\
  (forall (fontFamily : string) (style : StyleProps),
     getStyle fontFamily = Ok style ->
     is_Some (style !! "object-position") ->
     is_Some (style !! "object-position-x") /\
     is_Some (style !! "object-position-y")).
Proof.
  split.
  - intros style pos Hpos.
    destruct (parsePosition_ok style pos Hpos) as (x & y & -> & Hx & Hy).
    eexists. split; [reflexivity |].
    rewrite lookup_insert_ne, !lookup_insert_eq by done.
    split; [eauto |]. split; [eauto |]. split.
    + intros Hl%includes_spec _. by rewrite Hx, Hl.
    + intros Ht%includes_spec _. by rewrite Hy, Ht.
  - intros fontFamily style Hget Hsome.
    destruct (getStyle_shape fontFamily) as (style0 & E & _ & _ & _ & Hpres).
    rewrite E in Hget. injection Hget as ->. auto.
Qed.

Lemma parsePosition_precedence_witness :
  exists style',
    parsePosition {[ "object-position" := "right bottom left top" ]} = Ok style' /\
    style' !! "object-position-x" = Some "left" /\
    style' !! "object-position-y" = Some "top".
Proof.
  destruct (proj1 parsePosition_precedence
              {[ "object-position" := "right bottom left top" ]}
              "right bottom left top")
    as (style' & E & _ & _ & Hx & Hy); [reflexivity |].
  exists style'. split; [exact E |]. split.
  - apply Hx; [by exists "right bottom ", " top" | by exists "", " bottom left top"].
  - apply Hy; [by exists "right bottom left ", "" | by exists "right ", " left top"].
Defined.

(** *** [initialize] and [fitIt] *)

Example copied_properties_are :
  copied_properties
  = ["backgroundColor"; "backgroundImage"; "borderColor"; "borderStyle";
     "borderWidth"; "bottom"; "fontSize"; "lineHeight"; "left"; "opacity";
     "margin"; "position"; "right"; "top"; "visibility"].
Proof. reflexivity. Qed.

Lemma fitIt_fill (env : Platform) (el : Node) (style : StyleProps) (st : State) :
  style !! "object-fit" = Some "fill" -> fitIt env el style st = Return st.
Proof.
  intros H. unfold fitIt, prop_is. by rewrite bool_decide_eq_true_2.
Qed.

Lemma initialize_step_fill (env : Platform) (el : Node) (style : StyleProps)
    (st : State) :
  getStyle (fontFamily env el) = Ok style ->
  fit_or_fill style = "fill" ->
  initialize_step env el st = Return st.
Proof.
  intros Hget Hfill. unfold initialize_step. rewrite Hget, Hfill.
  destruct (_ || _); [| done].
  apply fitIt_fill, lookup_insert_eq.
Qed.


(** C4 (as amended). For an element whose intent is [fill], declared or
    assigned by default when only [object-position] is declared, [fitIt]
    returns at once: no sizing, no wrapper, no listener.  The state is
    unchanged by [fitIt], and so by the loop body of [initialize]. *)
Theorem fill_is_left_alone (env : Platform) (el : Node) (st : State) :
  (forall style : StyleProps,
     style !! "object-fit" = Some "fill" ->
     fitIt env el style st = Return st) /\
  (forall style : StyleProps,
     getStyle (fontFamily env el) = Ok style ->
     fit_or_fill style = "fill" ->
     initialize_step env el st = Return st).
Proof.
  split.
  - intros style H. by apply fitIt_fill.
  - intros style Hget Hfill. by apply (initialize_step_fill env el style).
Qed.

Lemma fill_is_left_alone_witness :
  initialize_step (example_platform 1920 1080) 2 example_page
  = Return example_page.
Proof.
  refine (proj2 (fill_is_left_alone (example_platform 1920 1080) 2 example_page)
            (<["object-position-y" := "center"]>
               (<["object-position-x" := "left"]>
                  {[ "object-position" := "left" ]})) _ _).
  - vm_compute. reflexivity.
  - vm_compute. reflexivity.
Defined.

(** C4, the claim as stated fails: on the example page the entry point
    wraps the [cover] video (node 1) but neither the video that is [fill]
    by default (node 2) nor the one that declares [fill] (node 3). *)
Lemma fill_is_wrapped_counterexample :
  (exists style,
     getStyle (fontFamily (example_platform 1920 1080) 2) = Ok style /\
     fit_or_fill style = "fill") /\
  (exists style,
     getStyle (fontFamily (example_platform 1920 1080) 3) = Ok style /\
     style !! "object-fit" = Some "fill") /\
  exists st',
    objectFitVideos (example_platform 1920 1080) ArgUndefined example_page
      = Return st' /\
    is_wrapped st' 1 /\ ~ is_wrapped st' 2 /\ ~ is_wrapped st' 3.
Proof.
  split; [eexists; split; [vm_compute; reflexivity | by vm_compute] |].
  split; [eexists; split; [vm_compute; reflexivity | by vm_compute] |].
  eexists. split; [vm_compute; reflexivity |].
  split; [exists 5%nat; split; by vm_compute |].
  split; intros (wrap & H1 & H2); vm_compute in H1; injection H1 as <-;
    vm_compute in H2; discriminate.
Qed.

(** C5 (as amended). An element whose extracted style has neither
    [object-fit] nor [object-position] is skipped: the loop body of
    [initialize] leaves the whole state as it is (no wrapper, no listener,
    no timer, no style change), in any position of the list; the entry
    point called on such an element does what it does when called on no
    element at all, which changes neither the document nor any inline
    style and registers no listener other than the window-level [resize]
    listener of [throttle]. *)
Theorem untagged_element_untouched (env : Platform) (el : Node)
    (style : StyleProps) (st : State) :
  getStyle (fontFamily env el) = Ok style ->
  style !! "object-fit" = None ->
  style !! "object-position" = None ->
  initialize_step env el st = Return st /\
  initialize env (ArgElement el) st = Return st /\
  (forall rest, initialize_loop env (Some el :: rest) st
                = initialize_loop env rest st) /\
  objectFitVideos env (ArgElement el) st
    = objectFitVideos env (ArgArrayLike []) st /\
  exists st',
    objectFitVideos env (ArgElement el) st = Return st' /\
    doc st' = doc st /\
    fits (vars st') = fits (vars st) /\
    timers (loop st') = timers (loop st) /\
    forall l, l ∈ listeners (loop st') ->
      l ∈ listeners (loop st) \/
      (l_target l = Window /\ l_type l = "resize" /\
       is_throttle_func (l_handler l) = true).
Proof.
  intros Hget Hfit Hpos.
  assert (initialize_step env el st = Return st) as Hstep.
  { unfold initialize_step, truthy_prop. by rewrite Hget, Hfit, Hpos. }
  assert (initialize env (ArgElement el) st = Return st) as Hinit.
  { unfold initialize. cbn [truthy_arg initialize_loop]. by rewrite Hstep. }
  split; [exact Hstep |]. split; [exact Hinit |].
  split; [intros rest; cbn [initialize_loop]; by rewrite Hstep |].
  split; [unfold objectFitVideos; by rewrite Hinit |].
  unfold objectFitVideos. rewrite Hinit.
  destruct (_ || _).
  - eexists. split; [reflexivity |].
    unfold throttle, addEventListener. cbn [default].
    case_decide as Hin; cbn.
    + repeat split; auto.
    + repeat split; try done.
      intros l [Hl | ->%list_elem_of_singleton]%elem_of_app; [by left |].
      right. done.
  - exists st. repeat split; auto.
Qed.

Lemma untagged_element_untouched_witness :
  initialize (example_platform 1920 1080) (ArgElement 4) example_page
  = Return example_page.
Proof.
  refine (proj1 (proj2 (untagged_element_untouched
            (example_platform 1920 1080) 4 ∅ example_page _ _ _))).
  - vm_compute. reflexivity.
  - reflexivity.
  - reflexivity.
Defined.

(** C5, the claim as stated fails: the entry point does attach a
    listener.  On the example page the video that declares nothing
    (node 4) gets no wrapper and keeps its place and its styles, but the
    call registers the [resize] listener of [throttle] on the window, and
    the variables of that call of [throttle]. *)
Lemma untagged_element_listener_counterexample :
  getStyle (fontFamily (example_platform 1920 1080) 4) = Ok ∅ /\
  listeners (loop example_page) = [] /\
  exists st',
    objectFitVideos (example_platform 1920 1080) (ArgElement 4) example_page
      = Return st' /\
    doc st' = doc example_page /\
    listeners (loop st') = [mkListener Window "resize" (throttle_func 0)] /\
    throttles (vars st')
      = [mkThrottle Window (mkEvent "optimizedResize" false false) false].
Proof.
  split; [vm_compute; reflexivity |]. split; [reflexivity |].
  eexists. split; [vm_compute; reflexivity |].
  split; [reflexivity |]. split; reflexivity.
Qed.




(** *** [startWork] *)

Lemma doc_addEventListener target type h st :
  doc (addEventListener target type h st) = doc st.
Proof. unfold addEventListener. by case_decide. Qed.

Lemma vars_addEventListener target type h st :
  vars (addEventListener target type h st) = vars st.
Proof. unfold addEventListener. by case_decide. Qed.

Lemma timers_addEventListener target type h st :
  timers (loop (addEventListener target type h st)) = timers (loop st).
Proof. unfold addEventListener. by case_decide. Qed.

Lemma startWork_zero (env : Platform) (c : nat) (cl : FitClosure) (st : State) :
  fits (vars st) !! c = Some cl ->
  videoWidth env (c_el cl) = 0%N \/ videoHeight env (c_el cl) = 0%N ->
  startWork env c st
  = setTimeout (startWork_fn c) 50
      (set_fit c (mkFit (c_el cl) (c_wrap cl) (c_style cl)
                        (videoWidth env (c_el cl)) (videoHeight env (c_el cl)))
         st).
Proof.
  intros Hc Hz. unfold startWork. rewrite Hc. cbn [c_videoWidth c_videoHeight].
  destruct Hz as [-> | ->]; [done |]. by rewrite orb_true_r.
Qed.

Lemma startWork_nonzero (env : Platform) (c : nat) (cl : FitClosure) (st : State) :
  fits (vars st) !! c = Some cl ->
  videoWidth env (c_el cl) <> 0%N -> videoHeight env (c_el cl) <> 0%N ->
  timers (loop (startWork env c st)) = timers (loop st) /\
  style_of (startWork env c st) (c_el cl)
  = doWork (c_style cl) (videoWidth env (c_el cl)) (videoHeight env (c_el cl))
      (clientWidth env (c_wrap cl)) (clientHeight env (c_wrap cl))
      (style_of st (c_el cl)).
Proof.
  intros Hc Hw Hh. unfold startWork. rewrite Hc.
  cbn [c_videoWidth c_videoHeight c_el c_wrap c_style].
  apply N.eqb_neq in Hw, Hh. rewrite Hw, Hh. cbn [orb].
  split.
  - by rewrite !timers_addEventListener.
  - unfold style_of. rewrite !doc_addEventListener. cbn.
    by rewrite lookup_total_insert_eq.
Qed.

(** C6. While the freshly read intrinsic width or height is zero, an
    invocation of [startWork] only records the values read and schedules
    itself again after 50: the document, every inline style and the
    listeners are as before.  This holds for any number of invocations in
    a row; the first invocation that reads two nonzero dimensions
    schedules nothing and sets the element's style to the result of
    [doWork]. *)
Theorem startWork_waits_for_dimensions (c : nat) (cl : FitClosure) (st : State) :
  fits (vars st) !! c = Some cl ->
  (forall env : Platform,
     videoWidth env (c_el cl) = 0%N \/ videoHeight env (c_el cl) = 0%N ->
     startWork env c st
     = setTimeout (startWork_fn c) 50
         (set_fit c (mkFit (c_el cl) (c_wrap cl) (c_style cl)
                           (videoWidth env (c_el cl)) (videoHeight env (c_el cl)))
            st)) /\
  (forall envs : list Platform,
     Forall (fun env => videoWidth env (c_el cl) = 0%N \/
                        videoHeight env (c_el cl) = 0%N) envs ->
     let st' := foldl (fun st env => startWork env c st) st envs in
     doc st' = doc st /\
     listeners (loop st') = listeners (loop st) /\
     timers (loop st')
       = timers (loop st) ++ replicate (length envs) (startWork_fn c, 50%N) /\
     forall env : Platform,
       videoWidth env (c_el cl) <> 0%N -> videoHeight env (c_el cl) <> 0%N ->
       timers (loop (startWork env c st')) = timers (loop st') /\
       style_of (startWork env c st') (c_el cl)
       = doWork (c_style cl)
           (videoWidth env (c_el cl)) (videoHeight env (c_el cl))
           (clientWidth env (c_wrap cl)) (clientHeight env (c_wrap cl))
           (style_of st (c_el cl))).
Proof.
  intros Hc. split; [intros env Hz; by apply startWork_zero |].
  intros envs Hall.
  revert st cl Hc Hall.
  induction envs as [| env envs IH]; intros st cl Hc Hall st'.
  - subst st'. cbn [foldl length replicate]. rewrite app_nil_r.
    split; [done |]. split; [done |]. split; [done |].
    intros env Hw Hh. by apply startWork_nonzero.
  - apply Forall_cons in Hall as [Hz Hall]. subst st'. cbn [foldl].
    rewrite (startWork_zero env c cl st Hc Hz).
    set (cl' := mkFit _ _ _ _ _). set (st1 := setTimeout _ _ _).
    assert (fits (vars st1) !! c = Some cl') as Hc'.
    { subst st1. cbn. apply list_lookup_insert_eq.
      by apply lookup_lt_Some in Hc. }
    destruct (IH st1 cl' Hc' Hall) as (Hdoc & Hls & Htm & Hnz).
    split; [by rewrite Hdoc |]. split; [by rewrite Hls |].
    split.
    + rewrite Htm. subst st1. cbn. by rewrite <- app_assoc.
    + exact Hnz.
Qed.

Lemma startWork_waits_for_dimensions_witness :
  timers (loop (startWork (example_platform 0 1080) 0 example_wrapped))
  = [(startWork_fn 0, 50%N); (startWork_fn 0, 50%N)].
Proof.
  rewrite (proj1 (startWork_waits_for_dimensions 0
                    (mkFit 1 5 {[ "object-fit" := "cover" ]} 0 0)
                    example_wrapped eq_refl)
             (example_platform 0 1080) (or_introl eq_refl)).
  vm_compute. reflexivity.
Defined.

(** The retry loop on the example page: the first timeout still reads
    0 x 0 and only schedules the next one; the second reads 1920 x 1080
    and sizes the video. *)
Example retry_scenario :
  let st1 := timerFires (example_platform 0 0) example_wrapped in
  let st2 := timerFires (example_platform 1920 1080) st1 in
  doc st1 = doc example_wrapped /\
  timers (loop st1) = [(startWork_fn 0, 50%N)] /\
  timers (loop st2) = [] /\
  style_of st2 1 !! "width" = Some (CssPx (num_of_Z 533)) /\
  style_of st2 1 !! "height" = Some (CssPx (num_of_Z 300)) /\
  style_of st2 1 !! "marginLeft" = Some (CssPx (num_of_Z (-67))).
Proof. vm_compute. repeat split; reflexivity. Qed.

(** *** [throttle] *)

Section Throttle.
Variables (t : nat) (obj : EventTarget) (type : string) (evt : Event).

Local Abbreviation l0 := (mkListener obj type (throttle_func t)).
Local Abbreviation inv b := (throttle_inv t l0 (mkThrottle obj evt b)).

Lemma inv_addEventListener b q d target ty h st :
  is_throttle_func h = false ->
  inv b q d st -> inv b q d (addEventListener target ty h st).
Proof.
  intros Hh (H1 & H2 & H3 & H4 & H5 & H6). unfold addEventListener.
  case_decide; [done |].
  split_and!; cbn; try done.
  - apply elem_of_app. by left.
  - intros l [Hl | ->%list_elem_of_singleton]%elem_of_app Ht; [by apply H5 |].
    cbn in Ht. congruence.
Qed.

Lemma inv_removeEventListener b q d target ty h st :
  is_throttle_func h = false ->
  inv b q d st -> inv b q d (removeEventListener target ty h st).
Proof.
  intros Hh (H1 & H2 & H3 & H4 & H5 & H6). unfold removeEventListener.
  split_and!; cbn; try done.
  - apply list_elem_of_filter. split; [| done].
    intros [= _ _ <-]. done.
  - intros l [_ Hl]%list_elem_of_filter. by apply H5.
Qed.

Lemma inv_startWork b q d env c st :
  inv b q d st -> inv b q d (startWork env c st).
Proof.
  intros Hinv. unfold startWork.
  destruct (fits (vars st) !! c) as [cl |]; [| done].
  destruct (_ || _).
  - destruct Hinv as (H1 & H2 & H3 & H4 & H5 & H6).
    split_and!; cbn; try done.
    apply Forall_app. split; [done |]. by apply Forall_singleton.
  - do 2 (apply inv_addEventListener; [done |]).
    destruct Hinv as (H1 & H2 & H3 & H4 & H5 & H6). by split_and!.
Qed.

Lemma inv_videoDimensionsMonitor b q d env c st :
  inv b q d st -> inv b q d (videoDimensionsMonitor env c st).
Proof.
  intros Hinv. unfold videoDimensionsMonitor.
  destruct (fits (vars st) !! c) as [cl |]; [| done].
  destruct (_ || _); [| done].
  destruct Hinv as (H1 & H2 & H3 & H4 & H5 & H6). by split_and!.
Qed.

Lemma inv_ended b q d c k st :
  inv b q d st -> inv b q d (ended c k st).
Proof.
  intros Hinv. unfold ended.
  destruct (fits (vars st) !! c) as [cl |]; [| done].
  by do 2 (apply inv_removeEventListener; [done |]).
Qed.

(** A callback that is not a [func] leaves the throttle alone. *)
Lemma inv_other_handler b q d env h st :
  is_throttle_func h = false ->
  inv b q d st -> inv b q d (runHandler env h st).
Proof.
  intros Hh Hinv. destruct h; cbn [runHandler]; [| | | done].
  - by apply inv_startWork.
  - by apply inv_videoDimensionsMonitor.
  - by apply inv_ended.
Qed.

(** [func]: the first occurrence marks the dispatch pending and requests
    one animation frame; while pending, occurrences are dropped. *)
Lemma inv_func b q d st :
  inv b q d st -> inv true (if b then q else q ++ [t]) d (func t st).
Proof.
  intros (H1 & H2 & H3 & H4 & H5 & H6). unfold func. rewrite H1.
  cbn [t_running]. destruct b; [by split_and! |].
  split_and!; cbn; try done.
  - rewrite list_lookup_alter_eq, H1. done.
  - by rewrite H2.
Qed.

Lemma inv_listener_step b q d env l st :
  l <> l0 ->
  inv b q d st ->
  inv b q d (if decide (l ∈ listeners (loop st))
             then runHandler env (l_handler l) st else st).
Proof.
  intros Hne Hinv. case_decide as Hin; [| done].
  apply inv_other_handler; [| done].
  destruct (is_throttle_func (l_handler l)) eqn:Ht; [| done].
  destruct Hinv as (_ & _ & _ & _ & H5 & _). by apply H5 in Ht.
Qed.

Lemma inv_listener_step_l0 b q d env st :
  inv b q d st ->
  inv true (if b then q else q ++ [t]) d
      (if decide (l0 ∈ listeners (loop st))
       then runHandler env (l_handler l0) st else st).
Proof.
  intros Hinv. pose proof Hinv as (_ & _ & _ & H4 & _).
  rewrite decide_True by done. by apply inv_func.
Qed.

Lemma inv_fold_pending q d env ls st :
  inv true q d st ->
  inv true q d
    (foldl (fun st l => if decide (l ∈ listeners (loop st))
                        then runHandler env (l_handler l) st else st) st ls).
Proof.
  revert st. induction ls as [| l ls IH]; intros st Hinv; [done |].
  cbn [foldl]. apply IH.
  destruct (decide (l = l0)) as [-> | Hne].
  - by apply (inv_listener_step_l0 true).
  - by apply inv_listener_step.
Qed.

Lemma inv_fold_source b q d env ls st :
  l0 ∈ ls ->
  inv b q d st ->
  inv true (if b then q else q ++ [t]) d
    (foldl (fun st l => if decide (l ∈ listeners (loop st))
                        then runHandler env (l_handler l) st else st) st ls).
Proof.
  revert st. induction ls as [| l ls IH]; intros st Hin Hinv.
  - by apply elem_of_nil in Hin.
  - cbn [foldl]. destruct (decide (l = l0)) as [-> | Hne].
    + by apply inv_fold_pending, inv_listener_step_l0.
    + apply IH; [| by apply inv_listener_step].
      apply elem_of_cons in Hin as [E | Hin]; [by symmetry in E | done].
Qed.

Lemma inv_fold_other b q d env ls st :
  l0 ∉ ls ->
  inv b q d st ->
  inv b q d
    (foldl (fun st l => if decide (l ∈ listeners (loop st))
                        then runHandler env (l_handler l) st else st) st ls).
Proof.
  revert st. induction ls as [| l ls IH]; intros st Hin Hinv; [done |].
  cbn [foldl]. apply not_elem_of_cons in Hin as [Hne Hin].
  apply IH; [done |]. by apply inv_listener_step.
Qed.

(** Delivering an event: a source event reaches [func], any other
    event leaves the throttle alone. *)
Lemma inv_fireEvent b q d env target ty st :
  inv b q d st ->
  let src := bool_decide (target = obj) && String.eqb ty type in
  inv (b || src) (if b then q else if src then q ++ [t] else q) d
      (fireEvent env target ty st).
Proof.
  intros Hinv src. unfold fireEvent, runListeners.
  pose proof Hinv as (_ & _ & _ & H4 & _).
  destruct src eqn:Hsrc; subst src.
  - apply andb_true_iff in Hsrc as [->%bool_decide_eq_true ->%String.eqb_eq].
    rewrite orb_true_r.
    apply inv_fold_source; [| done].
    apply list_elem_of_filter. by split.
  - rewrite orb_false_r.
    replace (if b then q else q) with q by (by destruct b).
    apply inv_fold_other; [| done].
    intros [[Ht Hty] _]%list_elem_of_filter. cbn in Ht, Hty. subst.
    rewrite bool_decide_eq_true_2, String.eqb_refl in Hsrc; done.
Qed.

Lemma inv_timerFires b q d env st :
  inv b q d st -> inv b q d (timerFires env st).
Proof.
  intros Hinv. unfold timerFires.
  destruct (timers (loop st)) as [| [h delay] rest] eqn:Htm; [done |].
  destruct Hinv as (H1 & H2 & H3 & H4 & H5 & H6).
  rewrite Htm in H6. apply Forall_cons in H6 as [Hh H6].
  apply inv_other_handler; [done |]. by split_and!.
Qed.

Lemma inv_run_steps steps b q d st :
  inv b q d st ->
  let any := existsb (is_source obj type) steps in
  inv (b || any) (if b then q else if any then q ++ [t] else q) d
      (run_steps steps st).
Proof.
  revert b q st. induction steps as [| s steps IH]; intros b q st Hinv.
  - cbn. rewrite orb_false_r. by destruct b.
  - cbn [run_steps foldl existsb]. fold (run_steps steps (run_step s st)).
    destruct s as [env target ty | env]; cbn [run_step is_source].
    + apply (inv_fireEvent _ _ _ env target ty) in Hinv. cbn zeta in Hinv.
      apply IH in Hinv. cbn zeta in Hinv.
      destruct b, (bool_decide (target = obj) && String.eqb ty type);
        cbn in *; done.
    + apply (inv_timerFires _ _ _ env), IH in Hinv. exact Hinv.
Qed.

(** The animation-frame callback dispatches the event once and clears
    the pending flag. *)
Lemma inv_animationFrame d env st :
  inv true [t] d st ->
  inv false [] (d ++ [(obj, evt)]) (animationFrame env st).
Proof.
  intros (H1 & H2 & H3 & H4 & H5 & H6). unfold animationFrame.
  rewrite H2. cbn [foldl]. unfold rafCallback.
  cbn [vars on_loop]. rewrite H1. cbn [t_obj t_evt].
  unfold dispatchEvent.
  set (st1 := on_loop _ (on_loop _ st)).
  assert (inv true [] (d ++ [(obj, evt)]) st1) as Hinv1.
  { subst st1. split_and!; cbn; try done. by rewrite H3. }
  pose proof (inv_fireEvent true [] _ env obj (ev_type evt) st1 Hinv1) as Hinv2.
  cbn in Hinv2. unfold fireEvent in Hinv2.
  destruct Hinv2 as (K1 & K2 & K3 & K4 & K5 & K6).
  split_and!; cbn; try done.
  by rewrite list_lookup_alter_eq, K1.
Qed.
End Throttle.

Lemma throttle_establishes (env0 : Platform) (type name : string)
    (obj : option EventTarget) (st0 : State) :
  no_throttle_callbacks st0 ->
  let t := length (throttles (vars st0)) in
  let evt := if hasCustomEvent env0 then mkEvent name false false
             else mkEvent name true true in
  throttle_inv t (mkListener (default Window obj) type (throttle_func t))
    (mkThrottle (default Window obj) evt false) [] (dispatched (loop st0))
    (throttle env0 type name obj st0).
Proof.
  intros (Hls & Htm & Hq) t evt. unfold throttle, addEventListener.
  cbn [loop vars on_vars].
  assert (forall l, l ∈ listeners (loop st0) ->
            is_throttle_func (l_handler l) = true -> False) as Hnone.
  { intros l Hl Ht. rewrite Forall_forall in Hls. apply Hls in Hl. congruence. }
  case_decide as Hin; [exfalso; by apply (Hnone _ Hin) |].
  split_and!; cbn; try done.
  - by apply list_lookup_middle.
  - apply elem_of_app. right. by apply list_elem_of_singleton.
  - intros l [Hl | ->%list_elem_of_singleton]%elem_of_app Ht; [| done].
    exfalso. by apply (Hnone l).
Qed.

Lemma source_among (obj : EventTarget) (type : string) (steps : list BrowserStep) :
  (1 <= length (filter (fun s => is_source obj type s = true) steps))%nat ->
  existsb (is_source obj type) steps = true.
Proof.
  intros H. destruct (filter _ steps) as [| s l] eqn:E; [cbn in H; lia |].
  assert (s ∈ filter (fun s => is_source obj type s = true) steps) as Hs
    by (rewrite E; apply elem_of_cons; by left).
  apply list_elem_of_filter in Hs as [Hsrc Hin].
  apply existsb_exists. exists s. split; [by apply list_elem_of_In | done].
Qed.

(** C8. Once [throttle] has been called, any run of browser steps between
    two animation frames that delivers the source event N >= 1 times
    leaves exactly one callback pending, with the flag set; the next
    animation frame dispatches the synthetic event exactly once and clears
    the flag. *)
Theorem throttle_coalesces_burst (env0 : Platform) (type name : string)
    (obj : option EventTarget) (st0 : State) (steps : list BrowserStep)
    (env : Platform) :
  no_throttle_callbacks st0 ->
  (1 <= length (filter (fun s => is_source (default Window obj) type s = true)
                       steps))%nat ->
  let t := length (throttles (vars st0)) in
  let pending := run_steps steps (throttle env0 type name obj st0) in
  let st' := animationFrame env pending in
  let evt := if hasCustomEvent env0 then mkEvent name false false
             else mkEvent name true true in
  (rafQueue (loop pending) = [t] /\
   dispatched (loop pending) = dispatched (loop st0) /\
   t_running <$> throttles (vars pending) !! t = Some true) /\
  ev_type evt = name /\
  dispatched (loop st')
    = dispatched (loop st0) ++ [(default Window obj, evt)] /\
  rafQueue (loop st') = [] /\
  t_running <$> throttles (vars st') !! t = Some false.
Proof.
  intros Hwf Hn t pending st' evt.
  pose proof (throttle_establishes env0 type name obj st0 Hwf) as Hinv.
  cbn zeta in Hinv. fold t evt in Hinv.
  apply (inv_run_steps _ _ _ _ steps) in Hinv. cbn zeta in Hinv.
  rewrite (source_among _ _ _ Hn) in Hinv. cbn [orb app] in Hinv.
  fold pending in Hinv.
  pose proof Hinv as (H1 & H2 & H3 & _).
  split; [split_and!; [done | done | by rewrite H1] |].
  apply (inv_animationFrame _ _ _ _ _ env) in Hinv. fold st' in Hinv.
  destruct Hinv as (K1 & K2 & K3 & _).
  split; [subst evt; by destruct (hasCustomEvent env0) |].
  split_and!; [exact K3 | exact K2 | by rewrite K1].
Qed.

Lemma throttle_coalesces_burst_witness :
  dispatched (loop (animationFrame (example_platform 1920 1080)
    (run_steps
       (replicate 100 (EventStep (example_platform 1920 1080) Window "resize"))
       (throttle (example_platform 0 0) "resize" "optimizedResize" None
          example_initialized))))
  = [(Window, mkEvent "optimizedResize" false false)].
Proof.
  refine (proj1 (proj2 (proj2 (throttle_coalesces_burst (example_platform 0 0)
            "resize" "optimizedResize" None example_initialized
            (replicate 100 (EventStep (example_platform 1920 1080) Window "resize"))
            (example_platform 1920 1080) _ _)))).
  - split; [| split]; vm_compute; repeat constructor.
  - vm_compute. lia.
Defined.

(** * Properties beyond the claims *)

(** ** More on the sizing arithmetic *)

Lemma doWork_twice (style : StyleProps) (vw vh ww wh : N) (css : InlineStyle) :
  doWork style vw vh ww wh (doWork style vw vh ww wh css)
  = doWork style vw vh ww wh css.
Proof.
  unfold doWork.
  repeat case_match; apply map_eq; intros k;
    rewrite !lookup_insert; repeat case_decide; congruence.
Qed.

Lemma doWork_other_keys (style : StyleProps) (vw vh ww wh : N)
    (css : InlineStyle) (key : string) :
  key <> "width" -> key <> "height" ->
  key <> "marginLeft" -> key <> "marginTop" ->
  doWork style vw vh ww wh css !! key = css !! key.
Proof.
  intros H1 H2 H3 H4. unfold doWork.
  repeat case_match; rewrite !lookup_insert_ne by done; reflexivity.
Qed.

(** X1. [doWork] assigns to [width], [height], [marginLeft] and
    [marginTop] of the inline style and to nothing else: every other
    property keeps its value, each of the four is set, to a value that
    does not depend on what the inline style held before, and running
    [doWork] a second time with the same sizes changes nothing. *)
Theorem doWork_footprint (style : StyleProps) (vw vh ww wh : N)
    (css css2 : InlineStyle) :
  (forall key, key ∉ ["width"; "height"; "marginLeft"; "marginTop"] ->
     doWork style vw vh ww wh css !! key = css !! key) /\
  (forall key, key ∈ ["width"; "height"; "marginLeft"; "marginTop"] ->
     is_Some (doWork style vw vh ww wh css !! key) /\
     doWork style vw vh ww wh css !! key
     = doWork style vw vh ww wh css2 !! key) /\
  doWork style vw vh ww wh (doWork style vw vh ww wh css)
  = doWork style vw vh ww wh css.
Proof.
  split_and!.
  - intros key Hk. apply doWork_other_keys; intros ->; apply Hk;
      rewrite !elem_of_cons; auto.
  - intros key Hk. rewrite !elem_of_cons in Hk.
    unfold doWork.
    destruct Hk as [-> | [-> | [-> | [-> | []%elem_of_nil]]]];
      repeat case_match; simplify_map_eq; eauto.
  - apply doWork_twice.
Qed.

(** *** Numbers of either sign *)

Lemma Qabs_neg_eq (x : Q) : (x < 0)%Q -> Qabs x = (- x)%Q.
Proof.
  destruct x as [a b]. unfold Qlt, Qabs, Qopp. simpl. intros H.
  f_equal. lia.
Qed.

Lemma dyadic_eq (r r' : Q) : (r == r')%Q -> dyadic r -> dyadic r'.
Proof.
  intros E (m & j & Er & H). exists m, j. split; [| exact H].
  by rewrite <- E.
Qed.

Lemma dyadic_quarters (k : Z) :
  (- 2 ^ 53 <= k <= 2 ^ 53)%Z -> dyadic (inject_Z k * (1 # 4)).
Proof.
  intros Hk. exists k, (-2)%Z. split; [| lia].
  assert (pow2 (-2) == 1 # 4)%Q as -> by reflexivity. reflexivity.
Qed.

Lemma dyadic_pow2 (j : Z) : (-1074 <= j)%Z -> dyadic (pow2 j) /\ dyadic (- pow2 j).
Proof.
  intros Hj. split; [exists 1%Z, j | exists (-1)%Z, j]; (split; [| lia]).
  - change (inject_Z 1) with 1%Q. ring.
  - change (inject_Z (-1)) with (-1 # 1)%Q. ring.
Qed.

(** Rounding never crosses a double. *)
Lemma round64_mono (x r : Q) :
  dyadic r ->
  ((x <= r)%Q -> (round64 x <= r)%Q) /\ ((r <= x)%Q -> (r <= round64 x)%Q).
Proof.
  intros (m & j & Er & Hm & Hj). unfold round64.
  set (e := Z.max (ilog2 (Qabs x)) (-1022)).
  pose proof (pow2_pos (e - 52)) as Hulp.
  set (ulp := pow2 (e - 52)) in *.
  assert (x / ulp * ulp == x)%Q as Ey by (field; lra).
  set (y := (x / ulp)%Q) in *.
  destruct (Z_le_gt_dec (e - 52) j) as [Hc | Hc].
  - assert (r == inject_Z (m * 2 ^ (j - (e - 52))) * ulp)%Q as Er'.
    { rewrite Er, inject_Z_mult, pow2_inject by lia.
      rewrite <- Qmult_assoc. unfold ulp. rewrite <- pow2_add.
      by replace (j - (e - 52) + (e - 52))%Z with j by lia. }
    set (K := (m * 2 ^ (j - (e - 52)))%Z) in *.
    split; intros H.
    + assert (rne y <= K)%Z as HMK.
      { apply rne_le. unfold y. apply Qle_shift_div_r; [exact Hulp |].
        by rewrite <- Er'. }
      rewrite Er'. apply Qmult_le_compat_r; [| lra].
      by rewrite <- Zle_Qle.
    + assert (K <= rne y)%Z as HMK.
      { apply rne_ge. unfold y. apply Qle_shift_div_l; [exact Hulp |].
        by rewrite <- Er'. }
      rewrite Er'. apply Qmult_le_compat_r; [| lra].
      by rewrite <- Zle_Qle.
  - assert (e = ilog2 (Qabs x)) as Ee by lia.
    assert (inject_Z (2 ^ 52) * ulp == pow2 e)%Q as E52.
    { rewrite pow2_inject by lia. unfold ulp. rewrite <- pow2_add.
      by replace (52 + (e - 52))%Z with e by lia. }
    assert (pow2 53 * pow2 j <= pow2 e)%Q as Hpj
      by (rewrite <- pow2_add; apply pow2_le; lia).
    pose proof (pow2_pos j) as Hj0.
    assert (- pow2 e <= r)%Q as Hr1.
    { rewrite Er. apply Qle_trans with (- pow2 53 * pow2 j)%Q; [lra |].
      apply Qmult_le_compat_r; [| lra].
      rewrite <- pow2_inject by lia.
      assert (- inject_Z (2 ^ 53) == inject_Z (- 2 ^ 53))%Q as ->
        by (rewrite inject_Z_opp; reflexivity).
      rewrite <- Zle_Qle. lia. }
    assert (r <= pow2 e)%Q as Hr2.
    { rewrite Er. apply Qle_trans with (pow2 53 * pow2 j)%Q; [| lra].
      apply Qmult_le_compat_r; [| lra].
      rewrite <- pow2_inject by lia. rewrite <- Zle_Qle. lia. }
    assert (inject_Z (- 2 ^ 52) * ulp == - pow2 e)%Q as E52n
      by (rewrite inject_Z_opp, <- E52; ring).
    destruct (Q_dec x 0) as [[Hx | Hx] | Hx].
    + (* negative *)
      rewrite (Qabs_neg_eq x Hx) in Ee.
      destruct (ilog2_spec (- x) ltac:(lra)) as [He1 _]. rewrite <- Ee in He1.
      assert (rne y <= - 2 ^ 52)%Z as HM.
      { apply rne_le. unfold y. apply Qle_shift_div_r; [exact Hulp |].
        rewrite E52n. lra. }
      assert (inject_Z (rne y) * ulp <= - pow2 e)%Q as Hv.
      { rewrite <- E52n. apply Qmult_le_compat_r; [| lra].
        by rewrite <- Zle_Qle. }
      split; intros H; [lra |].
      assert (- 2 ^ 52 <= rne y)%Z as HM'.
      { apply rne_ge. unfold y. apply Qle_shift_div_l; [exact Hulp |].
        rewrite E52n. lra. }
      apply Qle_trans with (- pow2 e)%Q; [lra |].
      rewrite <- E52n. apply Qmult_le_compat_r; [| lra].
      by rewrite <- Zle_Qle.
    + (* positive *)
      rewrite (Qabs_pos_eq x Hx) in Ee.
      destruct (ilog2_spec x Hx) as [He1 _]. rewrite <- Ee in He1.
      assert (2 ^ 52 <= rne y)%Z as HM.
      { apply rne_ge. unfold y. apply Qle_shift_div_l; [exact Hulp |].
        rewrite E52. lra. }
      assert (pow2 e <= inject_Z (rne y) * ulp)%Q as Hv.
      { rewrite <- E52. apply Qmult_le_compat_r; [| lra].
        by rewrite <- Zle_Qle. }
      split; intros H; [| lra].
      assert (rne y <= 2 ^ 52)%Z as HM'.
      { apply rne_le. unfold y. apply Qle_shift_div_r; [exact Hulp |].
        rewrite E52. lra. }
      apply Qle_trans with (pow2 e)%Q; [| lra].
      rewrite <- E52. apply Qmult_le_compat_r; [| lra].
      by rewrite <- Zle_Qle.
    + (* zero *)
      assert (y == 0)%Q as Ey0 by (unfold y; rewrite Hx; field; lra).
      rewrite (rne_comp y 0 Ey0). change (rne 0) with 0%Z. rewrite Hx.
      change (inject_Z 0) with 0%Q.
      split; intros H; lra.
Qed.

(** An operation whose exact result is within the range of the doubles
    returns a finite number, on the same side of every double as the exact
    result. *)
Lemma fl_finite (x : Q) :
  (- pow2 1023 <= x)%Q -> (x <= pow2 1023)%Q ->
  exists v : Q,
    fl x = JFin v /\
    forall r : Q, dyadic r ->
      ((x <= r)%Q -> (v <= r)%Q) /\ ((r <= x)%Q -> (r <= v)%Q).
Proof.
  intros Hlo Hhi. unfold fl.
  pose proof (Qred_correct x) as Ex.
  pose proof (Qred_correct (round64 (Qred x))) as Ev.
  set (v := Qred (round64 (Qred x))) in *.
  assert (forall r : Q, dyadic r ->
            ((x <= r)%Q -> (v <= r)%Q) /\ ((r <= x)%Q -> (r <= v)%Q)) as HM.
  { intros r Hr. destruct (round64_mono (Qred x) r Hr) as [A B].
    split; intros H; rewrite Ev; [apply A | apply B]; by rewrite Ex. }
  exists v. split; [| exact HM].
  destruct (dyadic_pow2 1023 ltac:(lia)) as [Hd1 Hd2].
  apply (HM _ Hd1) in Hhi. apply (HM _ Hd2) in Hlo.
  destruct (Qle_bool (pow2 1024) (Qabs v)) eqn:Hov; [| reflexivity].
  apply Qle_bool_iff in Hov.
  pose proof (pow2_lt 1023 1024 ltac:(lia)).
  revert Hov. apply Qabs_case; intros; lra.
Qed.

(** *** The result depends on the ratio only *)

Lemma videoRatio_scaled (k vw vh : N) :
  (0 < k)%N ->
  jdiv (num_of_N (k * vw)) (num_of_N (k * vh))
  = jdiv (num_of_N vw) (num_of_N vh).
Proof.
  intros Hk. unfold num_of_N, num_of_Z, jdiv, Qzerob, Qnegb. cbn [Qnum inject_Z].
  destruct (N.eq_dec vh 0%N) as [-> | Hvh].
  - rewrite N.mul_0_r. cbn [Z.of_N Z.eqb].
    destruct (N.eq_dec vw 0%N) as [-> | Hvw].
    + by rewrite N.mul_0_r.
    + assert ((Z.of_N (k * vw) =? 0)%Z = false) as -> by (apply Z.eqb_neq; lia).
      assert ((Z.of_N vw =? 0)%Z = false) as -> by (apply Z.eqb_neq; lia).
      assert ((Z.of_N (k * vw) <? 0)%Z = false) as -> by (apply Z.ltb_ge; lia).
      assert ((Z.of_N vw <? 0)%Z = false) as -> by (apply Z.ltb_ge; lia).
      reflexivity.
  - assert ((Z.of_N (k * vh) =? 0)%Z = false) as -> by (apply Z.eqb_neq; lia).
    assert ((Z.of_N vh =? 0)%Z = false) as -> by (apply Z.eqb_neq; lia).
    apply fl_comp. rewrite !N2Z.inj_mul, !inject_Z_mult.
    assert (0 < inject_Z (Z.of_N k))%Q
      by (change 0%Q with (inject_Z 0); rewrite <- Zlt_Qlt; lia).
    assert (0 < inject_Z (Z.of_N vh))%Q
      by (change 0%Q with (inject_Z 0); rewrite <- Zlt_Qlt; lia).
    field. lra.
Qed.

(** X2. [doWork] depends on the intrinsic size only through its ratio:
    multiplying the intrinsic width and height by the same positive factor
    gives the same quotient, hence the same double and the same inline
    style. *)
Theorem doWork_scale_invariant (style : StyleProps) (k vw vh ww wh : N)
    (css : InlineStyle) :
  (0 < k)%N ->
  doWork style (k * vw) (k * vh) ww wh css = doWork style vw vh ww wh css.
Proof.
  intros Hk. unfold doWork. by rewrite (videoRatio_scaled k vw vh Hk).
Qed.

Lemma doWork_scale_invariant_witness :
  doWork {[ "object-fit" := "cover" ]} (3 * 640) (3 * 360) 400 300 ∅
  = doWork {[ "object-fit" := "cover" ]} 640 360 400 300 ∅.
Proof.
  apply doWork_scale_invariant. reflexivity.
Defined.

(** *** Whole numbers only *)

Lemma wide_range (x : Q) :
  (- 1180591620717411303424 <= x)%Q -> (x <= 1180591620717411303424)%Q ->
  (- pow2 1023 <= x)%Q /\ (x <= pow2 1023)%Q.
Proof.
  intros H1 H2.
  pose proof (pow2_lt 70 1023 ltac:(lia)) as Hhi.
  assert (pow2 70 == 1180591620717411303424)%Q as E2 by reflexivity.
  rewrite E2 in Hhi. split; lra.
Qed.

(** A subtraction, and its half, of numbers of moderate size. *)
Lemma jsub_finite (p q : Q) :
  (- 1180591620717411303424 <= p - q)%Q ->
  (p - q <= 1180591620717411303424)%Q ->
  exists s : Q,
    jsub (JFin p) (JFin q) = JFin s /\
    forall r : Q, dyadic r ->
      ((p - q <= r)%Q -> (s <= r)%Q) /\ ((r <= p - q)%Q -> (r <= s)%Q).
Proof.
  intros H1 H2. cbn [jsub].
  destruct (wide_range _ H1 H2) as [Hlo Hhi].
  exact (fl_finite _ Hlo Hhi).
Qed.

Lemma halve_finite (s : Q) :
  (- 1180591620717411303424 <= s)%Q -> (s <= 1180591620717411303424)%Q ->
  exists h : Q,
    jdiv (JFin s) (num_of_Z 2) = JFin h /\
    forall r : Q, dyadic r ->
      ((s / 2 <= r)%Q -> (h <= r)%Q) /\ ((r <= s / 2)%Q -> (r <= h)%Q).
Proof.
  intros H1 H2. unfold num_of_Z. cbn [jdiv].
  change (Qzerob (inject_Z 2)) with false. cbn iota.
  change (inject_Z 2) with 2%Q.
  assert (- 1180591620717411303424 <= s / 2)%Q as H3
    by (apply Qle_shift_div_l; lra).
  assert (s / 2 <= 1180591620717411303424)%Q as H4
    by (apply Qle_shift_div_r; lra).
  destruct (wide_range _ H3 H4) as [Hlo Hhi].
  exact (fl_finite _ Hlo Hhi).
Qed.

Lemma dyadic_2_70 :
  dyadic 1180591620717411303424 /\ dyadic (- 1180591620717411303424).
Proof.
  destruct (dyadic_pow2 70 ltac:(lia)) as [H1 H2].
  split; [apply (dyadic_eq (pow2 70)) | apply (dyadic_eq (- pow2 70))];
    try assumption; reflexivity.
Qed.

(** The margin of a value [q] computed by [doWork] against a size [c]:
    the difference and its half are finite. *)
Lemma margin_finite (c : N) (q : Q) :
  (c < 2 ^ 32)%N -> (0 <= q)%Q -> (q <= 36893488147419103232)%Q ->
  exists s h : Q,
    jsub (num_of_N c) (JFin q) = JFin s /\
    jdiv (JFin s) (num_of_Z 2) = JFin h /\
    (forall r : Q, dyadic r ->
       ((inject_Z (Z.of_N c) - q <= r)%Q -> (s <= r)%Q) /\
       ((r <= inject_Z (Z.of_N c) - q)%Q -> (r <= s)%Q)) /\
    (forall r : Q, dyadic r ->
       ((s / 2 <= r)%Q -> (h <= r)%Q) /\ ((r <= s / 2)%Q -> (r <= h)%Q)).
Proof.
  intros Hc Hq1 Hq2. unfold num_of_N, num_of_Z.
  assert (0 <= inject_Z (Z.of_N c))%Q as HC1
    by (change 0%Q with (inject_Z 0); rewrite <- Zle_Qle; lia).
  assert (inject_Z (Z.of_N c) <= 4294967295)%Q as HC2
    by (change 4294967295%Q with (inject_Z 4294967295);
        rewrite <- Zle_Qle; lia).
  set (C := inject_Z (Z.of_N c)) in *.
  destruct (jsub_finite C q ltac:(lra) ltac:(lra)) as (s & Es & Hs).
  destruct dyadic_2_70 as [Hd1 Hd2].
  assert (s <= 1180591620717411303424)%Q by (apply (Hs _ Hd1); lra).
  assert (- 1180591620717411303424 <= s)%Q by (apply (Hs _ Hd2); lra).
  destruct (halve_finite s ltac:(lra) ltac:(lra)) as (h & Eh & Hh).
  exists s, h. done.
Qed.

Lemma doWork_first_arm_marginLeft (style : StyleProps) (vw vh ww wh : N)
    (css : InlineStyle) :
  first_arm style vw vh ww wh = true ->
  doWork style vw vh ww wh css !! "marginLeft"
  = Some (if prop_is style "object-position-x" "left" then CssNum 0
          else if prop_is style "object-position-x" "right" then
            CssPx (mathRound (jsub (num_of_N ww)
                     (jmul (num_of_N wh) (jdiv (num_of_N vw) (num_of_N vh)))))
          else
            CssPx (mathRound (jdiv (jsub (num_of_N ww)
                     (jmul (num_of_N wh) (jdiv (num_of_N vw) (num_of_N vh))))
                     (num_of_Z 2)))).
Proof.
  unfold first_arm. intros Hc. unfold doWork. rewrite Hc.
  repeat case_match; by rewrite lookup_insert_eq.
Qed.

Lemma doWork_second_arm_marginTop (style : StyleProps) (vw vh ww wh : N)
    (css : InlineStyle) :
  first_arm style vw vh ww wh = false ->
  doWork style vw vh ww wh css !! "marginTop"
  = Some (if prop_is style "object-position-y" "top" then CssNum 0
          else if prop_is style "object-position-y" "bottom" then
            CssPx (mathRound (jsub (num_of_N wh)
                     (jdiv (num_of_N ww) (jdiv (num_of_N vw) (num_of_N vh)))))
          else
            CssPx (mathRound (jdiv (jsub (num_of_N wh)
                     (jdiv (num_of_N ww) (jdiv (num_of_N vw) (num_of_N vh))))
                     (num_of_Z 2)))).
Proof.
  unfold first_arm. intros Hc. unfold doWork. rewrite Hc.
  repeat case_match; by rewrite lookup_insert_eq.
Qed.



(** *** Equal ratios *)

Lemma round_is (x : Q) (n : Z) :
  (inject_Z n - (1 # 4) <= x)%Q -> (x <= inject_Z n + (1 # 4))%Q ->
  mathRound (JFin x) = num_of_Z n.
Proof.
  intros H1 H2. cbn [mathRound]. f_equal.
  apply Z.le_antisymm; [by apply round_le_quarter |].
  apply round_ge_half. lra.
Qed.

Lemma dyadic_quarter : dyadic (1 # 4) /\ dyadic (- (1 # 4)).
Proof.
  split; [apply (dyadic_eq (inject_Z 1 * (1 # 4)))
         | apply (dyadic_eq (inject_Z (-1) * (1 # 4)))];
    try reflexivity; apply dyadic_quarters; lia.
Qed.

(** X4. When the video and the wrapper have the same aspect ratio
    ([vw * wh = ww * vh], sizes that the DOM can report), [doWork] gives
    the video exactly the wrapper's box and zero margins, whatever the fit
    and the position: the rounding errors of the quotient and of the
    product stay well below half a pixel. *)
Theorem doWork_equal_ratios (style : StyleProps) (vw vh ww wh : N)
    (css : InlineStyle) :
  (0 < vw)%N -> (0 < vh)%N -> (0 < ww)%N -> (0 < wh)%N ->
  (vw < 2 ^ 32)%N -> (vh < 2 ^ 32)%N -> (ww < 2 ^ 32)%N -> (wh < 2 ^ 32)%N ->
  (vw * wh = ww * vh)%N ->
  let css' := doWork style vw vh ww wh css in
  css' !! "width" = Some (CssPx (num_of_N ww)) /\
  css' !! "height" = Some (CssPx (num_of_N wh)) /\
  (css' !! "marginLeft" = Some (CssNum 0) \/
   css' !! "marginLeft" = Some (CssPx (num_of_Z 0))) /\
  (css' !! "marginTop" = Some (CssNum 0) \/
   css' !! "marginTop" = Some (CssPx (num_of_Z 0))).
Proof.
  intros Hvw Hvh Hww Hwh Hvw' Hvh' Hww' Hwh' Heq css'. subst css'.
  destruct (newHeight_spec vw vh ww wh)
    as (v & w & nh & Ev & Ew & En & Hn0 & Hn1 & Hn2 & Hn3); try assumption.
  destruct (newWidth_spec vw vh ww wh)
    as (v' & w' & ht & Ev' & Ew' & Et & Ht0 & Ht1 & Ht2 & Ht3); try assumption.
  rewrite Ev in Ev'. injection Ev' as <-.
  rewrite Ew in Ew'. injection Ew' as <-.
  assert (jdiv (num_of_N vw) (num_of_N vh) = jdiv (num_of_N ww) (num_of_N wh))
    as Esame.
  { unfold num_of_N, num_of_Z, jdiv.
    destruct (size_bounds vh Hvh Hvh') as [Hb _].
    destruct (size_bounds wh Hwh Hwh') as [Hd _].
    rewrite !Qzerob_pos by lra. apply fl_comp.
    assert (inject_Z (Z.of_N vw) * inject_Z (Z.of_N wh)
            == inject_Z (Z.of_N ww) * inject_Z (Z.of_N vh))%Q as E.
    { rewrite <- !inject_Z_mult, <- !N2Z.inj_mul. by rewrite Heq. }
    set (a := inject_Z (Z.of_N vw)) in *. set (b := inject_Z (Z.of_N vh)) in *.
    set (c := inject_Z (Z.of_N ww)) in *. set (d := inject_Z (Z.of_N wh)) in *.
    assert (a / b == a * d / (b * d))%Q as -> by (field; split; lra).
    rewrite E. field. split; lra. }
  rewrite Ev, Ew in Esame. injection Esame as <-.
  specialize (Hn2 (Qle_refl _)). specialize (Hn3 (Qle_refl _)).
  specialize (Ht2 (Qle_refl _)). specialize (Ht3 (Qle_refl _)).
  destruct (margin_finite ww nh Hww' Hn0 Hn1) as (s1 & h1 & Es1 & Eh1 & Hs1 & Hh1).
  destruct (margin_finite wh ht Hwh' Ht0 Ht1) as (s2 & h2 & Es2 & Eh2 & Hs2 & Hh2).
  destruct dyadic_quarter as [Hq1 Hq2].
  assert (- (1 # 4) <= s1 <= 1 # 4)%Q as Hs1b
    by (split; [apply (Hs1 _ Hq2) | apply (Hs1 _ Hq1)]; lra).
  assert (- (1 # 4) <= s2 <= 1 # 4)%Q as Hs2b
    by (split; [apply (Hs2 _ Hq2) | apply (Hs2 _ Hq1)]; lra).
  assert (- (1 # 4) <= h1 <= 1 # 4)%Q as Hh1b.
  { split; [apply (Hh1 _ Hq2) | apply (Hh1 _ Hq1)].
    - apply Qle_shift_div_l; lra.
    - apply Qle_shift_div_r; lra. }
  assert (- (1 # 4) <= h2 <= 1 # 4)%Q as Hh2b.
  { split; [apply (Hh2 _ Hq2) | apply (Hh2 _ Hq1)].
    - apply Qle_shift_div_l; lra.
    - apply Qle_shift_div_r; lra. }
  destruct (first_arm style vw vh ww wh) eqn:Hc.
  - destruct (doWork_height_arm style vw vh ww wh css Hc) as (E1 & E2 & E3).
    pose proof (doWork_first_arm_marginLeft style vw vh ww wh css Hc) as E4.
    rewrite Ev, En in E1. rewrite Ev, En, Es1, Eh1 in E4.
    rewrite (round_is nh (Z.of_N ww)) in E1 by lra.
    rewrite (round_is s1 0), (round_is h1 0) in E4
      by (change (inject_Z 0) with 0%Q; lra).
    split; [exact E1 |]. split; [exact E2 |]. split; [| by left].
    rewrite E4. repeat case_match; auto.
  - destruct (doWork_width_arm style vw vh ww wh css Hc) as (E1 & E2 & E3).
    pose proof (doWork_second_arm_marginTop style vw vh ww wh css Hc) as E4.
    rewrite Ev, Et in E2. rewrite Ev, Et, Es2, Eh2 in E4.
    rewrite (round_is ht (Z.of_N wh)) in E2 by lra.
    rewrite (round_is s2 0), (round_is h2 0) in E4
      by (change (inject_Z 0) with 0%Q; lra).
    split; [exact E1 |]. split; [exact E2 |]. split; [by left |].
    rewrite E4. repeat case_match; auto.
Qed.

Lemma doWork_equal_ratios_witness :
  doWork {[ "object-fit" := "contain" ]} 800 600 400 300 ∅ !! "height"
  = Some (CssPx (num_of_N 300)).
Proof.
  refine (proj1 (proj2 (doWork_equal_ratios {[ "object-fit" := "contain" ]}
            800 600 400 300 ∅ _ _ _ _ _ _ _ _ _))); reflexivity.
Defined.

(** ** More on [getStyle] *)

Lemma rmatch_lit_app {X : Type} (w s : string) (caps : Captures)
    (k : string -> Captures -> option X) :
  w <> "" -> rmatch (lit w) (w ++ s)%string caps k = k s caps.
Proof.
  induction w as [| c w IH]; intros Hne; [done |].
  destruct w as [| c2 w].
  - change (String c "" ++ s)%string with (String c s).
    cbn [lit rmatch]. by rewrite Ascii.eqb_refl.
  - change (String c (String c2 w) ++ s)%string
      with (String c (String c2 w ++ s)%string).
    cbn [lit rmatch]. fold (lit (String c2 w)). rewrite Ascii.eqb_refl.
    by apply IH.
Qed.

Lemma star_stop {X : Type} (p : ascii -> bool) (fuel : nat) (s : string)
    (caps : Captures) (k : string -> Captures -> option X) :
  match s with String c _ => p c = false | EmptyString => True end ->
  star_loop (rmatch (RClass p)) fuel s caps k = k s caps.
Proof.
  intros H. destruct fuel as [| fuel]; [done |]. cbn [star_loop rmatch].
  destruct s as [| c s]; [done |]. by rewrite H.
Qed.

Lemma star_run {X : Type} (p : ascii -> bool) (v rest : string)
    (caps : Captures) (k : string -> Captures -> option X) (x : X) :
  string_forall p v = true ->
  k rest caps = Some x ->
  match rest with String c _ => p c = false | EmptyString => True end ->
  forall fuel, (String.length v <= fuel)%nat ->
    star_loop (rmatch (RClass p)) fuel (v ++ rest)%string caps k = Some x.
Proof.
  intros Hv Hk Hrest. induction v as [| c v IH]; intros fuel Hfuel.
  - change ("" ++ rest)%string with rest. by rewrite star_stop.
  - cbn [string_forall] in Hv. apply andb_true_iff in Hv as [Hc Hv].
    cbn [String.length] in Hfuel. destruct fuel as [| fuel]; [lia |].
    change (String c v ++ rest)%string with (String c (v ++ rest)%string).
    cbn [star_loop rmatch]. rewrite Hc. cbn [String.length].
    rewrite (proj2 (Nat.ltb_lt _ _)) by lia.
    rewrite IH; [done | done | lia].
Qed.

Lemma rmatch_star_stop {X : Type} (p : ascii -> bool) (s : string)
    (caps : Captures) (k : string -> Captures -> option X) :
  match s with String c _ => p c = false | EmptyString => True end ->
  rmatch (RStar (RClass p)) s caps k = k s caps.
Proof. intros H. cbn [rmatch]. by apply star_stop. Qed.

Lemma rmatch_star_run {X : Type} (p : ascii -> bool) (v rest : string)
    (caps : Captures) (k : string -> Captures -> option X) (x : X) :
  string_forall p v = true ->
  k rest caps = Some x ->
  match rest with String c _ => p c = false | EmptyString => True end ->
  rmatch (RStar (RClass p)) (v ++ rest)%string caps k = Some x.
Proof.
  intros Hv Hk Hrest. cbn [rmatch]. apply star_run; try done.
  rewrite length_app_string. lia.
Qed.

Lemma rmatch_seq {X : Type} (r1 r2 : regex) (s : string) (caps : Captures)
    (k : string -> Captures -> option X) :
  rmatch (RSeq r1 r2) s caps k
  = rmatch r1 s caps (fun s1 caps1 => rmatch r2 s1 caps1 k).
Proof. reflexivity. Qed.

Lemma rmatch_group {X : Type} (i : nat) (r : regex) (s : string)
    (caps : Captures) (k : string -> Captures -> option X) :
  rmatch (RGroup i r) s caps k
  = rmatch r s caps (fun s1 caps1 => k s1 (<[i := consumed s s1]> caps1)).
Proof. reflexivity. Qed.

Lemma rmatch_class {X : Type} (p : ascii -> bool) (c : ascii) (s : string)
    (caps : Captures) (k : string -> Captures -> option X) :
  p c = true -> rmatch (RClass p) (String c s) caps k = k s caps.
Proof. intros H. cbn [rmatch]. by rewrite H. Qed.

Lemma rmatch_char {X : Type} (c : ascii) (s : string)
    (caps : Captures) (k : string -> Captures -> option X) :
  rmatch (RLit c) (String c s) caps k = k s caps.
Proof. cbn [rmatch]. by rewrite Ascii.eqb_refl. Qed.

Lemma alt_key {X : Type} (key s : string) (caps : Captures)
    (k : string -> Captures -> option X) (x : X) :
  key = "object-fit" \/ key = "object-position" ->
  k s caps = Some x ->
  rmatch (RAlt (lit "object-fit") (lit "object-position"))
         (key ++ s)%string caps k = Some x.
Proof.
  intros [-> | ->] Hk; cbn [rmatch].
  - by rewrite rmatch_lit_app, Hk.
  - destruct (rmatch (lit "object-fit") _ caps k) as [y |] eqn:E.
    + apply rmatch_lit in E as (s' & E & _); [| done].
      cbv [String.append] in E. discriminate.
    + by rewrite rmatch_lit_app, Hk.
Qed.

Lemma valid_value_inv (v : string) :
  valid_value v = true ->
  exists c v', v = String c v' /\ is_space c = false /\
               is_value_char c = true /\ string_forall is_value_char v' = true.
Proof.
  destruct v as [| c v']; [done |]. cbn [valid_value string_forall].
  intros [Hs [Hc Hv]%andb_true_iff]%andb_true_iff.
  exists c, v'. by apply negb_true_iff in Hs.
Qed.

(** One declaration of the convention is matched whole. *)
Lemma match_declaration (key value rest : string) :
  key = "object-fit" \/ key = "object-position" ->
  valid_value value = true ->
  rmatch propRegex (key ++ ": " ++ value ++ String ";" rest)%string ∅
         (fun s' caps' => Some (caps', s'))
  = Some (<[2%nat := value]> (<[1%nat := key]> ∅), String ";" rest).
Proof.
  intros Hkey (c & v' & -> & Hsp & Hvc & Hv')%valid_value_inv.
  unfold propRegex. rewrite rmatch_seq, rmatch_group.
  apply alt_key; [done |]. cbv beta.
  rewrite consumed_app.
  change (": " ++ String c v' ++ String ";" rest)%string
    with (String ":" (" " ++ String c (v' ++ String ";" rest))%string).
  rewrite rmatch_seq, rmatch_star_stop by done.
  rewrite rmatch_seq, rmatch_char, rmatch_seq.
  apply rmatch_star_run; [done | | done].
  rewrite rmatch_group, rmatch_seq, rmatch_class by done.
  apply rmatch_star_run; [done | | done].
  change (String c (v' ++ String ";" rest)%string)
    with (String c v' ++ String ";" rest)%string.
  by rewrite consumed_app.
Qed.

Lemma rmatch_not_o {X : Type} (c : ascii) (s : string) (caps : Captures)
    (k : string -> Captures -> option X) :
  Ascii.eqb c "o" = false -> rmatch propRegex (String c s) caps k = None.
Proof.
  intros H. rewrite Ascii.eqb_sym in H.
  unfold propRegex. cbn [rmatch lit]. by rewrite H.
Qed.

Lemma regexExec_unfold (r : regex) (s : string) :
  regexExec r s
  = match rmatch r s ∅ (fun s' caps => Some (caps, s')) with
    | Some m => Some m
    | None => match s with
              | EmptyString => None
              | String _ s' => regexExec r s'
              end
    end.
Proof. by destruct s. Qed.

Lemma regexExec_skip (pre s : string) :
  o_free pre = true ->
  regexExec propRegex (pre ++ s)%string = regexExec propRegex s.
Proof.
  induction pre as [| c pre IH]; [done |].
  cbn [o_free string_forall]. intros [Hc Hpre]%andb_true_iff.
  apply negb_true_iff in Hc.
  change (String c pre ++ s)%string with (String c (pre ++ s)%string).
  rewrite regexExec_unfold, rmatch_not_o by done. by apply IH.
Qed.

Lemma regexExec_o_free (s : string) :
  o_free s = true -> regexExec propRegex s = None.
Proof.
  induction s as [| c s IH]; [done |].
  cbn [o_free string_forall]. intros [Hc Hs]%andb_true_iff.
  apply negb_true_iff in Hc.
  rewrite regexExec_unfold, rmatch_not_o by done. by apply IH.
Qed.

Lemma o_free_app (a b : string) :
  o_free a = true -> o_free b = true -> o_free (a ++ b)%string = true.
Proof.
  unfold o_free. intros Ha Hb. induction a as [| c a IH]; [done |].
  change (String c a ++ b)%string with (String c (a ++ b)%string).
  cbn [string_forall] in *. apply andb_true_iff in Ha as [Hc Ha].
  rewrite Hc. by apply IH.
Qed.

Lemma string_app_assoc (a b c : string) :
  ((a ++ b) ++ c)%string = (a ++ b ++ c)%string.
Proof.
  induction a as [| x a IH]; [done |].
  change (String x ((a ++ b) ++ c)%string = String x (a ++ b ++ c)%string).
  by rewrite IH.
Qed.

Lemma exec_declaration (pre key value rest : string) :
  o_free pre = true ->
  key = "object-fit" \/ key = "object-position" ->
  valid_value value = true ->
  regexExec propRegex (pre ++ key ++ ": " ++ value ++ String ";" rest)%string
  = Some (<[2%nat := value]> (<[1%nat := key]> ∅), String ";" rest).
Proof.
  intros Hpre Hkey Hv. rewrite regexExec_skip by done.
  by rewrite regexExec_unfold, match_declaration.
Qed.

Lemma getStyle_loop_declarations (ds : list (string * string)) :
  Forall (fun d => (fst d = "object-fit" \/ fst d = "object-position") /\
                   valid_value (snd d) = true) ds ->
  forall (pre post : string) (props : StyleProps) (fuel : nat),
    o_free pre = true -> o_free post = true ->
    (String.length (pre ++ declarations ds ++ post) <= fuel)%nat ->
    getStyle_loop fuel (pre ++ declarations ds ++ post)%string props
    = assign_all ds props.
Proof.
  induction 1 as [| [key value] ds [Hkey Hv] Hds IH];
    intros pre post props fuel Hpre Hpost Hfuel.
  - cbn [declarations fold_right assign_all foldl].
    destruct fuel as [| fuel]; [done |]. cbn [getStyle_loop].
    rewrite regexExec_o_free; [done |]. by apply o_free_app.
  - cbn [fst snd] in *. cbn [declarations fold_right] in *.
    fold (declarations ds) in *. unfold declaration in *. cbn [fst snd] in *.
    assert ((pre ++ ((key ++ ": " ++ value ++ "; ") ++ declarations ds) ++ post)
            = (pre ++ key ++ ": " ++ value
                 ++ String ";" (" " ++ declarations ds ++ post)))%string
      as E.
    { rewrite !string_app_assoc. done. }
    rewrite E in *.
    destruct fuel as [| fuel].
    { rewrite !length_app_string in Hfuel. cbn in Hfuel. lia. }
    cbn [getStyle_loop]. rewrite exec_declaration by done.
    rewrite lookup_insert_ne, !lookup_insert_eq by done.
    change (String ";" (" " ++ declarations ds ++ post)%string)
      with ("; " ++ declarations ds ++ post)%string.
    rewrite IH; [done | done | done |].
    rewrite !length_app_string in Hfuel. cbn [String.length] in Hfuel.
    rewrite !length_app_string in Hfuel.
    rewrite !length_app_string. cbn [String.length] in *. lia.
Qed.

(** X5. The authoring convention is read back.  For a font-family
    string made of any text without the letter [o], then declarations
    [key: value; ] whose keys are [object-fit] or [object-position] and
    whose values are non-empty runs of the value characters that do not
    start with white space, then again text without [o], [getStyle]
    returns an object whose [object-fit] and [object-position] are those
    of the last declaration of each key. *)
Theorem getStyle_reads_declarations (pre post : string)
    (ds : list (string * string)) :
  o_free pre = true -> o_free post = true ->
  Forall (fun d => (fst d = "object-fit" \/ fst d = "object-position") /\
                   valid_value (snd d) = true) ds ->
  exists style,
    getStyle (pre ++ declarations ds ++ post) = Ok style /\
    style !! "object-fit" = assign_all ds ∅ !! "object-fit" /\
    style !! "object-position" = assign_all ds ∅ !! "object-position".
Proof.
  intros Hpre Hpost Hds. unfold getStyle.
  rewrite (getStyle_loop_declarations ds Hds) by done.
  destruct (truthy_prop (assign_all ds ∅) "object-position") eqn:Ht.
  - unfold truthy_prop in Ht.
    destruct (assign_all ds ∅ !! "object-position") as [pos |] eqn:Hpos; [| done].
    destruct (parsePosition_ok _ _ Hpos) as (x & y & -> & _ & _).
    eexists. split; [reflexivity |].
    by rewrite !lookup_insert_ne by done.
  - by eexists.
Qed.

Lemma getStyle_reads_declarations_witness :
  exists style,
    getStyle "'object-fit: contain; object-position: left top; object-fit: cover; '"
      = Ok style /\
    style !! "object-fit" = Some "cover" /\
    style !! "object-position" = Some "left top".
Proof.
  destruct (getStyle_reads_declarations "'" "'"
              [("object-fit", "contain"); ("object-position", "left top");
               ("object-fit", "cover")])
    as (style & H1 & H2 & H3).
  - reflexivity.
  - reflexivity.
  - repeat (constructor; [split; [cbn [fst]; auto | reflexivity] |]).
    constructor.
  - exists style. split; [exact H1 |]. split; [exact H2 | exact H3].
Defined.

Lemma propRegex_starts_with_key {X : Type} (s : string) (caps : Captures)
    (k : string -> Captures -> option X) (x : X) :
  rmatch propRegex s caps k = Some x ->
  exists key s1, (key = "object-fit" \/ key = "object-position") /\
                 s = (key ++ s1)%string.
Proof.
  unfold propRegex. rewrite rmatch_seq, rmatch_group. cbn [rmatch].
  intros H.
  destruct (rmatch (lit "object-fit") s caps _) as [y |] eqn:Ha.
  - apply rmatch_lit in Ha as (s1 & -> & _); [| done].
    exists "object-fit", s1. by split; [left |].
  - apply rmatch_lit in H as (s1 & -> & _); [| done].
    exists "object-position", s1. by split; [right |].
Qed.

Lemma regexExec_contains (s rest : string) (caps : Captures) :
  regexExec propRegex s = Some (caps, rest) ->
  contains s "object-fit" \/ contains s "object-position".
Proof.
  induction s as [| c s IH]; rewrite regexExec_unfold; intros H.
  - destruct (rmatch propRegex "" ∅ _) as [m |] eqn:Hm; [| done].
    apply propRegex_starts_with_key in Hm as (key & s1 & [-> | ->] & E);
      [left | right]; by exists "", s1.
  - destruct (rmatch propRegex (String c s) ∅ _) as [m |] eqn:Hm.
    + apply propRegex_starts_with_key in Hm as (key & s1 & [-> | ->] & E);
        [left | right]; by exists "", s1.
    + destruct (IH H) as [(b & a & ->) | (b & a & ->)]; [left | right];
        by exists (String c b), a.
Qed.

(** X6. A font-family string in which neither [object-fit] nor
    [object-position] occurs yields the empty object. *)
Theorem getStyle_ignores_other_text (fontFamily : string) :
  ~ contains fontFamily "object-fit" ->
  ~ contains fontFamily "object-position" ->
  getStyle fontFamily = Ok ∅.
Proof.
  intros Hfit Hpos. unfold getStyle.
  assert (regexExec propRegex fontFamily = None) as Hnone.
  { destruct (regexExec propRegex fontFamily) as [[caps rest] |] eqn:E; [| done].
    apply regexExec_contains in E as [E | E]; done. }
  destruct (String.length fontFamily) as [| fuel]; cbn [getStyle_loop];
    rewrite ?Hnone; done.
Qed.

Lemma getStyle_ignores_other_text_witness :
  getStyle "Arial, sans-serif" = Ok ∅.
Proof.
  apply getStyle_ignores_other_text;
    intros H; apply includes_spec in H; vm_compute in H; discriminate H.
Defined.

(** X7. [getStyle] returns for every font-family string: the loop
    ends and [parsePosition] is only called with [object-position]
    present.  The object returned has no keys other than [object-fit],
    [object-position], [object-position-x] and [object-position-y], no
    empty value, and the two axis keys exactly when [object-position]. *)
Theorem getStyle_never_throws (fontFamily : string) :
  exists style,
    getStyle fontFamily = Ok style /\
    (forall key value, style !! key = Some value ->
       (key = "object-fit" \/ key = "object-position" \/
        key = "object-position-x" \/ key = "object-position-y") /\
       value <> "") /\
    (is_Some (style !! "object-position-x")
       <-> is_Some (style !! "object-position")) /\
    (is_Some (style !! "object-position-y")
       <-> is_Some (style !! "object-position")).
Proof.
  unfold getStyle.
  set (props := getStyle_loop _ _ _).
  assert (raw_props props) as Hraw by (by apply getStyle_loop_raw).
  assert (props !! "object-position-x" = None /\
          props !! "object-position-y" = None) as [Hx Hy].
  { split; (destruct (props !! _) as [v |] eqn:E; [| done]);
      destruct (Hraw _ _ E) as [[? | ?] _]; done. }
  destruct (truthy_prop props "object-position") eqn:Ht.
  - pose proof Ht as [pos Hpos]%truthy_prop_raw; [| done].
    destruct (parsePosition_ok props pos Hpos) as (x & y & -> & Ex & Ey).
    eexists. split; [reflexivity |]. split; [| split].
    + intros key value. rewrite !lookup_insert.
      repeat case_decide; subst.
      * intros [= <-]. split; [auto |]. repeat case_match; done.
      * intros [= <-]. split; [auto |]. repeat case_match; done.
      * intros Hk. destruct (Hraw _ _ Hk) as [[-> | ->] Hv]; auto.
    + rewrite lookup_insert_ne, lookup_insert_eq by done.
      rewrite !lookup_insert_ne, Hpos by done. split; eauto.
    + rewrite lookup_insert_eq, !lookup_insert_ne, Hpos by done. split; eauto.
  - exists props. split; [done |].
    assert (props !! "object-position" = None) as Hnone.
    { destruct (props !! "object-position") eqn:E; [| done].
      assert (truthy_prop props "object-position" = true)
        by (apply truthy_prop_raw; eauto). congruence. }
    split; [| rewrite Hx, Hy, Hnone; done].
    intros key value Hk. destruct (Hraw _ _ Hk) as [[-> | ->] Hv]; auto.
Qed.

(** X8. [parsePosition] throws a [TypeError] exactly when the object has
    no [object-position]; otherwise it changes the two axis keys only, and
    applying it again to its result changes nothing. *)
Theorem parsePosition_needs_position (style : StyleProps) :
  (parsePosition style = Throw TypeError
     <-> style !! "object-position" = None) /\
  (forall style' : StyleProps,
     parsePosition style = Ok style' ->
     (forall key, key <> "object-position-x" -> key <> "object-position-y" ->
        style' !! key = style !! key) /\
     parsePosition style' = Ok style').
Proof.
  split.
  - unfold parsePosition. destruct (style !! "object-position"); split; done.
  - intros style' H.
    destruct (style !! "object-position") as [pos |] eqn:Hpos;
      [| unfold parsePosition in H; by rewrite Hpos in H].
    destruct (parsePosition_ok style pos Hpos) as (x & y & E & Hx & Hy).
    rewrite E in H. injection H as <-. split.
    + intros key H1 H2. by rewrite !lookup_insert_ne.
    + assert ((<["object-position-y":=y]> (<["object-position-x":=x]> style))
                !! "object-position" = Some pos) as Hpos'
        by (by rewrite !lookup_insert_ne).
      destruct (parsePosition_ok _ pos Hpos') as (x' & y' & -> & Hx' & Hy').
      f_equal. rewrite Hx', Hy', <- Hx, <- Hy.
      apply map_eq. intros key. rewrite !lookup_insert.
      repeat case_decide; congruence.
Qed.


(** ** More on [initialize] and [fitIt] *)

(** X9. The loop of [initialize] stops at the first falsy entry of the
    array-like: entries after a hole are never looked at, whatever they
    are. *)
Theorem initialize_loop_stops_at_null (env : Platform)
    (before after : list (option Node)) (st : State) :
  initialize_loop env (before ++ None :: after) st
  = initialize_loop env before st.
Proof.
  revert st. induction before as [| [el |] before IH]; intros st; [done | | done].
  cbn [app initialize_loop]. destruct (initialize_step env el st); [apply IH | done].
Qed.

Lemma doc_removeEventListener target type h st :
  doc (removeEventListener target type h st) = doc st.
Proof. done. Qed.

Lemma vars_removeEventListener target type h st :
  vars (removeEventListener target type h st) = vars st.
Proof. done. Qed.

(** What [startWork] leaves alone in the document: the tree, the tags and
    the inline styles of every node but its own element. *)
Lemma startWork_tree (env : Platform) (c : nat) (st : State) :
  parentNode (doc (startWork env c st)) = parentNode (doc st) /\
  childNodes (doc (startWork env c st)) = childNodes (doc st) /\
  tagName (doc (startWork env c st)) = tagName (doc st) /\
  nextNode (doc (startWork env c st)) = nextNode (doc st).
Proof.
  unfold startWork. destruct (fits (vars st) !! c) as [cl |]; [| done].
  destruct (_ || _); [done |]. by rewrite !doc_addEventListener.
Qed.

Lemma startWork_style (env : Platform) (c : nat) (cl : FitClosure)
    (st : State) (n : Node) :
  fits (vars st) !! c = Some cl ->
  style_of (startWork env c st) n
  = if decide (n = c_el cl) then
      if ((videoWidth env (c_el cl) =? 0) || (videoHeight env (c_el cl) =? 0))%N
      then style_of st n
      else doWork (c_style cl)
             (videoWidth env (c_el cl)) (videoHeight env (c_el cl))
             (clientWidth env (c_wrap cl)) (clientHeight env (c_wrap cl))
             (style_of st n)
    else style_of st n.
Proof.
  intros Hc. unfold startWork. rewrite Hc.
  cbn [c_videoWidth c_videoHeight c_el c_wrap c_style].
  destruct (_ || _); [by case_decide |].
  unfold style_of. rewrite !doc_addEventListener. cbn.
  case_decide as E; [subst; by rewrite lookup_total_insert_eq |].
  by rewrite lookup_total_insert_ne.
Qed.

Lemma detach_orphan (n : Node) (d : Dom) :
  parentNode d !! n = None -> detach n d = d.
Proof. intros H. unfold detach. by rewrite H. Qed.

Lemma elem_of_addEventListener target type h st l :
  l ∈ listeners (loop (addEventListener target type h st))
  <-> l ∈ listeners (loop st) \/ l = mkListener target type h.
Proof.
  unfold addEventListener. case_decide as Hin.
  - split; [by left | intros [H | ->]; done].
  - cbn. rewrite elem_of_app, list_elem_of_singleton. done.
Qed.

Lemma loop_addEventListener target type h st :
  rafQueue (loop (addEventListener target type h st)) = rafQueue (loop st) /\
  dispatched (loop (addEventListener target type h st)) = dispatched (loop st).
Proof. unfold addEventListener. by case_decide. Qed.

(** The state in which [fitIt] registers its listeners, when it does not
    return early and the element has a parent. *)
Lemma fitIt_wrapped_state (env : Platform) (el p : Node) (style : StyleProps)
    (st : State) :
  prop_is style "object-fit" "fill" = false ->
  parentNode (doc st) !! el = Some p ->
  let w := nextNode (doc st) in
  parentNode (doc st) !! w = None ->
  w <> el -> w <> p ->
  exists st1,
    fitIt env el style st
    = Return (if (1 <=? readyState env el)%N
              then startWork env (length (fits (vars st)))
                     (removeEventListener (OfNode el) "loadedmetadata"
                        (startWork_fn (length (fits (vars st)))) st1)
              else st1) /\
    parentNode (doc st1)
      = <[el := w]> (<[w := p]> (delete el (parentNode (doc st)))) /\
    childNodes (doc st1)
      = <[w := childNodes (doc st) !!! w ++ [el]]>
          (<[p := (fun n => if decide (n = el) then w else n)
                    <$> (childNodes (doc st) !!! p)]> (childNodes (doc st))) /\
    tagName (doc st1) = <[w := "object-fit"]> (tagName (doc st)) /\
    nextNode (doc st1) = S w /\
    inlineStyle (doc st1)
      = <[el := <["opacity" := CssNum 1]> (<["display" := CssStr "block"]>
                 (<["border" := CssNum 0]> (<["margin" := CssNum 0]>
                 (<["padding" := CssNum 0]> (inlineStyle (doc st) !!! el)))))]>
          (<[w := wrapCss env el ∪ (inlineStyle (doc st) !!! w)]>
             (inlineStyle (doc st))) /\
    fits (vars st1) = fits (vars st) ++ [mkFit el w style 0 0] /\
    monitors (vars st1) = monitors (vars st) /\
    throttles (vars st1) = throttles (vars st) /\
    timers (loop st1) = timers (loop st) /\
    rafQueue (loop st1) = rafQueue (loop st) /\
    dispatched (loop st1) = dispatched (loop st) /\
    (forall l, l ∈ listeners (loop st1) <->
       l ∈ listeners (loop st) \/
       l = mkListener (OfNode el) "loadedmetadata"
             (startWork_fn (length (fits (vars st)))) \/
       l = mkListener Window "optimizedResize"
             (startWork_fn (length (fits (vars st))))).
Proof.
  intros Hfill Hp w Hw Hwel Hwp. unfold fitIt. rewrite Hfill.
  cbn [createElement]. cbn [doc on_doc parentNode]. rewrite Hp.
  eexists. split; [destruct (1 <=? readyState env el)%N; reflexivity |].
  rewrite !doc_addEventListener, !vars_addEventListener, !timers_addEventListener.
  rewrite !(proj1 (loop_addEventListener _ _ _ _)),
          !(proj2 (loop_addEventListener _ _ _ _)).
  unfold setStyle, appendChild, replaceChild.
  cbn [doc vars loop on_doc on_vars on_loop set_inlineStyle set_fits
       parentNode childNodes tagName nextNode inlineStyle
       fits monitors throttles timers rafQueue dispatched listeners].
  rewrite (detach_orphan (nextNode (doc st))) by done.
  cbn [parentNode childNodes tagName nextNode inlineStyle].
  rewrite detach_orphan
    by (cbn [parentNode]; rewrite lookup_insert_ne, lookup_delete_eq by done; done).
  cbn [parentNode childNodes tagName nextNode inlineStyle].
  split_and!; try done.
  - rewrite (lookup_total_insert_ne _ p) by done. done.
  - rewrite !lookup_total_insert_eq, lookup_total_insert_ne by done.
    rewrite !insert_insert_eq. done.
  - intros l. rewrite !elem_of_addEventListener. tauto.
Qed.

(** X10. The tree surgery of [fitIt].  For a fit other than [fill] and
    an element with parent [p], [fitIt] returns and the element is then the
    only child of a new [object-fit] element [w] that stands where the
    element stood among the children of [p]; no other node changes its
    parent or its children. *)
Theorem fitIt_wraps (env : Platform) (el p : Node) (style : StyleProps)
    (st : State) :
  prop_is style "object-fit" "fill" = false ->
  parentNode (doc st) !! el = Some p ->
  let w := nextNode (doc st) in
  parentNode (doc st) !! w = None ->
  childNodes (doc st) !! w = None ->
  w <> el -> w <> p ->
  exists st',
    fitIt env el style st = Return st' /\
    is_wrapped st' el /\
    parentNode (doc st') !! el = Some w /\
    parentNode (doc st') !! w = Some p /\
    childNodes (doc st') !!! w = [el] /\
    childNodes (doc st') !!! p
      = (fun n => if decide (n = el) then w else n)
          <$> (childNodes (doc st) !!! p) /\
    (forall n, n <> el -> n <> w ->
       parentNode (doc st') !! n = parentNode (doc st) !! n) /\
    (forall n, n <> p -> n <> w ->
       childNodes (doc st') !! n = childNodes (doc st) !! n).
Proof.
  intros Hfill Hp w Hw Hcw Hwel Hwp.
  destruct (fitIt_wrapped_state env el p style st Hfill Hp Hw Hwel Hwp)
    as (st1 & -> & Hpar & Hch & Htag & _).
  eexists. split; [reflexivity |].
  assert (forall st', parentNode (doc st') = parentNode (doc st1) ->
            childNodes (doc st') = childNodes (doc st1) ->
            tagName (doc st') = tagName (doc st1) ->
            is_wrapped st' el /\
            parentNode (doc st') !! el = Some w /\
            parentNode (doc st') !! w = Some p /\
            childNodes (doc st') !!! w = [el] /\
            childNodes (doc st') !!! p
              = (fun n => if decide (n = el) then w else n)
                  <$> (childNodes (doc st) !!! p) /\
            (forall n, n <> el -> n <> w ->
               parentNode (doc st') !! n = parentNode (doc st) !! n) /\
            (forall n, n <> p -> n <> w ->
               childNodes (doc st') !! n = childNodes (doc st) !! n)) as Hall.
  { intros st' E1 E2 E3. unfold is_wrapped.
    rewrite E1, E2, E3, Hpar, Hch, Htag. subst w.
    split.
    { eexists. by rewrite !lookup_insert_eq. }
    split; [by rewrite lookup_insert_eq |].
    split; [by rewrite lookup_insert_ne, lookup_insert_eq by done |].
    split.
    { rewrite lookup_total_insert_eq.
      by rewrite (lookup_total_alt (childNodes (doc st))), Hcw. }
    split; [by rewrite lookup_total_insert_ne, lookup_total_insert_eq by done |].
    split.
    - intros n H1 H2. by rewrite !lookup_insert_ne, lookup_delete_ne by done.
    - intros n H1 H2. by rewrite !lookup_insert_ne by done. }
  destruct (1 <=? readyState env el)%N; [| by apply Hall].
  destruct (startWork_tree env (length (fits (vars st)))
              (removeEventListener (OfNode el) "loadedmetadata"
                 (startWork_fn (length (fits (vars st)))) st1))
    as (E1 & E2 & E3 & _).
  by apply Hall.
Qed.

Lemma fitIt_wraps_witness :
  exists st',
    fitIt (example_platform 0 0) 1 {[ "object-fit" := "cover" ]} example_page
      = Return st' /\
    parentNode (doc st') !! 1%nat = Some 5%nat /\
    parentNode (doc st') !! 5%nat = Some 0%nat /\
    childNodes (doc st') !!! 0%nat = [5; 2; 3; 4]%nat.
Proof.
  destruct (fitIt_wraps (example_platform 0 0) 1 0
              {[ "object-fit" := "cover" ]} example_page)
    as (st' & H1 & _ & H2 & H3 & _ & H4 & _); try reflexivity; try discriminate.
  exists st'. split; [exact H1 |]. split; [exact H2 |]. split; [exact H3 |].
  rewrite H4. vm_compute. reflexivity.
Defined.

Lemma wrapCss_fixed (env : Platform) (el : Node) :
  wrapCss env el !! "height" = Some (CssStr "100%") /\
  wrapCss env el !! "width" = Some (CssStr "100%") /\
  wrapCss env el !! "boxSizing" = Some (CssStr "content-box") /\
  wrapCss env el !! "display" = Some (CssStr "inline-block") /\
  wrapCss env el !! "overflow" = Some (CssStr "hidden").
Proof.
  unfold wrapCss. rewrite copied_properties_are. cbn [foldl].
  rewrite !lookup_insert.
  split_and!;
    repeat (case_decide; [first [reflexivity | discriminate] |]); done.
Qed.

Lemma wrapCss_copied (env : Platform) (el : Node) (key : string) :
  key ∈ copied_properties ->
  wrapCss env el !! key = Some (CssStr (computedStyle env el key)).
Proof.
  unfold wrapCss. rewrite copied_properties_are. cbn [foldl]. intros Hin.
  rewrite !lookup_insert.
  repeat (apply elem_of_cons in Hin as [-> | Hin];
          [repeat (case_decide; [first [reflexivity | discriminate] |]);
           done |]).
  by apply elem_of_nil in Hin.
Qed.

Lemma wrapCss_keys (env : Platform) (el : Node) (key : string) :
  is_Some (wrapCss env el !! key) ->
  key ∈ ["height"; "width"; "boxSizing"; "display"; "overflow"]
  \/ key ∈ copied_properties.
Proof.
  unfold wrapCss. rewrite copied_properties_are. cbn [foldl].
  rewrite !lookup_insert. intros H.
  repeat (case_decide; [subst key; rewrite !elem_of_cons; naive_solver |]).
  rewrite lookup_empty in H. by destruct H.
Qed.

(** X11. The styles of [fitIt].  The wrapper's inline style is exactly
    [wrapCss]: [height] and [width] [100%], [boxSizing] [content-box],
    [display] [inline-block], [overflow] [hidden], and the element's
    computed value for each of the fifteen copied properties, no other
    property.  The element gets [padding], [margin] and [border] 0,
    [display] [block] and [opacity] 1. *)
Theorem fitIt_styles (env : Platform) (el p : Node) (style : StyleProps)
    (st : State) :
  prop_is style "object-fit" "fill" = false ->
  parentNode (doc st) !! el = Some p ->
  let w := nextNode (doc st) in
  parentNode (doc st) !! w = None ->
  inlineStyle (doc st) !! w = None ->
  w <> el -> w <> p ->
  exists st',
    fitIt env el style st = Return st' /\
    style_of st' w = wrapCss env el /\
    (forall key, key ∈ copied_properties ->
       style_of st' w !! key = Some (CssStr (computedStyle env el key))) /\
    style_of st' w !! "height" = Some (CssStr "100%") /\
    style_of st' w !! "width" = Some (CssStr "100%") /\
    style_of st' w !! "boxSizing" = Some (CssStr "content-box") /\
    style_of st' w !! "display" = Some (CssStr "inline-block") /\
    style_of st' w !! "overflow" = Some (CssStr "hidden") /\
    (forall key, is_Some (style_of st' w !! key) ->
       key ∈ ["height"; "width"; "boxSizing"; "display"; "overflow"]
       \/ key ∈ copied_properties) /\
    style_of st' el !! "padding" = Some (CssNum 0) /\
    style_of st' el !! "margin" = Some (CssNum 0) /\
    style_of st' el !! "border" = Some (CssNum 0) /\
    style_of st' el !! "display" = Some (CssStr "block") /\
    style_of st' el !! "opacity" = Some (CssNum 1).
Proof.
  intros Hfill Hp w Hw Hsw Hwel Hwp.
  destruct (fitIt_wrapped_state env el p style st Hfill Hp Hw Hwel Hwp)
    as (st1 & -> & _ & _ & _ & _ & Hsty & Hfits & _).
  destruct (wrapCss_fixed env el) as (F1 & F2 & F3 & F4 & F5).
  pose proof (wrapCss_copied env el) as F6.
  pose proof (wrapCss_keys env el) as F7.
  revert Hsty F1 F2 F3 F4 F5 F6 F7. generalize (wrapCss env el).
  intros W Hsty F1 F2 F3 F4 F5 F6 F7.
  eexists. split; [reflexivity |].
  assert (style_of st1 w = W) as Hwrap.
  { unfold style_of. rewrite Hsty. subst w.
    rewrite lookup_total_insert_ne, lookup_total_insert_eq by done.
    rewrite (lookup_total_alt (inlineStyle (doc st))), Hsw.
    apply (right_id_L ∅ (∪)). }
  assert (forall key, key = "padding" \/ key = "margin" \/ key = "border" \/
                      key = "display" \/ key = "opacity" ->
            style_of st1 el !! key
            = <["opacity" := CssNum 1]> (<["display" := CssStr "block"]>
                (<["border" := CssNum 0]> (<["margin" := CssNum 0]>
                (<["padding" := CssNum 0]> (∅ : InlineStyle))))) !! key) as Hel.
  { intros key Hkey. unfold style_of. rewrite Hsty, lookup_total_insert_eq.
    rewrite !lookup_insert.
    destruct Hkey as [-> | [-> | [-> | [-> | ->]]]];
      repeat (case_decide; [first [reflexivity | discriminate] |]);
      first [reflexivity | congruence]. }
  set (st2 := if (1 <=? readyState env el)%N then _ else st1).
  assert (style_of st2 w = style_of st1 w /\
          forall key, key = "padding" \/ key = "margin" \/ key = "border" \/
                      key = "display" \/ key = "opacity" ->
            style_of st2 el !! key = style_of st1 el !! key) as [E1 E2].
  { subst st2. destruct (1 <=? readyState env el)%N; [| by split].
    set (st3 := removeEventListener _ _ _ st1).
    assert (fits (vars st3) !! length (fits (vars st))
            = Some (mkFit el w style 0 0)) as Hc.
    { subst st3. rewrite vars_removeEventListener, Hfits.
      by apply list_lookup_middle. }
    split.
    - rewrite (startWork_style env _ _ st3 w Hc). cbn [c_el].
      by rewrite decide_False by done.
    - intros key Hkey. rewrite (startWork_style env _ _ st3 el Hc). cbn [c_el].
      rewrite decide_True by done.
      destruct (_ || _); [done |].
      rewrite doWork_other_keys; [done | | | |];
        destruct Hkey as [-> | [-> | [-> | [-> | ->]]]]; discriminate. }
  rewrite E1, Hwrap.
  rewrite (E2 "padding"), (E2 "margin"), (E2 "border"), (E2 "display"),
    (E2 "opacity") by auto 10.
  rewrite (Hel "padding"), (Hel "margin"), (Hel "border"), (Hel "display"),
    (Hel "opacity") by auto 10.
  split; [reflexivity |]. split; [exact F6 |].
  split; [exact F1 |]. split; [exact F2 |]. split; [exact F3 |].
  split; [exact F4 |]. split; [exact F5 |]. split; [exact F7 |].
  split_and!; reflexivity.
Qed.

Lemma fitIt_styles_witness :
  exists st',
    fitIt (example_platform 0 0) 1 {[ "object-fit" := "cover" ]} example_page
      = Return st' /\
    style_of st' 5 !! "overflow" = Some (CssStr "hidden") /\
    style_of st' 5 !! "position" = Some (CssStr "auto") /\
    style_of st' 1 !! "display" = Some (CssStr "block").
Proof.
  destruct (fitIt_styles (example_platform 0 0) 1 0
              {[ "object-fit" := "cover" ]} example_page)
    as (st' & H1 & _ & H2 & _ & _ & _ & _ & H3 & _ & _ & _ & _ & H4 & _);
    try reflexivity; try discriminate.
  exists st'. split; [exact H1 |]. split; [exact H3 |]. split; [| exact H4].
  rewrite H2; [reflexivity |].
  rewrite copied_properties_are, !elem_of_cons. auto 20.
Defined.

Lemma fitIt_detached (env : Platform) (el : Node) (style : StyleProps)
    (st : State) :
  prop_is style "object-fit" "fill" = false ->
  parentNode (doc st) !! el = None ->
  fitIt env el style st
  = Raise TypeError (snd (createElement "object-fit" st)).
Proof.
  intros Hfill Hp. unfold fitIt. rewrite Hfill.
  cbn [createElement snd]. cbn [doc on_doc parentNode]. by rewrite Hp.
Qed.

(** X12. Nothing is caught.  When the browser lacks a property, a
    selector that [querySelectorAll] rejects makes the entry point raise
    that exception with the page unchanged; and a first element that is
    tagged with a fit other than [fill] but has no parent makes it raise a
    [TypeError] at [$el.parentNode.replaceChild] with no listener, timeout
    or closure added and the tree and styles unchanged.  In both cases
    [throttle] is never reached. *)
Theorem exceptions_reach_the_caller (env : Platform) (st : State) :
  negb (supportsObjectFit env) || negb (supportsObjectPosition env) = true ->
  (forall (selector : string) (e : exn),
     selector <> "" ->
     querySelectorAll env selector = Throw e ->
     objectFitVideos env (ArgString selector) st = Raise e st) /\
  (forall (el : Node) (style : StyleProps) (after : list (option Node)),
     getStyle (fontFamily env el) = Ok style ->
     truthy_prop style "object-fit" || truthy_prop style "object-position"
       = true ->
     fit_or_fill style <> "fill" ->
     parentNode (doc st) !! el = None ->
     exists st',
       objectFitVideos env (ArgArrayLike (Some el :: after)) st
         = Raise TypeError st' /\
       loop st' = loop st /\ vars st' = vars st /\
       parentNode (doc st') = parentNode (doc st) /\
       childNodes (doc st') = childNodes (doc st) /\
       inlineStyle (doc st') = inlineStyle (doc st)).
Proof.
  intros Hun. split.
  - intros selector e Hne Hq. unfold objectFitVideos, initialize.
    rewrite Hun. cbn [truthy_arg].
    destruct (String.eqb_spec selector ""); [done |]. cbn [negb].
    by rewrite Hq.
  - intros el style after Hget Htag Hfill Hp.
    unfold objectFitVideos, initialize. rewrite Hun.
    cbn [truthy_arg initialize_loop]. unfold initialize_step.
    rewrite Hget, Htag.
    rewrite fitIt_detached; [| | done].
    + eexists. split; [reflexivity |]. done.
    + unfold prop_is. apply bool_decide_eq_false.
      rewrite lookup_insert_eq. congruence.
Qed.

Lemma exceptions_reach_the_caller_witness :
  objectFitVideos (example_platform 0 0) (ArgString "div >") example_page
  = Raise SyntaxError example_page.
Proof.
  apply (proj1 (exceptions_reach_the_caller (example_platform 0 0)
                  example_page eq_refl)).
  - discriminate.
  - reflexivity.
Defined.

(** ** More on [startWork], [videoDimensionsMonitor] and [ended] *)

Lemma startWork_fits (env : Platform) (c : nat) (cl : FitClosure) (st : State) :
  fits (vars st) !! c = Some cl ->
  fits (vars (startWork env c st))
  = <[c := mkFit (c_el cl) (c_wrap cl) (c_style cl)
             (videoWidth env (c_el cl)) (videoHeight env (c_el cl))]>
      (fits (vars st)).
Proof.
  intros Hc. unfold startWork. rewrite Hc.
  destruct (_ || _); [done |]. by rewrite !vars_addEventListener.
Qed.

(** X13. [videoDimensionsMonitor] does nothing while the element reports
    the cached intrinsic size.  When either dimension differs it stores the
    new size in the closure and runs [doWork] with it on the element's
    inline style, touching no other element and no listener or timeout.
    Right after [startWork] it does nothing. *)
Theorem videoDimensionsMonitor_follows_changes (env : Platform) (c : nat)
    (cl : FitClosure) (st : State) :
  fits (vars st) !! c = Some cl ->
  (videoWidth env (c_el cl) = c_videoWidth cl ->
   videoHeight env (c_el cl) = c_videoHeight cl ->
   videoDimensionsMonitor env c st = st) /\
  (videoWidth env (c_el cl) <> c_videoWidth cl \/
   videoHeight env (c_el cl) <> c_videoHeight cl ->
   let st' := videoDimensionsMonitor env c st in
   loop st' = loop st /\
   fits (vars st') !! c
     = Some (mkFit (c_el cl) (c_wrap cl) (c_style cl)
               (videoWidth env (c_el cl)) (videoHeight env (c_el cl))) /\
   style_of st' (c_el cl)
     = doWork (c_style cl)
         (videoWidth env (c_el cl)) (videoHeight env (c_el cl))
         (clientWidth env (c_wrap cl)) (clientHeight env (c_wrap cl))
         (style_of st (c_el cl)) /\
   forall n, n <> c_el cl -> style_of st' n = style_of st n) /\
  videoDimensionsMonitor env c (startWork env c st) = startWork env c st.
Proof.
  intros Hc. split; [| split].
  - intros Hw Hh. unfold videoDimensionsMonitor.
    by rewrite Hc, Hw, Hh, !N.eqb_refl.
  - intros Hne st'. subst st'. unfold videoDimensionsMonitor. rewrite Hc.
    assert (negb (videoWidth env (c_el cl) =? c_videoWidth cl)%N
            || negb (videoHeight env (c_el cl) =? c_videoHeight cl)%N = true)
      as ->.
    { apply orb_true_iff.
      destruct Hne as [H | H]; [left | right];
        by apply negb_true_iff, N.eqb_neq. }
    split; [done |]. split.
    { cbn. apply list_lookup_insert_eq. by apply lookup_lt_Some in Hc. }
    unfold style_of. cbn. split.
    + by rewrite lookup_total_insert_eq.
    + intros n Hn. by rewrite lookup_total_insert_ne.
  - unfold videoDimensionsMonitor.
    rewrite (startWork_fits env c cl st Hc).
    rewrite list_lookup_insert_eq by (by apply lookup_lt_Some in Hc).
    cbn [c_el c_videoWidth c_videoHeight]. by rewrite !N.eqb_refl.
Qed.

Lemma videoDimensionsMonitor_follows_changes_witness :
  videoDimensionsMonitor (example_platform 1920 1080) 0
    (startWork (example_platform 1920 1080) 0 example_wrapped)
  = startWork (example_platform 1920 1080) 0 example_wrapped.
Proof.
  exact (proj2 (proj2 (videoDimensionsMonitor_follows_changes
           (example_platform 1920 1080) 0
           (mkFit 1 5 {[ "object-fit" := "cover" ]} 0 0)
           example_wrapped eq_refl))).
Defined.

(** X14. Unlike [startWork], [videoDimensionsMonitor] does not test for
    zero: when the element reports 0 x 0 after a non-zero size was cached,
    [doWork] runs with the ratio 0/0 and assigns [NaNpx] to the width
    (fit [cover]) or to the height (fit [contain]); no retry is
    scheduled. *)
Theorem videoDimensionsMonitor_has_no_zero_guard (env : Platform) (c : nat)
    (cl : FitClosure) (st : State) :
  fits (vars st) !! c = Some cl ->
  videoWidth env (c_el cl) = 0%N -> videoHeight env (c_el cl) = 0%N ->
  c_videoWidth cl <> 0%N \/ c_videoHeight cl <> 0%N ->
  let st' := videoDimensionsMonitor env c st in
  (c_style cl !! "object-fit" = Some "cover" ->
     style_of st' (c_el cl) !! "width" = Some (CssPx JNaN)) /\
  (c_style cl !! "object-fit" = Some "contain" ->
     style_of st' (c_el cl) !! "height" = Some (CssPx JNaN)) /\
  timers (loop st') = timers (loop st).
Proof.
  intros Hc Hw Hh Hne st'. subst st'. unfold videoDimensionsMonitor.
  rewrite Hc, Hw, Hh.
  assert (negb (0 =? c_videoWidth cl)%N || negb (0 =? c_videoHeight cl)%N = true)
    as ->.
  { apply orb_true_iff.
    destruct Hne as [H | H]; [left | right];
      apply negb_true_iff, N.eqb_neq; congruence. }
  unfold style_of. cbn. rewrite lookup_total_insert_eq.
  split; [| split; [| done]]; intros Hfit.
  - assert (first_arm (c_style cl) 0 0 (clientWidth env (c_wrap cl))
              (clientHeight env (c_wrap cl)) = true) as Harm
      by (unfold first_arm; cbn; by apply prop_is_true).
    by destruct (doWork_height_arm (c_style cl) 0 0
                   (clientWidth env (c_wrap cl)) (clientHeight env (c_wrap cl))
                   (inlineStyle (doc st) !!! c_el cl) Harm) as (-> & _).
  - assert (first_arm (c_style cl) 0 0 (clientWidth env (c_wrap cl))
              (clientHeight env (c_wrap cl)) = false) as Harm.
    { unfold first_arm, prop_is. cbn. apply bool_decide_eq_false.
      rewrite Hfit. congruence. }
    by destruct (doWork_width_arm (c_style cl) 0 0
                   (clientWidth env (c_wrap cl)) (clientHeight env (c_wrap cl))
                   (inlineStyle (doc st) !!! c_el cl) Harm) as (_ & -> & _).
Qed.

Lemma videoDimensionsMonitor_has_no_zero_guard_witness :
  style_of (videoDimensionsMonitor (example_platform 0 0) 0
              (startWork (example_platform 1920 1080) 0 example_wrapped)) 1
    !! "width"
  = Some (CssPx JNaN).
Proof.
  refine (proj1 (videoDimensionsMonitor_has_no_zero_guard
            (example_platform 0 0) 0
            (mkFit 1 5 {[ "object-fit" := "cover" ]} 1920 1080)
            (startWork (example_platform 1920 1080) 0 example_wrapped)
            _ _ _ _) _).
  - vm_compute. reflexivity.
  - reflexivity.
  - reflexivity.
  - left. discriminate.
  - reflexivity.
Defined.

Lemma filter_not_elem {A : Type} `{EqDecision A} (x : A) (l : list A) :
  x ∉ l -> filter (fun y => y <> x) l = l.
Proof.
  intros Hx. induction l as [| y l IH]; [done |].
  apply not_elem_of_cons in Hx as [Hne Hx].
  rewrite filter_cons_True by done. by rewrite IH.
Qed.

(** X15. With non-zero intrinsic sizes [startWork] appends exactly two
    listeners on the element, a [timeupdate] monitor and an [ended]
    listener, both new function objects; when the [ended] listener runs it
    removes the two, restoring the list of listeners as it was before
    [startWork]. *)
Theorem ended_undoes_startWork (env : Platform) (c : nat) (cl : FitClosure)
    (st : State) :
  fits (vars st) !! c = Some cl ->
  videoWidth env (c_el cl) <> 0%N -> videoHeight env (c_el cl) <> 0%N ->
  let k := monitors (vars st) in
  let monitor := mkListener (OfNode (c_el cl)) "timeupdate"
                   (videoDimensionsMonitor_fn c k) in
  let finish := mkListener (OfNode (c_el cl)) "ended" (ended_fn c k) in
  monitor ∉ listeners (loop st) -> finish ∉ listeners (loop st) ->
  listeners (loop (startWork env c st))
    = listeners (loop st) ++ [monitor; finish] /\
  monitors (vars (startWork env c st)) = S k /\
  listeners (loop (ended c k (startWork env c st))) = listeners (loop st).
Proof.
  intros Hc Hw Hh k monitor finish Hm Hf.
  assert (listeners (loop (startWork env c st))
          = listeners (loop st) ++ [monitor; finish] /\
          monitors (vars (startWork env c st)) = S k) as [Hls Hk].
  { unfold startWork. rewrite Hc.
    cbn [c_videoWidth c_videoHeight c_el c_wrap c_style].
    apply N.eqb_neq in Hw, Hh. rewrite Hw, Hh. cbn [orb].
    rewrite !vars_addEventListener.
    unfold addEventListener at 2. rewrite decide_False by done.
    unfold addEventListener. rewrite decide_False.
    - cbn. by rewrite <- app_assoc.
    - cbn. intros [H | H%list_elem_of_singleton]%elem_of_app; [done |].
      discriminate H. }
  split; [done |]. split; [done |].
  unfold ended.
  rewrite (startWork_fits env c cl st Hc).
  rewrite list_lookup_insert_eq by (by apply lookup_lt_Some in Hc).
  cbn [c_el]. unfold removeEventListener. cbn. rewrite Hls.
  fold monitor finish.
  rewrite !filter_app, !(filter_not_elem _ (listeners (loop st))) by done.
  rewrite filter_cons_False by (intros H; by apply H).
  rewrite filter_cons_True by discriminate.
  rewrite filter_nil. cbn [app].
  rewrite filter_cons_False by (intros H; by apply H).
  by rewrite filter_nil, app_nil_r.
Qed.

Lemma ended_undoes_startWork_witness :
  listeners (loop (ended 0 0
     (startWork (example_platform 1920 1080) 0 example_wrapped)))
  = listeners (loop example_wrapped).
Proof.
  refine (proj2 (proj2 (ended_undoes_startWork (example_platform 1920 1080) 0
            (mkFit 1 5 {[ "object-fit" := "cover" ]} 0 0)
            example_wrapped _ _ _ _ _))).
  - vm_compute. reflexivity.
  - discriminate.
  - discriminate.
  - intros H. apply list_elem_of_In in H. vm_compute in H.
    destruct H as [H | [H | []]]; discriminate H.
  - intros H. apply list_elem_of_In in H. vm_compute in H.
    destruct H as [H | [H | []]]; discriminate H.
Defined.

(** ** More on [throttle] *)

Lemma inv_animationFrame_idle (t : nat) (l0 : Listener) (th : ThrottleClosure)
    (d : list (EventTarget * Event)) (env : Platform) (st : State) :
  throttle_inv t l0 th [] d st ->
  throttle_inv t l0 th [] d (animationFrame env st).
Proof.
  intros (H1 & H2 & H3 & H4 & H5 & H6). unfold animationFrame.
  rewrite H2. cbn [foldl]. by split_and!.
Qed.

Lemma inv_run_rounds (t : nat) (obj : EventTarget) (type : string)
    (evt : Event) (rounds : list (list BrowserStep * Platform)) :
  forall (d : list (EventTarget * Event)) (st : State),
    throttle_inv t (mkListener obj type (throttle_func t))
      (mkThrottle obj evt false) [] d st ->
    throttle_inv t (mkListener obj type (throttle_func t))
      (mkThrottle obj evt false) []
      (d ++ replicate
              (length (filter (fun r => has_source obj type r = true) rounds))
              (obj, evt))
      (run_rounds rounds st).
Proof.
  induction rounds as [| [steps env] rounds IH]; intros d st Hinv.
  - cbn. by rewrite app_nil_r.
  - cbn [run_rounds foldl]. fold (run_rounds rounds). unfold run_round at 2.
    cbn [fst snd].
    apply (inv_run_steps t obj type evt steps) in Hinv. cbn zeta in Hinv.
    cbn [orb] in Hinv.
    destruct (existsb (is_source obj type) steps) eqn:Hany.
    + apply (inv_animationFrame t obj type evt d env) in Hinv.
      apply IH in Hinv.
      rewrite filter_cons_True by done. cbn [length replicate].
      by rewrite <- app_assoc in Hinv.
    + apply (inv_animationFrame_idle _ _ _ _ env) in Hinv.
      apply IH in Hinv.
      rewrite filter_cons_False; [done |].
      unfold has_source. cbn [fst]. by rewrite Hany.
Qed.

(** X16. After [throttle], over any number of animation frames: the
    custom event is dispatched once for every frame interval in which at
    least one source event reached the object and never otherwise, and
    after each frame no callback is pending and [running] is false. *)
Theorem throttle_one_dispatch_per_busy_frame (env0 : Platform)
    (type name : string) (obj : option EventTarget) (st0 : State)
    (rounds : list (list BrowserStep * Platform)) :
  no_throttle_callbacks st0 ->
  let t := length (throttles (vars st0)) in
  let evt := if hasCustomEvent env0 then mkEvent name false false
             else mkEvent name true true in
  let st := run_rounds rounds (throttle env0 type name obj st0) in
  dispatched (loop st)
    = dispatched (loop st0)
      ++ replicate
           (length (filter (fun r => has_source (default Window obj) type r = true)
                           rounds))
           (default Window obj, evt) /\
  rafQueue (loop st) = [] /\
  t_running <$> throttles (vars st) !! t = Some false.
Proof.
  intros Hwf t evt st.
  pose proof (throttle_establishes env0 type name obj st0 Hwf) as Hinv.
  cbn zeta in Hinv. fold t evt in Hinv.
  apply (inv_run_rounds _ _ _ _ rounds) in Hinv. fold st in Hinv.
  destruct Hinv as (H1 & H2 & H3 & _).
  split; [done |]. split; [done |]. by rewrite H1.
Qed.

Lemma throttle_one_dispatch_per_busy_frame_witness :
  dispatched (loop (run_rounds
    [(replicate 3 (EventStep (example_platform 0 0) Window "resize"),
      example_platform 0 0);
     ([], example_platform 0 0);
     ([EventStep (example_platform 0 0) Window "resize"],
      example_platform 0 0)]
    (throttle (example_platform 0 0) "resize" "optimizedResize" None
       example_initialized)))
  = [(Window, mkEvent "optimizedResize" false false);
     (Window, mkEvent "optimizedResize" false false)].
Proof.
  refine (proj1 (throttle_one_dispatch_per_busy_frame (example_platform 0 0)
            "resize" "optimizedResize" None example_initialized
            [(replicate 3 (EventStep (example_platform 0 0) Window "resize"),
              example_platform 0 0);
             ([], example_platform 0 0);
             ([EventStep (example_platform 0 0) Window "resize"],
              example_platform 0 0)] _)).
  split; [| split]; vm_compute; repeat constructor.
Defined.


(** ** Re-fitting on [optimizedResize] *)

Lemma startWork_keeps_listeners (env : Platform) (c : nat) (st : State)
    (l : Listener) :
  l ∈ listeners (loop st) -> l ∈ listeners (loop (startWork env c st)).
Proof.
  intros Hl. unfold startWork.
  destruct (fits (vars st) !! c) as [cl |]; [| done].
  destruct (_ || _); [done |].
  rewrite !elem_of_addEventListener. by left; left.
Qed.

Section Refit.
Variables (env : Platform) (c : nat) (cl : FitClosure) (lc : Listener).
Variable base : InlineStyle.
Hypothesis Hw : videoWidth env (c_el cl) <> 0%N.
Hypothesis Hh : videoHeight env (c_el cl) <> 0%N.
Hypothesis Hlc : l_handler lc = startWork_fn c.

Local Abbreviation target :=
  (doWork (c_style cl) (videoWidth env (c_el cl)) (videoHeight env (c_el cl))
     (clientWidth env (c_wrap cl)) (clientHeight env (c_wrap cl)) base).
Local Abbreviation inv ran := (refit_inv c cl lc base target ran).

Lemma refit_own (ran : bool) (st : State) :
  inv ran st -> inv true (startWork env c st).
Proof.
  intros ((vw & vh & Hc) & Hothers & Hin & Hsty).
  split_and!.
  - rewrite (startWork_fits env c _ st Hc). cbn [c_el c_wrap c_style].
    eexists _, _. apply list_lookup_insert_eq. by apply lookup_lt_Some in Hc.
  - intros c' cl' Hne. rewrite (startWork_fits env c _ st Hc).
    rewrite list_lookup_insert_ne by done. by apply Hothers.
  - by apply startWork_keeps_listeners.
  - rewrite (startWork_style env c _ st _ Hc). cbn [c_el c_wrap c_style].
    rewrite decide_True by done.
    apply N.eqb_neq in Hw, Hh. rewrite Hw, Hh. cbn [orb].
    rewrite Hsty. destruct ran; [apply doWork_twice | done].
Qed.

Lemma refit_other (ran : bool) (c' : nat) (st : State) :
  c' <> c -> inv ran st -> inv ran (startWork env c' st).
Proof.
  intros Hne ((vw & vh & Hc) & Hothers & Hin & Hsty).
  destruct (fits (vars st) !! c') as [cl' |] eqn:Hc';
    [| unfold startWork; rewrite Hc'; by split_and!; eauto].
  pose proof (Hothers c' cl' Hne Hc') as Hel.
  split_and!.
  - rewrite (startWork_fits env c' cl' st Hc').
    rewrite list_lookup_insert_ne by done. eauto.
  - intros c'' cl'' Hne'. rewrite (startWork_fits env c' cl' st Hc').
    destruct (decide (c' = c'')) as [<- | Hd].
    + rewrite list_lookup_insert_eq by (by apply lookup_lt_Some in Hc').
      by intros [= <-].
    + rewrite list_lookup_insert_ne by done. by apply Hothers.
  - by apply startWork_keeps_listeners.
  - rewrite (startWork_style env c' cl' st _ Hc').
    by rewrite decide_False by done.
Qed.

Lemma refit_fold (ls : list Listener) :
  (forall l, l ∈ ls -> exists c', l_handler l = startWork_fn c') ->
  forall (ran : bool) (st : State),
    inv ran st ->
    exists ran2,
      inv ran2
        (foldl (fun st l => if decide (l ∈ listeners (loop st))
                            then runHandler env (l_handler l) st else st) st ls)
      /\ (ran = true \/ lc ∈ ls -> ran2 = true).
Proof.
  induction ls as [| l ls IH]; intros Hall ran st Hinv.
  - exists ran. split; [done |]. intros [H | H]; [done |].
    by apply elem_of_nil in H.
  - cbn [foldl].
    assert (forall l2, l2 ∈ ls -> exists c', l_handler l2 = startWork_fn c')
      as Hall2 by (intros l2 Hl2; apply Hall, elem_of_cons; by right).
    destruct (Hall l) as [c' Hc']; [apply elem_of_cons; by left |].
    pose proof Hinv as (_ & _ & Hin & _).
    destruct (decide (c' = c)) as [-> | Hcc].
    + (* a listener that runs this activation's [startWork] *)
      assert (inv (ran || bool_decide (l ∈ listeners (loop st)))
                (if decide (l ∈ listeners (loop st))
                 then runHandler env (l_handler l) st else st)) as Hstep.
      { case_decide as Hl.
        - rewrite bool_decide_eq_true_2, orb_true_r by done.
          rewrite Hc'. cbn [runHandler]. by apply (refit_own ran).
        - rewrite bool_decide_eq_false_2, orb_false_r by done. done. }
      destruct (IH Hall2 _ _ Hstep) as (ran2 & Hinv2 & Hran2).
      exists ran2. split; [done |].
      intros [-> | [-> | Hl]%elem_of_cons]; apply Hran2; auto.
      left. by rewrite bool_decide_eq_true_2, orb_true_r.
    + assert (inv ran (if decide (l ∈ listeners (loop st))
                       then runHandler env (l_handler l) st else st)) as Hstep.
      { case_decide as Hl; [| done].
        rewrite Hc'. cbn [runHandler]. by apply refit_other. }
      destruct (IH Hall2 _ _ Hstep) as (ran2 & Hinv2 & Hran2).
      exists ran2. split; [done |].
      intros [-> | [-> | Hl]%elem_of_cons]; [apply Hran2; auto | | apply Hran2; auto].
      rewrite Hlc in Hc'. congruence.
Qed.
End Refit.

(** X17. Dispatching [optimizedResize] on the window re-fits a wrapped
    video.  If the listeners for that event on the window are [startWork]
    functions, the one of activation [c] among them, no other activation
    has the same element and the element reports non-zero intrinsic sizes,
    then after the dispatch the element's inline style is [doWork] applied
    once to the style before, with the sizes read during the dispatch. *)
Theorem optimizedResize_refits (env : Platform) (c : nat) (cl : FitClosure)
    (evt : Event) (st : State) :
  ev_type evt = "optimizedResize" ->
  fits (vars st) !! c = Some cl ->
  mkListener Window "optimizedResize" (startWork_fn c) ∈ listeners (loop st) ->
  (forall l, l ∈ listeners (loop st) ->
     l_target l = Window -> l_type l = "optimizedResize" ->
     exists c', l_handler l = startWork_fn c') ->
  (forall c' cl', c' <> c -> fits (vars st) !! c' = Some cl' ->
     c_el cl' <> c_el cl) ->
  videoWidth env (c_el cl) <> 0%N -> videoHeight env (c_el cl) <> 0%N ->
  style_of (dispatchEvent env Window evt st) (c_el cl)
  = doWork (c_style cl) (videoWidth env (c_el cl)) (videoHeight env (c_el cl))
      (clientWidth env (c_wrap cl)) (clientHeight env (c_wrap cl))
      (style_of st (c_el cl)).
Proof.
  intros Hty Hc Hlc Hall Hothers Hw Hh.
  unfold dispatchEvent, runListeners. rewrite Hty.
  set (st1 := on_loop _ st).
  set (lc := mkListener Window "optimizedResize" (startWork_fn c)).
  assert (refit_inv c cl lc (style_of st (c_el cl))
            (doWork (c_style cl) (videoWidth env (c_el cl))
               (videoHeight env (c_el cl)) (clientWidth env (c_wrap cl))
               (clientHeight env (c_wrap cl)) (style_of st (c_el cl)))
            false st1) as Hinv.
  { split_and!; try done. destruct cl. eauto. }
  destruct (refit_fold env c cl lc (style_of st (c_el cl)) Hw Hh eq_refl
              (filter (fun l => l_target l = Window /\ l_type l = "optimizedResize")
                      (listeners (loop st1)))) with (ran := false) (st := st1)
    as (ran2 & (_ & _ & _ & Hsty) & Hran2); [| done |].
  - intros l [[Ht Hy] Hl]%list_elem_of_filter. by apply Hall.
  - rewrite Hsty, Hran2; [done |].
    right. apply list_elem_of_filter. by split.
Qed.

Lemma optimizedResize_refits_witness :
  style_of (dispatchEvent (example_platform 1920 1080) Window
              (mkEvent "optimizedResize" false false) example_wrapped) 1
    !! "width"
  = Some (CssPx (num_of_Z 533)).
Proof.
  rewrite (optimizedResize_refits (example_platform 1920 1080) 0
             (mkFit 1 5 {[ "object-fit" := "cover" ]} 0 0)
             (mkEvent "optimizedResize" false false) example_wrapped).
  - vm_compute. reflexivity.
  - reflexivity.
  - vm_compute. reflexivity.
  - vm_compute. apply elem_of_cons. by left.
  - intros l Hl Ht Hy. vm_compute in Hl.
    apply elem_of_cons in Hl as [-> | Hl]; [by exists 0%nat |].
    apply list_elem_of_singleton in Hl as ->. discriminate Hy.
  - intros c' cl' Hne Hc'. destruct c' as [| c']; [done |].
    vm_compute in Hc'. destruct c'; discriminate Hc'.
  - discriminate.
  - discriminate.
Defined.
